(** * PASETO v2.local: a shallow embedding of the Go package [paseto]

    The package has two entry points, [Encrypt] and [Decrypt], and three
    helpers, [pae], [le64] and [decodeBase64].  The embedding keeps the
    code as it is written: byte slices are Go slices (pointer, length,
    capacity) over a store of backing arrays, every statement is a step of
    a state-and-panic monad, buffers are written in place, and a slice
    expression or an index out of range panics.

    The definitions come first:
    - bytes and Go's integer conversions, [le64],
    - what [base64.RawURLEncoding] encodes and decodes,
    - the store, slices and the statements of the code,
    - the cryptographic collaborators (XChaCha20-Poly1305, keyed BLAKE2b)
      as a class with the laws their documentation states,
    - the package: [v2local], [le64], [pae], [decodeBase64], [Encrypt],
      [Decrypt],
    - the predicates of the statements and the formats as the
      specification words them,
    - a small instance of the collaborators and concrete inputs,
    - the outcome of [Decrypt] as a function of the bytes of token and
      key, and the fuzzing harness of [fuzz.go].
    The proofs follow, then the theorems on the behaviour of the package
    and their instances at the concrete inputs.

    Lengths and offsets are natural numbers: a Go [int] holds the length
    of every slice in memory, and the sums the code forms over them are
    taken not to overflow. *)

From Stdlib Require Import ZArith Lia List Strings.Byte String Zbitwise.
From stdpp Require Import base decidable option list.

Import ListNotations.
Local Open Scope Z_scope.

(** ** Bytes *)

#[global] Instance byte_eq_decision : EqDecision byte := Byte.byte_eq_dec.

(** Go's [uint(b)] of a byte. *)
Definition byte_to_Z (b : byte) : Z := Z.of_N (Byte.to_N b).

(** Go's [byte(v)]: the low eight bits. *)
Definition byte_of_Z (z : Z) : byte :=
  default x00 (Byte.of_N (Z.to_N (z mod 256))).

(** ** [le64] and [binary.LittleEndian.PutUint64] *)

(** Go's [uint64(n)] of an [int]. *)
Definition uint64 (n : Z) : Z := n mod 2 ^ 64.

(** The bytes [binary.LittleEndian.PutUint64] stores at [b[0..7]]. *)
Definition PutUint64_bytes (v : Z) : list byte :=
  [ byte_of_Z v; byte_of_Z (Z.shiftr v 8); byte_of_Z (Z.shiftr v 16);
    byte_of_Z (Z.shiftr v 24); byte_of_Z (Z.shiftr v 32);
    byte_of_Z (Z.shiftr v 40); byte_of_Z (Z.shiftr v 48);
    byte_of_Z (Z.shiftr v 56) ].

(** [u := uint64(n) << 1 >> 1], the shifts taken on 64 bits. *)
Definition le64_u (n : Z) : Z :=
  Z.shiftr (uint64 (Z.shiftl (uint64 n) 1)) 1.

Definition le64_bytes (n : Z) : list byte := PutUint64_bytes (le64_u n).

(** The field as the specification words it: the eight-byte little-endian
    encoding of the number with its top bit (bit 63) cleared. *)
Fixpoint little_endian (count : nat) (v : Z) : list byte :=
  match count with
  | O => []
  | S c => byte_of_Z v :: little_endian c (v / 256)
  end.

Definition le64_spec (n : Z) : list byte :=
  little_endian 8 (Z.clearbit (uint64 n) 63).

(** ** [encoding/base64]: the behaviour of [RawURLEncoding]

    [RawURLEncoding] is [URLEncoding.WithPadding(NoPadding)]: the URL
    alphabet, no padding character, not strict.  The functions below give
    what [Encode] stores in its destination and what [Decode] stores and
    returns, as functions of the source bytes. *)

Module base64.

Definition encodeURL : list byte :=
  list_byte_of_string
    "ABCDEFGHIJKLMNOPQRSTUVWXYZabcdefghijklmnopqrstuvwxyz0123456789-_".

(** [enc.encode[v]] *)
Definition encode_char (v : Z) : byte := nth (Z.to_nat v) encodeURL x00.

Fixpoint index_from (c : byte) (l : list byte) (i : Z) : Z :=
  match l with
  | [] => 255
  | x :: r => if Byte.eqb x c then i else index_from c r (i + 1)
  end.

(** [enc.decodeMap[c]]: the position of [c] in the alphabet, [0xff] for a
    byte outside it. *)
Definition decodeMap (c : byte) : Z := index_from c encodeURL 0.

(** [EncodedLen] and [DecodedLen] without padding. *)
Definition EncodedLen (n : nat) : nat := ((n * 8 + 5) / 6)%nat.
Definition DecodedLen (n : nat) : nat := (n * 6 / 8)%nat.

(** The bytes [Encode(dst, src)] stores at the start of [dst]. *)
Fixpoint Encode_bytes (src : list byte) : list byte :=
  match src with
  | [] => []
  | [s0] =>
      let val := Z.shiftl (byte_to_Z s0) 16 in
      [ encode_char (Z.land (Z.shiftr val 18) 63);
        encode_char (Z.land (Z.shiftr val 12) 63) ]
  | [s0; s1] =>
      let val := Z.lor (Z.shiftl (byte_to_Z s0) 16)
                       (Z.shiftl (byte_to_Z s1) 8) in
      [ encode_char (Z.land (Z.shiftr val 18) 63);
        encode_char (Z.land (Z.shiftr val 12) 63);
        encode_char (Z.land (Z.shiftr val 6) 63) ]
  | s0 :: s1 :: s2 :: rest =>
      let val := Z.lor (Z.lor (Z.shiftl (byte_to_Z s0) 16)
                              (Z.shiftl (byte_to_Z s1) 8))
                       (byte_to_Z s2) in
      encode_char (Z.land (Z.shiftr val 18) 63)
        :: encode_char (Z.land (Z.shiftr val 12) 63)
        :: encode_char (Z.land (Z.shiftr val 6) 63)
        :: encode_char (Z.land val 63)
        :: Encode_bytes rest
  end.

(** The conversion at the end of [decodeQuantum]: [dbuf] holds [dlen]
    six-bit values (the missing ones are zero) and [dlen - 1] bytes are
    stored. *)
Definition quantum_bytes (dbuf : list Z) : list byte :=
  let d i := nth i dbuf 0 in
  let val := Z.lor (Z.lor (Z.lor (Z.shiftl (d 0%nat) 18)
                                 (Z.shiftl (d 1%nat) 12))
                          (Z.shiftl (d 2%nat) 6))
                   (d 3%nat) in
  take (length dbuf - 1)
       [ byte_of_Z (Z.shiftr val 16); byte_of_Z (Z.shiftr val 8);
         byte_of_Z val ].

Definition is_newline (c : byte) : bool :=
  Byte.eqb c x0a || Byte.eqb c x0d.

(** [Decode(dst, src)]: the bytes stored at the start of [dst] (as many as
    the count [n] it returns) and whether the error is nil.  [dbuf] is the
    quantum being filled.  Line feeds and carriage returns are skipped; with
    no padding character any other byte outside the alphabet is corrupt
    input, and so is a last quantum of a single character. *)
Fixpoint decode_loop (src : list byte) (dbuf : list Z) : list byte * bool :=
  match src with
  | [] =>
      match length dbuf with
      | O => ([], true)
      | 1%nat => ([], false)
      | _ => (quantum_bytes dbuf, true)
      end
  | c :: rest =>
      let out := decodeMap c in
      if negb (out =? 255) then
        let dbuf' := dbuf ++ [out] in
        if (length dbuf' =? 4)%nat then
          let '(more, ok) := decode_loop rest [] in
          (quantum_bytes dbuf' ++ more, ok)
        else decode_loop rest dbuf'
      else if is_newline c then decode_loop rest dbuf
      else ([], false)
  end.

Definition Decode_bytes (src : list byte) : list byte * bool :=
  decode_loop src [].

(** The six-bit values, for the facts proved by enumeration. *)
Definition sextets : list Z := map Z.of_nat (seq 0 64).

End base64.

Local Close Scope Z_scope.

(** ** The store, Go slices and the statements of the code

    A slice value is a pointer into a backing array with a length and a
    capacity; the nil slice has no array.  The store holds the backing
    arrays by address; [make] allocates the next address.  The state also
    keeps a log of the calls made to the collaborators (random source,
    hash, AEAD, base64), most recent first. *)

Abbreviation addr := nat (only parsing).

Inductive slice : Type :=
| nil_slice
| Slice (base : addr) (off len cap : nat).

#[global] Instance slice_eq_decision : EqDecision slice.
Proof. solve_decision. Defined.

(** [len(s)] and [cap(s)] *)
Definition slen (s : slice) : nat :=
  match s with nil_slice => 0 | Slice _ _ len _ => len end.
Definition scap (s : slice) : nat :=
  match s with nil_slice => 0 | Slice _ _ _ cap => cap end.

Inductive call : Type :=
| CallRandRead | CallNewX | CallBlake2bNew | CallHashWrite | CallHashSum
| CallSeal | CallOpen | CallEncode | CallDecode.

Abbreviation store := (list (list byte)) (only parsing).

Record state : Type := { heap : store; calls : list call }.

(** A statement either completes with a value and a new state, or panics. *)
Inductive result (A : Type) : Type :=
| Ok (a : A) (st : state)
| Panic.
Arguments Ok {A} a st.
Arguments Panic {A}.

Definition M (A : Type) : Type := state -> result A.

#[global] Instance M_ret : MRet M := fun A a st => Ok a st.
#[global] Instance M_bind : MBind M := fun A B f c st =>
  match c st with
  | Ok a st' => f a st'
  | Panic => Panic
  end.

Definition panic {A} : M A := fun _ => Panic.

(** The bytes a slice shows in a store: [s[0], ..., s[len(s)-1]]. *)
Definition bytes (h : store) (s : slice) : list byte :=
  match s with
  | nil_slice => []
  | Slice a off len _ =>
      match h !! a with
      | Some arr => take len (drop off arr)
      | None => []
      end
  end.

Definition load (s : slice) : M (list byte) :=
  fun st => Ok (bytes (heap st) s) st.

Definition note (c : call) : M unit :=
  fun st => Ok tt {| heap := heap st; calls := c :: calls st |}.

(** [make([]byte, len, cap)]: a new zeroed array. *)
Definition make (len cap : nat) : M slice := fun st =>
  if len <=? cap
  then Ok (Slice (length (heap st)) 0 len cap)
          {| heap := heap st ++ [replicate cap x00]; calls := calls st |}
  else Panic.

(** The slice expression [s[lo:hi]]: it panics unless
    [0 <= lo <= hi <= cap(s)]; [s[lo:]] is [s[lo:len(s)]] and [s[:hi]] is
    [s[0:hi]]. *)
Definition slice_expr (s : slice) (lo hi : nat) : M slice :=
  if (lo <=? hi) && (hi <=? scap s)
  then mret match s with
            | nil_slice => nil_slice
            | Slice a off _ cap => Slice a (off + lo) (hi - lo) (cap - lo)
            end
  else panic.

Definition slice_from (s : slice) (lo : nat) : M slice :=
  slice_expr s lo (slen s).
Definition slice_to (s : slice) (hi : nat) : M slice :=
  slice_expr s 0 hi.

Definition write_at (pos : nat) (bs arr : list byte) : list byte :=
  take pos arr ++ bs ++ drop (pos + length bs) arr.

(** Assignments [s[i], s[i+1], ... = bs]; an index at or beyond [len(s)]
    panics. *)
Definition store_at (s : slice) (i : nat) (bs : list byte) : M unit :=
  fun st =>
    match s with
    | nil_slice => if length bs =? 0 then Ok tt st else Panic
    | Slice a off len _ =>
        if i + length bs <=? len then
          match heap st !! a with
          | Some arr =>
              Ok tt {| heap := <[a := write_at (off + i) bs arr]> (heap st);
                       calls := calls st |}
          | None => Panic
          end
        else Panic
    end.

(** [s[i] = b] *)
Definition set_index (s : slice) (i : nat) (b : byte) : M unit :=
  store_at s i [b].

(** [copy(dst, src)] *)
Definition copy (dst src : slice) : M nat :=
  bs ← load src;
  let n := Nat.min (slen dst) (slen src) in
  store_at dst 0 (take n bs);;
  mret n.

(** Appending [bs] to [s]: in place when the capacity allows, in a new
    array otherwise (this is [sliceForAppend] of the AEAD and the [append]
    of [Sum]; a new array is given exactly the length needed). *)
Definition append_bytes (s : slice) (bs : list byte) : M slice :=
  let total := slen s + length bs in
  if total <=? scap s then
    head ← slice_to s total;
    store_at head (slen s) bs;;
    mret head
  else
    old ← load s;
    head ← make total total;
    store_at head 0 old;;
    store_at head (slen s) bs;;
    mret head.

(** [bytes.HasPrefix] and [bytes.IndexByte] *)
Definition has_prefix (s prefix : list byte) : bool :=
  (length prefix <=? length s) &&
  bool_decide (take (length prefix) s = prefix).

Fixpoint index_byte (b : list byte) (c : byte) : Z :=
  match b with
  | [] => (-1)%Z
  | x :: r =>
      if Byte.eqb x c then 0%Z
      else let i := index_byte r c in
           if (i <? 0)%Z then (-1)%Z else (i + 1)%Z
  end.

Definition HasPrefix (s prefix : slice) : M bool :=
  a ← load s; b ← load prefix; mret (has_prefix a b).

Definition IndexByte (b : slice) (c : byte) : M Z :=
  a ← load b; mret (index_byte a c).

(** Go [error] values that occur. *)
Inductive error : Type :=
| errBadKeyLength            (* chacha20poly1305: bad key length *)
| errOpen                    (* chacha20poly1305: message authentication failed *)
| errHashSize                (* blake2b: invalid hash size *)
| errKeySize                 (* blake2b: invalid key size *)
| CorruptInputError          (* base64: illegal data *)
| EOF                        (* io.EOF *)
| errReader (msg : string).  (* any other error of the random source *)

(** [binary.LittleEndian.PutUint64(b, v)]; it panics when [len(b) < 8]. *)
Definition PutUint64 (b : slice) (v : Z) : M unit :=
  if slen b <? 8 then panic else store_at b 0 (PutUint64_bytes v).

(** [base64.RawURLEncoding.Encode(dst, src)] *)
Definition Encode (dst src : slice) : M unit :=
  note CallEncode;;
  bs ← load src;
  store_at dst 0 (base64.Encode_bytes bs).

(** [base64.RawURLEncoding.Decode(dst, src)] *)
Definition Decode (dst src : slice) : M (nat * option error) :=
  note CallDecode;;
  bs ← load src;
  let '(out, ok) := base64.Decode_bytes bs in
  store_at dst 0 out;;
  mret (length out, if ok then None else Some CorruptInputError).

(** ** The cryptographic collaborators

    [golang.org/x/crypto/chacha20poly1305] and [golang.org/x/crypto/blake2b]
    are used through their interfaces.  The class gathers the functions they
    compute on byte strings and the laws their documentation states: the
    sealed text is [Overhead] bytes longer than the plaintext, opening what
    was sealed under the same key, nonce and additional data gives the
    plaintext back, and a digest has the size asked for.  The size limit of
    the cipher on a single message is outside the model. *)

Definition KeySize : nat := 32.
Definition NonceSizeX : nat := 24.
Definition Overhead : nat := 16.

Class Crypto : Type := {
  (** key, nonce, plaintext, additional data *)
  aead_seal : list byte -> list byte -> list byte -> list byte -> list byte;
  (** key, nonce, ciphertext, additional data *)
  aead_open :
    list byte -> list byte -> list byte -> list byte -> option (list byte);
  (** digest size, key, data written *)
  blake2b_sum : nat -> list byte -> list byte -> list byte;
  aead_seal_length : forall k n p ad,
    length (aead_seal k n p ad) = length p + Overhead;
  aead_open_seal : forall k n p ad,
    length k = KeySize -> length n = NonceSizeX ->
    aead_open k n (aead_seal k n p ad) ad = Some p;
  blake2b_sum_length : forall size k d,
    1 <= size <= 64 -> length k <= 64 ->
    length (blake2b_sum size k d) = size
}.

(** The object [chacha20poly1305.NewX] returns holds a copy of the key. *)
Record xchacha20poly1305 : Type := { aead_key : list byte }.

(** The object [blake2b.New] returns holds the size, a copy of the key and
    what has been written. *)
Record digest : Type :=
  { d_size : nat; d_key : list byte; d_data : list byte }.

(** ** The package *)

(** [var v2local = []byte("v2.local.")]: the package variable is a slice
    over an array allocated when the package is initialised, which is the
    first address of the store. *)
Definition v2local_bytes : list byte := list_byte_of_string "v2.local.".
Definition v2local : slice := Slice 0 0 9 9.

Definition initial_state : state :=
  {| heap := [v2local_bytes]; calls := [] |}.

(** [func le64(n int, b []byte)] *)
Definition le64 (n : Z) (b : slice) : M unit :=
  let u := le64_u n in
  PutUint64 b u.

(** [func pae(bb ...[]byte) []byte]: the first loop, which sums the
    lengths, and the second, which fills the buffer. *)
Fixpoint pae_size (bb : list slice) (n : nat) : nat :=
  match bb with
  | [] => n
  | b :: rest => pae_size rest (n + slen b)
  end.

Fixpoint pae_fill (bb : list slice) (buf : slice) (off : nat) : M unit :=
  match bb with
  | [] => mret tt
  | b :: rest =>
      d ← slice_expr buf off (off + 8);
      le64 (Z.of_nat (slen b)) d;;
      let off := off + 8 in
      d ← slice_from buf off;
      _ ← copy d b;
      let off := off + slen b in
      pae_fill rest buf off
  end.

Definition pae (bb : list slice) : M slice :=
  let n := pae_size bb (8 + 8 * length bb) in
  buf ← make n n;
  d ← slice_to buf 8;
  le64 (Z.of_nat (length bb)) d;;
  let off := 8 in
  pae_fill bb buf off;;
  mret buf.

(** [func decodeBase64(src []byte) ([]byte, bool)] *)
Definition decodeBase64 (src : slice) : M (slice * bool) :=
  let dlen := base64.DecodedLen (slen src) in
  dst ← make dlen dlen;
  '(n, err) ← Decode dst src;
  match err with
  | Some _ => mret (nil_slice, false)
  | None =>
      dst ← slice_to dst n;
      mret (dst, true)
  end.

Section package.
Context `{Crypto}.

(** The function the package variable [randRead] holds when [Encrypt]
    runs, as a function of the length of the buffer it is given: the
    bytes it stores at the start of the buffer and the error it returns.
    A reader stores no more than the buffer holds. *)
Context (randRead : nat -> list byte * option error).

Definition call_randRead (buf : slice) : M (nat * option error) :=
  note CallRandRead;;
  let '(bs, err) := randRead (slen buf) in
  let bs := take (slen buf) bs in
  store_at buf 0 bs;;
  mret (length bs, err).

(** [chacha20poly1305.NewX(key)] *)
Definition NewX (key : slice) : M (xchacha20poly1305 + error) :=
  note CallNewX;;
  k ← load key;
  if negb (length k =? KeySize) then mret (inr errBadKeyLength)
  else mret (inl {| aead_key := k |}).

(** [aead.Seal(dst, nonce, plaintext, additionalData)]; a nonce of the
    wrong length panics. *)
Definition Seal (a : xchacha20poly1305)
    (dst nonce plaintext additionalData : slice) : M slice :=
  note CallSeal;;
  n ← load nonce;
  if negb (length n =? NonceSizeX) then panic
  else
    p ← load plaintext;
    ad ← load additionalData;
    append_bytes dst (aead_seal (aead_key a) n p ad).

(** [aead.Open(dst, nonce, ciphertext, additionalData)] *)
Definition Open (a : xchacha20poly1305)
    (dst nonce ciphertext additionalData : slice)
    : M (slice * option error) :=
  note CallOpen;;
  n ← load nonce;
  if negb (length n =? NonceSizeX) then panic
  else
    c ← load ciphertext;
    ad ← load additionalData;
    match aead_open (aead_key a) n c ad with
    | Some p => r ← append_bytes dst p; mret (r, None)
    | None => mret (nil_slice, Some errOpen)
    end.

(** [blake2b.New(size, key)], [hash.Write(p)] and [hash.Sum(b)] *)
Definition blake2b_New (size : nat) (key : slice) : M (digest + error) :=
  note CallBlake2bNew;;
  k ← load key;
  if (size <? 1) || (64 <? size) then mret (inr errHashSize)
  else if 64 <? length k then mret (inr errKeySize)
  else mret (inl {| d_size := size; d_key := k; d_data := [] |}).

Definition hash_Write (d : digest) (p : slice) : M digest :=
  note CallHashWrite;;
  bs ← load p;
  mret {| d_size := d_size d; d_key := d_key d;
          d_data := d_data d ++ bs |}.

Definition hash_Sum (d : digest) (b : slice) : M slice :=
  note CallHashSum;;
  append_bytes b (blake2b_sum (d_size d) (d_key d) (d_data d)).

(** [func Encrypt(message []byte, key []byte, footer []byte)
    ([]byte, error)] *)
Definition Encrypt (message key footer : slice)
    : M (slice * option error) :=
  let m := message in
  let k := key in
  let f := footer in
  r ← NewX k;
  match r with
  | inr err => mret (nil_slice, Some err)
  | inl aead =>
  let h := v2local in
  nc ← make 0 (24 + slen m + Overhead);
  buf ← slice_to nc 24;
  '(_, err) ← call_randRead buf;
  match err with
  | Some err => mret (nil_slice, Some err)
  | None =>
  r ← blake2b_New 24 buf;
  match r with
  | inr err => mret (nil_slice, Some err)
  | inl hash =>
  hash ← hash_Write hash m;
  nc ← hash_Sum hash nc;
  preAuth ← pae [h; nc; f];
  nc ← Seal aead nc nc m preAuth;
  let outlen := slen h + base64.EncodedLen (slen nc) in
  let outlen :=
    if 0 <? slen f
    then outlen + (1 + base64.EncodedLen (slen f))
    else outlen in
  out ← make outlen outlen;
  off ← copy out h;
  d ← slice_from out off;
  Encode d nc;;
  let off := off + base64.EncodedLen (slen nc) in
  if 0 <? slen f then
    set_index out off "."%byte;;
    let off := off + 1 in
    d ← slice_from out off;
    Encode d f;;
    mret (out, None)
  else
    mret (out, None)
  end end end.

(** [func Decrypt(token []byte, key []byte)
    (payload, footer []byte, ok bool)]: the statements from the decoding
    of the body on, reached with or without a footer. *)
Definition Decrypt_body (h m footer k : slice)
    : M (slice * slice * bool) :=
  '(raw, ok) ← decodeBase64 m;
  if negb ok then mret (nil_slice, nil_slice, false)
  else
  n ← slice_to raw 24;
  c ← slice_from raw 24;
  preAuth ← pae [h; n; footer];
  r ← NewX k;
  match r with
  | inr _ => mret (nil_slice, nil_slice, false)
  | inl aead =>
  '(payload, err) ← Open aead nil_slice n c preAuth;
  match err with
  | Some _ => mret (nil_slice, nil_slice, false)
  | None => mret (payload, footer, true)
  end end.

Definition Decrypt (token key : slice) : M (slice * slice * bool) :=
  let m := token in
  let k := key in
  let h := v2local in
  hp ← HasPrefix m h;
  if negb hp then mret (nil_slice, nil_slice, false)
  else
  m ← slice_from m (slen h);
  i ← IndexByte m "."%byte;
  if (0 <=? i)%Z then
    s ← slice_from m (Z.to_nat (i + 1));
    '(footer, ok) ← decodeBase64 s;
    if negb ok then mret (nil_slice, nil_slice, false)
    else
    m ← slice_to m (Z.to_nat i);
    Decrypt_body h m footer k
  else
    Decrypt_body h m nil_slice k.

End package.

(** ** Predicates and formats the statements use *)

(** A slice is valid in a store when its array is allocated and holds its
    whole capacity. *)
Definition valid (h : store) (s : slice) : Prop :=
  match s with
  | nil_slice => True
  | Slice a off len cap =>
      match h !! a with
      | Some arr => off + cap <= length arr /\ len <= cap
      | None => False
      end
  end.

(** The package has been initialised. *)
Definition globals_ok (h : store) : Prop := h !! 0 = Some v2local_bytes.

(** A slice is new with respect to a store when it is nil or points to an
    array allocated after it. *)
Definition is_new (h : store) (s : slice) : Prop :=
  match s with
  | nil_slice => True
  | Slice a _ _ _ => length h <= a
  end.

(** Lengths a Go [int] can hold. *)
Definition int_ok (n : nat) : Prop := (Z.of_nat n < 2 ^ 63)%Z.

(** What the buffer of [pae] holds, from the values of its arguments. *)
Definition pae_bytes (bb : list (list byte)) : list byte :=
  le64_bytes (Z.of_nat (length bb))
    ++ concat (map (fun b => le64_bytes (Z.of_nat (length b)) ++ b) bb).

(** The pre-authentication encoding as the specification words it: the
    count, then for each element its length and its bytes, each number as
    eight little-endian bytes with the top bit cleared. *)
Definition pae_spec (bb : list (list byte)) : list byte :=
  le64_spec (Z.of_nat (length bb))
    ++ concat (map (fun b => le64_spec (Z.of_nat (length b)) ++ b) bb).

(** The buffer a call of [pae] returns from a state, if it returns. *)
Definition run_pae (st : state) (bb : list slice) : option (list byte) :=
  match pae bb st with
  | Ok buf st' => Some (bytes (heap st') buf)
  | Panic => None
  end.

(** The count and the lengths fit a Go [int]. *)
Definition ints_ok (bb : list slice) : Prop :=
  int_ok (length bb) /\ Forall (fun b => int_ok (slen b)) bb.

(** ** The token as the specification words it

    Section 4.4: a 24-byte seed; the nonce is the keyed hash of the message
    under the seed, 24 bytes long; the additional data is the PAE of
    header, nonce and footer; the message is sealed under key, nonce and
    additional data; the token is the header, the unpadded base64url of
    nonce and sealed text, and for a footer that is not empty a ["."] and
    the unpadded base64url of the footer. *)

Section formats.
Context `{Crypto}.

Definition nonce_spec (seed m : list byte) : list byte :=
  blake2b_sum 24 seed m.

Definition body_spec (seed m k f : list byte) : list byte :=
  let nonce := nonce_spec seed m in
  let aad := pae_spec [v2local_bytes; nonce; f] in
  let sealed := aead_seal k nonce m aad in
  nonce ++ sealed.

Definition token_spec (seed m k f : list byte) : list byte :=
  v2local_bytes ++ base64.Encode_bytes (body_spec seed m k f)
    ++ match f with
       | [] => []
       | _ :: _ => "."%byte :: base64.Encode_bytes f
       end.
End formats.

(** What the 24-byte buffer holds after the random source has stored [bs]
    in the zeroed buffer. *)
Definition seed_of (bs : list byte) : list byte :=
  take 24 (bs ++ replicate 24 x00).

(** The calls [Encrypt] makes when it succeeds, most recent first. *)
Definition Encrypt_calls (f : slice) : list call :=
  (if 0 <? slen f then [CallEncode] else [])
    ++ [ CallEncode; CallSeal; CallHashSum; CallHashWrite; CallBlake2bNew;
         CallRandRead; CallNewX ].

(** ** Auxiliary definitions of the proofs *)

(** The part of the buffer of [pae] after the count, and the sum of the
    lengths of the elements. *)
Definition pae_body (H : store) (bb : list slice) : list byte :=
  concat (map (fun b => le64_bytes (Z.of_nat (slen b)) ++ bytes H b) bb).

Fixpoint total_len (bb : list slice) : nat :=
  match bb with
  | [] => 0
  | b :: rest => slen b + total_len rest
  end.

(** [frames h0 c Q]: started in a store that extends [h0], the statement
    [c], if it completes, ends in a store that extends [h0] and returns a
    value that satisfies [Q].  It is the invariant of a run that writes
    only through slices that are new with respect to [h0]. *)
Definition extends (h0 : list (list byte)) (st : state) : Prop :=
  exists ext, heap st = h0 ++ ext.

Definition frames {A} (h0 : list (list byte)) (c : M A) (Q : A -> Prop)
    : Prop :=
  forall st, extends h0 st ->
    match c st with
    | Ok a st' => extends h0 st' /\ Q a
    | Panic => True
    end.

(** ** An instance of the collaborators

    A small instance of [Crypto], which shows that the laws of the class can
    be met and on which the package can be run: the cipher leaves the
    plaintext as it is and appends sixteen copies of a checksum of key,
    nonce, additional data and plaintext; the digest takes its bytes from
    the data and the key. *)

Definition toy_checksum (bs : list byte) : byte :=
  byte_of_Z (fold_left (fun acc b => (acc * 31 + byte_to_Z b + 1) mod 256)%Z
                       bs 7%Z).

Definition toy_tag (k n p ad : list byte) : list byte :=
  replicate Overhead (toy_checksum (k ++ n ++ ad ++ p)).

Definition toy_seal (k n p ad : list byte) : list byte :=
  p ++ toy_tag k n p ad.

Definition toy_open (k n c ad : list byte) : option (list byte) :=
  if length c <? Overhead then None
  else
    let p := take (length c - Overhead) c in
    if bool_decide (drop (length c - Overhead) c = toy_tag k n p ad)
    then Some p else None.

Definition toy_sum (size : nat) (k d : list byte) : list byte :=
  take size (d ++ k ++ replicate size x00).

(** Random sources as the tests install them:
    [randRead = bytes.NewBuffer(content).Read].  A read from an empty
    buffer reports [io.EOF]; any other read stores as many bytes as the
    buffer has, up to the length asked for, and reports no error. *)
Definition Buffer_Read (content : list byte) (n : nat)
    : list byte * option error :=
  match content with
  | [] => if n =? 0 then ([], None) else ([], Some EOF)
  | _ :: _ => (take n content, None)
  end.

(** The source [fuzz.go] installs, 24 bytes ["-"]; one that holds five
    bytes only; one that holds none. *)
Definition dash_reader : nat -> list byte * option error :=
  Buffer_Read (replicate 24 "-"%byte).

Definition short_reader : nat -> list byte * option error :=
  Buffer_Read (replicate 5 "-"%byte).

Definition failing_reader : nat -> list byte * option error :=
  Buffer_Read [].

(** A state after package initialisation that holds a message, a key, a
    footer, their concatenation, a token that is the header alone, and a
    token whose footer has been altered after [Encrypt] built it with
    [dash_reader]. *)
Definition demo_state : state :=
  {| heap := [ v2local_bytes;
               list_byte_of_string "payload";
               replicate 32 "*"%byte;
               list_byte_of_string "footer";
               list_byte_of_string "payloadfooter";
               list_byte_of_string "v2.local.";
               list_byte_of_string
                 "v2.local.cGF5bG9hZC0tLS0tLS0tLS0tLS0tLS0tcGF5bG9hZLe3t7e3t7e3t7e3t7e3t7c.Zm9vdGVz" ];
     calls := [] |}.
Definition demo_message : slice := Slice 1 0 7 7.
Definition demo_key : slice := Slice 2 0 32 32.
Definition demo_footer : slice := Slice 3 0 6 6.
Definition demo_concat : slice := Slice 4 0 13 13.
Definition demo_empty : slice := Slice 4 0 0 13.
Definition demo_header_only : slice := Slice 5 0 9 9.
Definition demo_altered : slice := Slice 6 0 81 81.

(** ** The outcome of [Decrypt] as a function of the bytes

    The statements of [Decrypt] taken in order, on the bytes of the token
    and of the key instead of on slices: the header test, the split at the
    first ["."], the decoding of the footer segment and then of the body,
    the two slice expressions on the decoded body, the key, and the opening
    of the sealed text.  [Decrypt_outcome_run] proves that the code run in
    the store has this outcome. *)

Inductive outcome : Type :=
| Panics
| Fails
| Succeeds (payload footer : list byte).

Section outcomes.
Context `{Crypto}.

Definition Decrypt_body_outcome (k e fo : list byte) : outcome :=
  let '(raw, ok) := base64.Decode_bytes e in
  if negb ok then Fails
  else if length raw <? 24 then Panics
  else if negb (length k =? KeySize) then Fails
  else
    match aead_open k (take 24 raw) (drop 24 raw)
                    (pae_bytes [v2local_bytes; take 24 raw; fo]) with
    | Some p => Succeeds p fo
    | None => Fails
    end.

Definition Decrypt_outcome (tok k : list byte) : outcome :=
  if negb (has_prefix tok v2local_bytes) then Fails
  else
    let m := drop (length v2local_bytes) tok in
    let i := index_byte m "."%byte in
    if (0 <=? i)%Z then
      let '(fo, ok) := base64.Decode_bytes (drop (Z.to_nat (i + 1)) m) in
      if negb ok then Fails
      else Decrypt_body_outcome k (take (Z.to_nat i) m) fo
    else Decrypt_body_outcome k m [].

End outcomes.

(** ** The fuzzing harness, [fuzz.go] *)



Module fuzz.

(** [nonce = bytes.Repeat([]byte("-"), 24)] and
    [key = bytes.Repeat([]byte("*"), 32)]: in a build with the harness the
    package variables are slices over the arrays at the second and the
    third address of the store. *)
Definition nonce_bytes : list byte := replicate 24 "-"%byte.
Definition key_bytes : list byte := replicate 32 "*"%byte.

Definition nonce : slice := Slice 1 0 24 24.
Definition key : slice := Slice 2 0 32 32.

Definition initial_state : state :=
  {| heap := [v2local_bytes; nonce_bytes; key_bytes]; calls := [] |}.

(** The package variables hold what initialisation gave them. *)
Definition globals_ok (h : store) : Prop :=
  h !! 0 = Some v2local_bytes
  /\ h !! 1 = Some nonce_bytes
  /\ h !! 2 = Some key_bytes.


Section Fuzz.
Context `{Crypto}.


End Fuzz.

(** A state of a build with the harness that also holds the input
    ["abc"], whose first byte is odd. *)
Definition demo_state : state :=
  {| heap := [v2local_bytes; nonce_bytes; key_bytes;
              list_byte_of_string "abc"];
     calls := [] |}.

End fuzz.

(** ** Further inputs for the theorems at concrete inputs *)

(** The token [Encrypt] builds with [dash_reader] from the message
    ["payload"], the key of 32 ["*"] and no footer; the same token with a
    line feed inside the body; the same token with a ["."] at its end; a
    token with two ["."]; an array of ten bytes; and a token whose body
    is padded. *)
Definition more_state : state :=
  {| heap := [ v2local_bytes;
               list_byte_of_string "payload";
               replicate 32 "*"%byte;
               list_byte_of_string
                 "v2.local.cGF5bG9hZC0tLS0tLS0tLS0tLS0tLS0tcGF5bG9hZMzMzMzMzMzMzMzMzMzMzMw";
               list_byte_of_string "v2.local.cGF5" ++ [x0a]
                 ++ list_byte_of_string
                      "bG9hZC0tLS0tLS0tLS0tLS0tLS0tcGF5bG9hZMzMzMzMzMzMzMzMzMzMzMw";
               list_byte_of_string
                 "v2.local.cGF5bG9hZC0tLS0tLS0tLS0tLS0tLS0tcGF5bG9hZMzMzMzMzMzMzMzMzMzMzMw.";
               list_byte_of_string
                 "v2.local.cGF5bG9hZC0tLS0tLS0tLS0tLS0tLS0tcGF5bG9hZLe3t7e3t7e3t7e3t7e3t7c.Zm9v.dGVy";
               list_byte_of_string "0123456789";
               list_byte_of_string "v2.local.cGF5bG9hZA==" ];
     calls := [] |}.
Definition more_key : slice := Slice 2 0 32 32.
Definition more_token : slice := Slice 3 0 72 72.
Definition more_newline : slice := Slice 4 0 73 73.
Definition more_trailing_dot : slice := Slice 5 0 73 73.
Definition more_two_dots : slice := Slice 6 0 82 82.
Definition more_buffer : slice := Slice 7 0 10 10.
Definition more_padded : slice := Slice 8 0 21 21.

(** * Proofs *)

Local Open Scope Z_scope.

(** ** Bytes *)

Lemma byte_to_Z_range b : 0 <= byte_to_Z b < 256.
Proof.
  unfold byte_to_Z. pose proof (Byte.to_N_bounded b). lia.
Qed.

Lemma byte_of_to_Z b : byte_of_Z (byte_to_Z b) = b.
Proof.
  unfold byte_of_Z. pose proof (byte_to_Z_range b) as Hr.
  rewrite Z.mod_small by lia. unfold byte_to_Z.
  rewrite N2Z.id, Byte.of_to_N. reflexivity.
Qed.

Lemma byte_to_of_Z z : byte_to_Z (byte_of_Z z) = z mod 256.
Proof.
  unfold byte_of_Z, byte_to_Z.
  pose proof (Z.mod_pos_bound z 256 ltac:(lia)) as Hr.
  destruct (Byte.of_N (Z.to_N (z mod 256))) as [b|] eqn:E.
  - apply Byte.to_of_N in E. simpl. rewrite E. lia.
  - apply Byte.of_N_None_iff in E. lia.
Qed.

Lemma byte_of_Z_mod z : byte_of_Z (z mod 256) = byte_of_Z z.
Proof. unfold byte_of_Z. rewrite Z.mod_mod by lia. reflexivity. Qed.

Lemma byte_of_Z_inj x y :
  0 <= x < 256 -> 0 <= y < 256 -> byte_of_Z x = byte_of_Z y -> x = y.
Proof.
  intros Hx Hy E. apply (f_equal byte_to_Z) in E.
  rewrite !byte_to_of_Z, !Z.mod_small in E by lia. exact E.
Qed.

(** ** Bit operations as arithmetic *)

Lemma land_shiftl_small a b k :
  0 <= k -> 0 <= b < 2 ^ k -> Z.land (Z.shiftl a k) b = 0.
Proof.
  intros Hk Hb. apply Z.bits_inj'. intros i Hi.
  rewrite Z.land_spec, Z.bits_0.
  destruct (Z.ltb_spec i k) as [Hlt|Hge].
  - rewrite Z.shiftl_spec_low by lia. reflexivity.
  - replace b with (b mod 2 ^ k) by (apply Z.mod_small; lia).
    rewrite Z.mod_pow2_bits_high by lia. apply andb_false_r.
Qed.

Lemma lor_shiftl_small a b k :
  0 <= k -> 0 <= b < 2 ^ k -> Z.lor (Z.shiftl a k) b = a * 2 ^ k + b.
Proof.
  intros Hk Hb.
  pose proof (Z.add_lor_land (Z.shiftl a k) b) as H.
  rewrite land_shiftl_small in H by assumption.
  rewrite Z.shiftl_mul_pow2 in * by lia. lia.
Qed.

Lemma land_63 a : Z.land a 63 = a mod 64.
Proof. change 63 with (Z.ones 6). rewrite Z.land_ones by lia. reflexivity. Qed.

(** ** [le64] *)

Lemma le64_u_mod n : le64_u n = n mod 2 ^ 63.
Proof.
  unfold le64_u, uint64.
  rewrite Z.shiftl_mul_pow2, Z.shiftr_div_pow2 by lia.
  change (2 ^ 1) with 2. change (2 ^ 64) with (2 * 2 ^ 63).
  pose proof (Z.div_mod n (2 * 2 ^ 63) ltac:(lia)) as H1.
  pose proof (Z.mod_pos_bound n (2 * 2 ^ 63) ltac:(lia)) as H2.
  pose proof (Z.div_mod n (2 ^ 63) ltac:(lia)) as H3.
  pose proof (Z.mod_pos_bound n (2 ^ 63) ltac:(lia)) as H4.
  set (a := n mod (2 * 2 ^ 63)) in *.
  pose proof (Z.div_mod (a * 2) (2 * 2 ^ 63) ltac:(lia)) as H5.
  pose proof (Z.mod_pos_bound (a * 2) (2 * 2 ^ 63) ltac:(lia)) as H6.
  set (b := (a * 2) mod (2 * 2 ^ 63)) in *.
  pose proof (Z.div_mod b 2 ltac:(lia)) as H7.
  pose proof (Z.mod_pos_bound b 2 ltac:(lia)) as H8.
  lia.
Qed.

Lemma le64_u_range n : 0 <= le64_u n < 2 ^ 63.
Proof. rewrite le64_u_mod. apply Z.mod_pos_bound. lia. Qed.

Lemma clearbit_63 n : Z.clearbit (uint64 n) 63 = n mod 2 ^ 63.
Proof.
  unfold uint64. apply Z.bits_inj'. intros i Hi.
  rewrite Z.clearbit_eqb, !Z.testbit_mod_pow2 by lia.
  destruct (Z.eqb_spec 63 i) as [<-|Hne].
  - simpl. apply andb_false_r.
  - rewrite andb_true_r.
    destruct (Z.ltb_spec i 64), (Z.ltb_spec i 63); try reflexivity; lia.
Qed.

Lemma little_endian_8 v :
  little_endian 8 v = PutUint64_bytes v.
Proof.
  unfold PutUint64_bytes. simpl.
  rewrite !Z.shiftr_div_pow2 by lia.
  rewrite !Z.div_div by lia. reflexivity.
Qed.

Lemma le64_bytes_spec n : le64_bytes n = le64_spec n.
Proof.
  unfold le64_bytes, le64_spec.
  rewrite little_endian_8, clearbit_63, le64_u_mod. reflexivity.
Qed.

Lemma le64_bytes_length n : length (le64_bytes n) = 8%nat.
Proof. reflexivity. Qed.

Lemma little_endian_inj count x y :
  0 <= x < 256 ^ Z.of_nat count -> 0 <= y < 256 ^ Z.of_nat count ->
  little_endian count x = little_endian count y -> x = y.
Proof.
  revert x y. induction count as [|c IH]; intros x y Hx Hy E.
  - simpl in *. lia.
  - simpl in E. injection E as E0 E1.
    rewrite Nat2Z.inj_succ, Z.pow_succ_r in Hx, Hy by lia.
    apply (f_equal byte_to_Z) in E0. rewrite !byte_to_of_Z in E0.
    assert (x / 256 = y / 256) as Hq.
    { apply IH; [ | | exact E1 ].
      - split; [apply Z.div_pos; lia | apply Z.div_lt_upper_bound; lia].
      - split; [apply Z.div_pos; lia | apply Z.div_lt_upper_bound; lia]. }
    rewrite (Z.div_mod x 256), (Z.div_mod y 256) by lia. congruence.
Qed.

Lemma le64_bytes_inj x y :
  0 <= x < 2 ^ 63 -> 0 <= y < 2 ^ 63 -> le64_bytes x = le64_bytes y -> x = y.
Proof.
  intros Hx Hy E. unfold le64_bytes in E.
  rewrite <- !little_endian_8, !le64_u_mod, !Z.mod_small in E by lia.
  apply (little_endian_inj 8) in E; [exact E | simpl; lia | simpl; lia].
Qed.

Lemma lor_disjoint_add a b k :
  0 <= k -> a mod 2 ^ k = 0 -> 0 <= b < 2 ^ k -> Z.lor a b = a + b.
Proof.
  intros Hk Ha Hb.
  assert (a = Z.shiftl (a / 2 ^ k) k) as ->.
  { rewrite Z.shiftl_mul_pow2 by lia.
    pose proof (Z.div_mod a (2 ^ k) ltac:(lia)). lia. }
  rewrite lor_shiftl_small by assumption.
  rewrite Z.shiftl_mul_pow2 by lia. reflexivity.
Qed.

(** ** [base64.RawURLEncoding] *)

Section list_ind3.
Context {A : Type} (P : list A -> Prop).
Hypothesis P0 : P [].
Hypothesis P1 : forall a, P [a].
Hypothesis P2 : forall a b, P [a; b].
Hypothesis P3 : forall a b c l, P l -> P (a :: b :: c :: l).

Lemma list_ind3 : forall l, P l.
Proof.
  assert (forall l, P l /\ (forall a, P (a :: l)) /\
                    (forall a b, P (a :: b :: l))) as H.
  { induction l as [|x l (IH0 & IH1 & IH2)].
    - repeat split; auto.
    - repeat split; auto. }
  intros l. apply H.
Qed.
End list_ind3.

Module base64_facts.
Import base64.

Lemma sextets_all v : 0 <= v < 64 -> In v sextets.
Proof.
  intros Hv. unfold sextets. apply in_map_iff.
  exists (Z.to_nat v). split; [lia | apply in_seq; lia].
Qed.

Lemma forall_sextets (p : Z -> bool) :
  forallb p sextets = true -> forall v, 0 <= v < 64 -> p v = true.
Proof.
  intros H v Hv. rewrite forallb_forall in H. apply H, sextets_all, Hv.
Qed.

Lemma decodeMap_encode_char v :
  0 <= v < 64 -> decodeMap (encode_char v) = v.
Proof.
  intros Hv. apply Z.eqb_eq.
  apply (forall_sextets (fun v => decodeMap (encode_char v) =? v)); auto.
Qed.

Lemma encode_char_not_dot v : 0 <= v < 64 -> encode_char v <> "."%byte.
Proof.
  intros Hv E.
  pose proof (forall_sextets
                (fun v => negb (Byte.eqb (encode_char v) "."%byte))
                eq_refl v Hv) as H.
  simpl in H. rewrite E in H. discriminate H.
Qed.

Lemma land_63_range a : 0 <= Z.land a 63 < 64.
Proof. rewrite land_63. apply Z.mod_pos_bound. lia. Qed.

Lemma Encode_bytes_length src :
  length (Encode_bytes src) = EncodedLen (length src).
Proof.
  induction src as [| a | a b | a b c l IH] using list_ind3;
    try reflexivity.
  cbn [Encode_bytes length]. rewrite IH. unfold EncodedLen.
  replace (S (S (S (length l))) * 8 + 5)%nat
    with ((length l * 8 + 5) + 4 * 6)%nat by lia.
  rewrite Nat.div_add by lia. lia.
Qed.

Lemma Encode_bytes_no_dot src : Forall (fun c => c <> "."%byte) (Encode_bytes src).
Proof.
  induction src as [| a | a b | a b c l IH] using list_ind3;
    cbn [Encode_bytes]; repeat constructor;
    try (apply encode_char_not_dot, land_63_range); exact IH.
Qed.

Lemma val3_eq a b c :
  0 <= a < 256 -> 0 <= b < 256 -> 0 <= c < 256 ->
  Z.lor (Z.lor (Z.shiftl a 16) (Z.shiftl b 8)) c = a * 65536 + b * 256 + c.
Proof.
  intros Ha Hb Hc. rewrite !Z.shiftl_mul_pow2 by lia.
  change (2 ^ 16) with 65536. change (2 ^ 8) with 256.
  rewrite (lor_disjoint_add (a * 65536) (b * 256) 16) by
    (try apply Z.mod_mul; lia).
  rewrite (lor_disjoint_add _ c 8); [reflexivity | lia | | lia].
  change (2 ^ 8) with 256. Z.div_mod_to_equations. lia.
Qed.

Lemma val4_eq s0 s1 s2 s3 :
  0 <= s0 < 64 -> 0 <= s1 < 64 -> 0 <= s2 < 64 -> 0 <= s3 < 64 ->
  Z.lor (Z.lor (Z.lor (Z.shiftl s0 18) (Z.shiftl s1 12)) (Z.shiftl s2 6)) s3
  = s0 * 262144 + s1 * 4096 + s2 * 64 + s3.
Proof.
  intros H0 H1 H2 H3. rewrite !Z.shiftl_mul_pow2 by lia.
  change (2 ^ 18) with 262144. change (2 ^ 12) with 4096.
  change (2 ^ 6) with 64.
  rewrite (lor_disjoint_add (s0 * 262144) (s1 * 4096) 18) by
    (try apply Z.mod_mul; lia).
  rewrite (lor_disjoint_add _ (s2 * 64) 12);
    [ | lia | change (2 ^ 12) with 4096; Z.div_mod_to_equations; lia | lia].
  rewrite (lor_disjoint_add _ s3 6);
    [reflexivity | lia | change (2 ^ 6) with 64;
                         Z.div_mod_to_equations; lia | lia].
Qed.

Lemma sextet_eq val k : 0 <= k -> Z.land (Z.shiftr val k) 63 = (val / 2 ^ k) mod 64.
Proof. intros Hk. rewrite land_63, Z.shiftr_div_pow2 by lia. reflexivity. Qed.

Lemma decode_loop_char v rest dbuf :
  0 <= v < 64 ->
  decode_loop (encode_char v :: rest) dbuf =
  if (length (dbuf ++ [v]) =? 4)%nat
  then let '(more, ok) := decode_loop rest [] in
       (quantum_bytes (dbuf ++ [v]) ++ more, ok)
  else decode_loop rest (dbuf ++ [v]).
Proof.
  intros Hv. cbn [decode_loop]. rewrite decodeMap_encode_char by assumption.
  destruct (Z.eqb_spec v 255) as [E|_]; [lia | reflexivity].
Qed.

Lemma quantum3 a b c :
  let val := Z.lor (Z.lor (Z.shiftl (byte_to_Z a) 16)
                          (Z.shiftl (byte_to_Z b) 8)) (byte_to_Z c) in
  quantum_bytes [ Z.land (Z.shiftr val 18) 63; Z.land (Z.shiftr val 12) 63;
                  Z.land (Z.shiftr val 6) 63; Z.land val 63 ] = [a; b; c].
Proof.
  intros val.
  pose proof (byte_to_Z_range a) as Ha. pose proof (byte_to_Z_range b) as Hb.
  pose proof (byte_to_Z_range c) as Hc.
  assert (val = byte_to_Z a * 65536 + byte_to_Z b * 256 + byte_to_Z c) as Hval
    by (apply val3_eq; assumption).
  unfold quantum_bytes. cbn [nth length Nat.sub take].
  rewrite val4_eq by apply land_63_range.
  rewrite !sextet_eq, land_63 by lia.
  rewrite !Z.shiftr_div_pow2 by lia.
  change (2 ^ 18) with 262144. change (2 ^ 12) with 4096.
  change (2 ^ 6) with 64. change (2 ^ 16) with 65536. change (2 ^ 8) with 256.
  set (w := _ + val mod 64).
  assert (w = val) as -> by (subst w; Z.div_mod_to_equations; lia).
  rewrite <- (byte_of_Z_mod (val / 256)), <- (byte_of_Z_mod val).
  replace (val / 65536) with (byte_to_Z a) by (Z.div_mod_to_equations; lia).
  replace ((val / 256) mod 256) with (byte_to_Z b)
    by (Z.div_mod_to_equations; lia).
  replace (val mod 256) with (byte_to_Z c) by (Z.div_mod_to_equations; lia).
  rewrite !byte_of_to_Z. reflexivity.
Qed.

Lemma quantum2 a b :
  let val := Z.lor (Z.shiftl (byte_to_Z a) 16) (Z.shiftl (byte_to_Z b) 8) in
  quantum_bytes [ Z.land (Z.shiftr val 18) 63; Z.land (Z.shiftr val 12) 63;
                  Z.land (Z.shiftr val 6) 63 ] = [a; b].
Proof.
  intros val.
  pose proof (byte_to_Z_range a) as Ha. pose proof (byte_to_Z_range b) as Hb.
  assert (val = byte_to_Z a * 65536 + byte_to_Z b * 256) as Hval.
  { subst val. rewrite <- (Z.lor_0_r (Z.lor _ _)), val3_eq by lia. lia. }
  unfold quantum_bytes. cbn [nth length Nat.sub take].
  rewrite val4_eq by (try apply land_63_range; lia).
  rewrite !sextet_eq by lia.
  rewrite !Z.shiftr_div_pow2 by lia.
  change (2 ^ 18) with 262144. change (2 ^ 12) with 4096.
  change (2 ^ 6) with 64. change (2 ^ 16) with 65536. change (2 ^ 8) with 256.
  set (w := _ + 0).
  assert (w = val) as -> by (subst w; Z.div_mod_to_equations; lia).
  rewrite <- (byte_of_Z_mod (val / 256)).
  replace (val / 65536) with (byte_to_Z a) by (Z.div_mod_to_equations; lia).
  replace ((val / 256) mod 256) with (byte_to_Z b)
    by (Z.div_mod_to_equations; lia).
  rewrite !byte_of_to_Z. reflexivity.
Qed.

Lemma quantum1 a :
  let val := Z.shiftl (byte_to_Z a) 16 in
  quantum_bytes [ Z.land (Z.shiftr val 18) 63; Z.land (Z.shiftr val 12) 63 ]
  = [a].
Proof.
  intros val.
  pose proof (byte_to_Z_range a) as Ha.
  assert (val = byte_to_Z a * 65536) as Hval.
  { subst val. rewrite Z.shiftl_mul_pow2 by lia. reflexivity. }
  unfold quantum_bytes. cbn [nth length Nat.sub take].
  rewrite val4_eq by (try apply land_63_range; lia).
  rewrite !sextet_eq by lia.
  rewrite !Z.shiftr_div_pow2 by lia.
  change (2 ^ 18) with 262144. change (2 ^ 12) with 4096.
  change (2 ^ 16) with 65536.
  set (w := _ + 0).
  assert (w = val) as -> by (subst w; Z.div_mod_to_equations; lia).
  replace (val / 65536) with (byte_to_Z a) by (Z.div_mod_to_equations; lia).
  rewrite !byte_of_to_Z. reflexivity.
Qed.

(** The footer of the test vectors, ["Cuon Alpinus"], and its segment in
    the expected tokens. *)
Example Encode_test_footer :
  Encode_bytes (list_byte_of_string "Cuon Alpinus")
  = list_byte_of_string "Q3VvbiBBbHBpbnVz".
Proof. reflexivity. Qed.

Lemma Decode_Encode src : Decode_bytes (Encode_bytes src) = (src, true).
Proof.
  unfold Decode_bytes.
  induction src as [| a | a b | a b c l IH] using list_ind3.
  - reflexivity.
  - cbn [Encode_bytes]. rewrite !decode_loop_char by apply land_63_range.
    cbn [app length Nat.eqb decode_loop]. rewrite quantum1. reflexivity.
  - cbn [Encode_bytes]. rewrite !decode_loop_char by apply land_63_range.
    cbn [app length Nat.eqb decode_loop]. rewrite quantum2. reflexivity.
  - cbn [Encode_bytes]. rewrite !decode_loop_char by apply land_63_range.
    cbn [app length Nat.eqb]. rewrite IH, quantum3. reflexivity.
Qed.

Lemma quantum_bytes_length dbuf :
  length (quantum_bytes dbuf) = Nat.min (length dbuf - 1) 3.
Proof. unfold quantum_bytes. rewrite length_take. reflexivity. Qed.

Lemma decode_loop_bound src : forall dbuf,
  (length dbuf < 4)%nat ->
  (length (fst (decode_loop src dbuf)) * 8
   <= (length src + length dbuf) * 6)%nat.
Proof.
  induction src as [|c rest IH]; intros dbuf Hd.
  - cbn [decode_loop length].
    destruct dbuf as [|d0 [|d1 [|d2 [|d3 dbuf]]]]; cbn [length fst] in *;
      try lia; rewrite quantum_bytes_length; cbn [length]; lia.
  - cbn [decode_loop].
    destruct (negb (decodeMap c =? 255)).
    + rewrite length_app. cbn [length].
      destruct (Nat.eqb_spec (length dbuf + 1) 4) as [E|E].
      * specialize (IH [] ltac:(simpl; lia)). cbn [length] in IH.
        destruct (decode_loop rest []) as [more ok]. cbn [fst] in *.
        rewrite length_app, quantum_bytes_length, length_app.
        cbn [length]. lia.
      * specialize (IH (dbuf ++ [decodeMap c])).
        rewrite length_app in IH. cbn [length] in *. 
        assert (length dbuf + 1 < 4)%nat as Hlt by lia.
        specialize (IH Hlt). lia.
    + destruct (is_newline c).
      * specialize (IH dbuf Hd). cbn [length]. lia.
      * cbn [fst length]. lia.
Qed.

Lemma Decode_bytes_bound src :
  (length (fst (Decode_bytes src)) <= DecodedLen (length src))%nat.
Proof.
  unfold Decode_bytes, DecodedLen.
  pose proof (decode_loop_bound src [] ltac:(simpl; lia)) as Hb.
  cbn [length] in Hb. apply Nat.div_le_lower_bound; lia.
Qed.

End base64_facts.

Local Close Scope Z_scope.

(** ** Running statements *)

Lemma Some_eq_inv {A} (x y : A) : Some x = Some y -> x = y.
Proof. congruence. Qed.

Lemma bind_eq {A B} (c : M A) (f : A -> M B) st :
  (c ≫= f) st = match c st with Ok a st' => f a st' | Panic => Panic end.
Proof. reflexivity. Qed.

Lemma ret_eq {A} (a : A) st : (mret a : M A) st = Ok a st.
Proof. reflexivity. Qed.

Lemma lookup_new (H ext : store) i : (H ++ ext) !! (length H + i) = ext !! i.
Proof. rewrite lookup_app_r by lia. f_equal. lia. Qed.

Lemma insert_new (H ext : store) i x :
  <[length H + i := x]> (H ++ ext) = H ++ <[i := x]> ext.
Proof. rewrite insert_app_r. reflexivity. Qed.

Lemma insert_middle {A} (l1 l2 : list A) x y :
  <[length l1 := y]> (l1 ++ x :: l2) = l1 ++ y :: l2.
Proof.
  rewrite <- (Nat.add_0_r (length l1)), insert_app_r. reflexivity.
Qed.

Lemma valid_length h s : valid h s -> length (bytes h s) = slen s.
Proof.
  destruct s as [|a off len cap]; [reflexivity|]. simpl.
  destruct (h !! a) as [arr|]; [|tauto]. intros [H1 H2].
  rewrite length_take, length_drop. lia.
Qed.

Lemma valid_app h ext s : valid h s -> valid (h ++ ext) s.
Proof.
  destruct s as [|a off len cap]; [auto|]. simpl.
  destruct (h !! a) as [arr|] eqn:E; [|tauto].
  rewrite (lookup_app_l_Some _ _ _ _ E). auto.
Qed.

Lemma bytes_app h ext s : valid h s -> bytes (h ++ ext) s = bytes h s.
Proof.
  destruct s as [|a off len cap]; [auto|]. simpl.
  destruct (h !! a) as [arr|] eqn:E; [|tauto].
  rewrite (lookup_app_l_Some _ _ _ _ E). auto.
Qed.

Lemma bytes_new H ext i off len cap :
  bytes (H ++ ext) (Slice (length H + i) off len cap)
  = match ext !! i with Some arr => take len (drop off arr) | None => [] end.
Proof. simpl. rewrite lookup_new. reflexivity. Qed.

Lemma make_run H ext cs len cap :
  len <= cap ->
  make len cap {| heap := H ++ ext; calls := cs |}
  = Ok (Slice (length H + length ext) 0 len cap)
       {| heap := H ++ (ext ++ [replicate cap x00]); calls := cs |}.
Proof.
  intros Hle. unfold make. simpl.
  destruct (Nat.leb_spec len cap); [|lia].
  rewrite length_app, app_assoc. reflexivity.
Qed.

Lemma slice_expr_run s lo hi st :
  lo <= hi -> hi <= scap s ->
  slice_expr s lo hi st
  = Ok match s with
       | nil_slice => nil_slice
       | Slice a off _ cap => Slice a (off + lo) (hi - lo) (cap - lo)
       end st.
Proof.
  intros H1 H2. unfold slice_expr.
  destruct (Nat.leb_spec lo hi); [|lia].
  destruct (Nat.leb_spec hi (scap s)); [|lia]. reflexivity.
Qed.

Lemma store_at_new H ext cs i off len cap pos bs arr :
  ext !! i = Some arr -> pos + length bs <= len ->
  store_at (Slice (length H + i) off len cap) pos bs
           {| heap := H ++ ext; calls := cs |}
  = Ok tt {| heap := H ++ <[i := write_at (off + pos) bs arr]> ext;
             calls := cs |}.
Proof.
  intros Hi Hle. unfold store_at. cbn [heap calls].
  destruct (Nat.leb_spec (pos + length bs) len); [|lia].
  rewrite lookup_new, Hi, insert_new. reflexivity.
Qed.

Lemma write_at_app pre bs rest :
  length bs <= length rest ->
  write_at (length pre) bs (pre ++ rest) = pre ++ bs ++ drop (length bs) rest.
Proof.
  intros Hle. unfold write_at.
  rewrite take_app_length. f_equal. f_equal.
  rewrite drop_app_ge by lia. f_equal. lia.
Qed.

(** ** [pae] *)

Lemma pae_size_eq bb n : pae_size bb n = n + total_len bb.
Proof.
  revert n. induction bb as [|b bb IH]; intros n; simpl; [lia|].
  rewrite IH. lia.
Qed.

Lemma pae_body_length H bb :
  Forall (valid H) bb ->
  length (pae_body H bb) = 8 * length bb + total_len bb.
Proof.
  induction 1 as [|b bb Hb _ IH]; [reflexivity|].
  change (pae_body H (b :: bb))
    with ((le64_bytes (Z.of_nat (slen b)) ++ bytes H b) ++ pae_body H bb).
  rewrite !length_app, IH, valid_length, le64_bytes_length by auto.
  simpl. lia.
Qed.

Lemma pae_fill_run H cs bb : forall ext1 ext2 pre n,
  Forall (valid H) bb ->
  n = length pre + (8 * length bb + total_len bb) ->
  pae_fill bb (Slice (length H + length ext1) 0 n n) (length pre)
    {| heap := H ++ (ext1 ++ (pre ++ replicate (n - length pre) x00) :: ext2);
       calls := cs |}
  = Ok tt {| heap := H ++ (ext1 ++ (pre ++ pae_body H bb) :: ext2);
             calls := cs |}.
Proof.
  induction bb as [|b bb IH]; intros ext1 ext2 pre n Hv Hn.
  - simpl in *. replace (n - length pre) with 0 by lia.
    unfold pae_body. simpl. reflexivity.
  - apply Forall_cons in Hv as [Hb Hbb].
    cbn [pae_fill total_len length] in *.
    set (k := 8 * length bb + total_len bb) in *.
    assert (n - length pre = 8 + slen b + k) as Hk by lia.
    rewrite bind_eq, slice_expr_run by (simpl; lia). cbv beta iota.
    unfold le64, PutUint64. cbn [slen].
    replace (length pre + 8 - length pre) with 8 by lia.
    rewrite bind_eq. cbn [Nat.ltb Nat.leb].
    erewrite store_at_new;
      [ | apply list_lookup_middle; reflexivity | simpl; lia ].
    cbv beta iota.
    rewrite insert_middle.
    cbn [Nat.add]. rewrite Nat.add_0_r.
    rewrite write_at_app by (rewrite length_replicate; simpl; lia).
    rewrite drop_replicate. cbn [length PutUint64_bytes].
    fold (le64_bytes (Z.of_nat (slen b))).
    rewrite bind_eq. unfold slice_from.
    rewrite slice_expr_run by (simpl; lia). cbv beta iota.
    rewrite bind_eq. unfold copy. rewrite !bind_eq.
    unfold load. cbn [heap]. rewrite bytes_app by assumption.
    cbn [slen].
    replace (Nat.min (n - (length pre + 8)) (slen b)) with (slen b) by lia.
    rewrite <- (valid_length H b Hb) at 1. rewrite firstn_all.
    rewrite bind_eq.
    erewrite store_at_new;
      [ | apply list_lookup_middle; reflexivity
        | rewrite (valid_length H b Hb); lia ].
    cbv beta iota. rewrite ret_eq. cbv beta iota.
    rewrite insert_middle.
    rewrite Nat.add_0_r, Nat.add_0_l.
    replace (pre ++ le64_bytes (Z.of_nat (slen b)) ++ replicate (n - length pre - 8) x00)
      with ((pre ++ le64_bytes (Z.of_nat (slen b))) ++ replicate (n - length pre - 8) x00)
      by (rewrite <- app_assoc; reflexivity).
    replace (length pre + 8) with (length (pre ++ le64_bytes (Z.of_nat (slen b))))
      by (rewrite length_app, le64_bytes_length; reflexivity).
    rewrite write_at_app
      by (rewrite length_replicate, (valid_length H b Hb); lia).
    rewrite drop_replicate, (valid_length H b Hb).
    set (pre' := (pre ++ le64_bytes (Z.of_nat (slen b))) ++ bytes H b).
    assert (length pre' = length pre + 8 + slen b) as Hpre'.
    { subst pre'. rewrite !length_app, le64_bytes_length, valid_length by auto.
      reflexivity. }
    replace (length (pre ++ le64_bytes (Z.of_nat (slen b))) + slen b)
      with (length pre') by (rewrite Hpre', length_app, le64_bytes_length; lia).
    replace (n - length pre - 8 - slen b) with (n - length pre') by lia.
    match goal with
    | |- pae_fill _ _ _ {| heap := _ ++ _ ++ ?arr :: _; calls := _ |} = _ =>
        replace arr with (pre' ++ replicate (n - length pre') x00)
          by (subst pre'; rewrite <- !app_assoc; reflexivity)
    end.
    rewrite (IH ext1 ext2 pre' n Hbb) by lia.
    subst pre'. unfold pae_body. cbn [map concat].
    rewrite <- !app_assoc. reflexivity.
Qed.

Lemma make_run0 H cs len cap :
  len <= cap ->
  make len cap {| heap := H; calls := cs |}
  = Ok (Slice (length H) 0 len cap)
       {| heap := H ++ [replicate cap x00]; calls := cs |}.
Proof.
  intros Hle. unfold make. simpl.
  destruct (Nat.leb_spec len cap); [reflexivity|lia].
Qed.

Lemma store_at_last H cs off len cap pos bs arr :
  pos + length bs <= len ->
  store_at (Slice (length H) off len cap) pos bs
           {| heap := H ++ [arr]; calls := cs |}
  = Ok tt {| heap := H ++ [write_at (off + pos) bs arr]; calls := cs |}.
Proof.
  intros Hle.
  rewrite <- (Nat.add_0_r (length H)) at 1.
  erewrite store_at_new; [reflexivity | reflexivity | assumption].
Qed.

Lemma bytes_last H arr off len cap :
  bytes (H ++ [arr]) (Slice (length H) off len cap) = take len (drop off arr).
Proof. simpl. rewrite list_lookup_middle by reflexivity. reflexivity. Qed.

Lemma pae_bytes_length H bb :
  Forall (valid H) bb ->
  length (pae_bytes (map (bytes H) bb)) = pae_size bb (8 + 8 * length bb).
Proof.
  intros Hv. rewrite pae_size_eq. unfold pae_bytes.
  rewrite length_app, le64_bytes_length.
  pose proof (pae_body_length H bb Hv) as Hb. unfold pae_body in Hb.
  rewrite map_map. 
  erewrite (map_ext_Forall _ (fun b => le64_bytes (Z.of_nat (slen b)) ++ bytes H b)).
  - rewrite Hb. lia.
  - eapply Forall_impl; [exact Hv|]. intros b Hvb. simpl.
    rewrite valid_length by assumption. reflexivity.
Qed.

Lemma pae_bytes_body H bb :
  Forall (valid H) bb ->
  pae_bytes (map (bytes H) bb)
  = le64_bytes (Z.of_nat (length bb)) ++ pae_body H bb.
Proof.
  intros Hv. unfold pae_bytes, pae_body. rewrite length_map, map_map.
  f_equal. f_equal. apply map_ext_Forall.
  eapply Forall_impl; [exact Hv|]. intros b Hvb. simpl.
  rewrite valid_length by assumption. reflexivity.
Qed.

Lemma pae_run H cs bb :
  Forall (valid H) bb ->
  let n := pae_size bb (8 + 8 * length bb) in
  pae bb {| heap := H; calls := cs |}
  = Ok (Slice (length H) 0 n n)
       {| heap := H ++ [pae_bytes (map (bytes H) bb)]; calls := cs |}.
Proof.
  intros Hv n. unfold pae. fold n.
  assert (n = 8 + (8 * length bb + total_len bb)) as Hn
    by (subst n; rewrite pae_size_eq; lia).
  rewrite bind_eq, make_run0 by lia. cbv beta iota.
  rewrite bind_eq. unfold slice_to.
  rewrite slice_expr_run by (simpl; lia). cbv beta iota.
  rewrite bind_eq. unfold le64, PutUint64. cbn [slen Nat.sub Nat.ltb Nat.leb].
  rewrite store_at_last by (simpl; lia). cbv beta iota.
  rewrite bind_eq.
  change (write_at (0 + 0 + 0) ?bs ?arr) with (write_at (length (@nil byte)) bs ([] ++ arr)).
  rewrite write_at_app by (rewrite length_replicate; simpl; lia).
  fold (le64_bytes (Z.of_nat (length bb))).
  rewrite drop_replicate, le64_bytes_length. cbn [app].
  pose proof (pae_fill_run H cs bb [] [] (le64_bytes (Z.of_nat (length bb))) n
                Hv) as Hfill.
  rewrite le64_bytes_length in Hfill. cbn [app length] in Hfill.
  rewrite Nat.add_0_r in Hfill.
  rewrite Hfill by lia. cbv beta iota. rewrite ret_eq.
  rewrite pae_bytes_body by assumption. reflexivity.
Qed.

Lemma pae_bytes_spec bb : pae_bytes bb = pae_spec bb.
Proof.
  unfold pae_bytes, pae_spec. rewrite le64_bytes_spec. f_equal. f_equal.
  apply map_ext. intros b. rewrite le64_bytes_spec. reflexivity.
Qed.

Lemma run_pae_eq st bb :
  Forall (valid (heap st)) bb ->
  run_pae st bb = Some (pae_bytes (map (bytes (heap st)) bb)).
Proof.
  intros Hv. unfold run_pae. destruct st as [H cs]. cbn [heap] in *.
  rewrite pae_run by assumption. cbn [heap].
  rewrite bytes_last, drop_0, <- (pae_bytes_length H bb Hv), firstn_all.
  reflexivity.
Qed.

Lemma pae_elements_inj (bb1 bb2 : list (list byte)) :
  Forall (fun b => int_ok (length b)) bb1 ->
  Forall (fun b => int_ok (length b)) bb2 ->
  length bb1 = length bb2 ->
  concat (map (fun b => le64_bytes (Z.of_nat (length b)) ++ b) bb1)
  = concat (map (fun b => le64_bytes (Z.of_nat (length b)) ++ b) bb2) ->
  bb1 = bb2.
Proof.
  intros H1. revert bb2.
  induction H1 as [|b1 bb1 Hb1 _ IH]; intros bb2 H2 Hlen E.
  - destruct bb2; [reflexivity | discriminate Hlen].
  - destruct bb2 as [|b2 bb2]; [discriminate Hlen|].
    apply Forall_cons in H2 as [Hb2 H2].
    cbn [map concat] in E. rewrite <- !app_assoc in E.
    apply app_inj_1 in E as [E1 E2]; [|reflexivity].
    apply le64_bytes_inj in E1; [ | unfold int_ok in *; lia .. ].
    apply Nat2Z.inj in E1.
    apply app_inj_1 in E2 as [E2 E3]; [|exact E1].
    f_equal; [exact E2|]. apply IH; [exact H2 | | exact E3].
    simpl in Hlen. lia.
Qed.

Lemma pae_bytes_inj (bb1 bb2 : list (list byte)) :
  int_ok (length bb1) -> int_ok (length bb2) ->
  Forall (fun b => int_ok (length b)) bb1 ->
  Forall (fun b => int_ok (length b)) bb2 ->
  pae_bytes bb1 = pae_bytes bb2 -> bb1 = bb2.
Proof.
  intros Hn1 Hn2 H1 H2 E. unfold pae_bytes in E.
  apply app_inj_1 in E as [E1 E2]; [|reflexivity].
  apply le64_bytes_inj in E1; [ | unfold int_ok in *; lia .. ].
  apply Nat2Z.inj in E1.
  apply pae_elements_inj; assumption.
Qed.

Lemma pae_bytes_count (bb1 bb2 : list (list byte)) :
  (length bb1 < 8)%nat -> (length bb2 < 8)%nat ->
  length bb1 <> length bb2 -> pae_bytes bb1 <> pae_bytes bb2.
Proof.
  intros H1 H2 Hne E. unfold pae_bytes in E.
  apply app_inj_1 in E as [E1 _]; [|reflexivity].
  apply le64_bytes_inj in E1; lia.
Qed.

Lemma lengths_ok H bb :
  Forall (valid H) bb -> Forall (fun b => int_ok (slen b)) bb ->
  Forall (fun b => int_ok (length b)) (map (bytes H) bb).
Proof.
  induction 1 as [|b bb Hb _ IH]; intros Hl; [constructor|].
  apply Forall_cons in Hl as [Hl1 Hl2]. cbn [map]. constructor.
  - rewrite valid_length; assumption.
  - apply IH, Hl2.
Qed.

(** ** Running the library calls *)

Lemma initial_state_ok : globals_ok (heap initial_state).
Proof. reflexivity. Qed.

Lemma valid_v2local H : globals_ok H -> valid H v2local.
Proof.
  intros Hg. unfold globals_ok in Hg. unfold v2local. cbn [valid].
  rewrite Hg. simpl. lia.
Qed.

Lemma bytes_v2local H : globals_ok H -> bytes H v2local = v2local_bytes.
Proof.
  intros Hg. unfold globals_ok in Hg. unfold v2local. cbn [bytes].
  rewrite Hg. reflexivity.
Qed.

Lemma load_run s H cs :
  load s {| heap := H; calls := cs |}
  = Ok (bytes H s) {| heap := H; calls := cs |}.
Proof. reflexivity. Qed.

Lemma note_run c H cs :
  note c {| heap := H; calls := cs |}
  = Ok tt {| heap := H; calls := c :: cs |}.
Proof. reflexivity. Qed.

Lemma make_new H cs len cap :
  len <= cap ->
  make len cap {| heap := H; calls := cs |}
  = Ok (Slice (length H + 0) 0 len cap)
       {| heap := H ++ [replicate cap x00]; calls := cs |}.
Proof. intros Hle. rewrite Nat.add_0_r. apply make_run0, Hle. Qed.

Lemma slice_to_run a off len cap hi st :
  hi <= cap ->
  slice_to (Slice a off len cap) hi st = Ok (Slice a off hi cap) st.
Proof.
  intros Hle. unfold slice_to. rewrite slice_expr_run by (simpl; lia).
  rewrite Nat.add_0_r, !Nat.sub_0_r. reflexivity.
Qed.

Lemma slice_from_run a off len cap lo st :
  lo <= len -> len <= cap ->
  slice_from (Slice a off len cap) lo st
  = Ok (Slice a (off + lo) (len - lo) (cap - lo)) st.
Proof.
  intros H1 H2. unfold slice_from. rewrite slice_expr_run by (simpl; lia).
  reflexivity.
Qed.

Lemma write_at_app' pos pre bs rest :
  pos = length pre -> length bs <= length rest ->
  write_at pos bs (pre ++ rest) = pre ++ bs ++ drop (length bs) rest.
Proof. intros ->. apply write_at_app. Qed.

Lemma write_at_0 bs rest :
  length bs <= length rest ->
  write_at 0 bs rest = bs ++ drop (length bs) rest.
Proof. intros Hle. apply (write_at_app' 0 []); [reflexivity | exact Hle]. Qed.

Lemma append_in_place H ext cs i off len cap bs arr :
  ext !! i = Some arr -> len + length bs <= cap ->
  append_bytes (Slice (length H + i) off len cap) bs
               {| heap := H ++ ext; calls := cs |}
  = Ok (Slice (length H + i) off (len + length bs) cap)
       {| heap := H ++ <[i := write_at (off + len) bs arr]> ext;
          calls := cs |}.
Proof.
  intros Hi Hle. unfold append_bytes. cbn [slen scap].
  destruct (Nat.leb_spec (len + length bs) cap) as [_|]; [|lia].
  rewrite bind_eq, slice_to_run by lia. cbv beta iota.
  rewrite bind_eq. erewrite store_at_new; [ | exact Hi | lia ].
  reflexivity.
Qed.

Lemma append_nil H cs bs :
  bs <> [] ->
  append_bytes nil_slice bs {| heap := H; calls := cs |}
  = Ok (Slice (length H + 0) 0 (length bs) (length bs))
       {| heap := H ++ [bs]; calls := cs |}.
Proof.
  intros Hne. unfold append_bytes. cbn [slen scap Nat.add].
  destruct bs as [|b bs]; [congruence|]. cbn [length Nat.leb].
  rewrite bind_eq, load_run. cbv beta iota.
  rewrite bind_eq, make_new by lia. cbv beta iota.
  rewrite bind_eq. erewrite store_at_new; [ | reflexivity | simpl; lia ].
  cbv beta iota. rewrite bind_eq.
  erewrite store_at_new;
    [ | reflexivity | cbn [length]; lia ].
  cbv beta iota. rewrite ret_eq. cbn [insert list_insert Nat.add bytes length].
  rewrite (write_at_0 []) by (cbn [length]; lia).
  cbn [app length]. rewrite drop_0.
  rewrite write_at_0 by (rewrite length_replicate; reflexivity).
  rewrite drop_ge by (rewrite length_replicate; reflexivity).
  rewrite app_nil_r. reflexivity.
Qed.

Lemma append_nil_empty st : append_bytes nil_slice [] st = Ok nil_slice st.
Proof. reflexivity. Qed.

Lemma Encode_run H ext cs i off len cap src arr :
  ext !! i = Some arr ->
  base64.EncodedLen (length (bytes (H ++ ext) src)) <= len ->
  Encode (Slice (length H + i) off len cap) src
         {| heap := H ++ ext; calls := cs |}
  = Ok tt {| heap := H ++ <[i := write_at off
                                  (base64.Encode_bytes (bytes (H ++ ext) src))
                                  arr]> ext;
             calls := CallEncode :: cs |}.
Proof.
  intros Hi Hle. unfold Encode.
  rewrite bind_eq, note_run. cbv beta iota.
  rewrite bind_eq, load_run. cbv beta iota.
  erewrite store_at_new;
    [ | exact Hi | rewrite base64_facts.Encode_bytes_length; lia ].
  rewrite Nat.add_0_r. reflexivity.
Qed.

Lemma copy_run H ext cs i off len cap src arr :
  ext !! i = Some arr -> valid (H ++ ext) src ->
  copy (Slice (length H + i) off len cap) src
       {| heap := H ++ ext; calls := cs |}
  = Ok (Nat.min len (slen src))
       {| heap := H ++ <[i := write_at off
                     (take (Nat.min len (slen src)) (bytes (H ++ ext) src))
                     arr]> ext;
          calls := cs |}.
Proof.
  intros Hi Hv. unfold copy.
  rewrite bind_eq, load_run. cbv beta iota. cbn [slen].
  rewrite bind_eq.
  erewrite store_at_new;
    [ | exact Hi | rewrite length_take, valid_length by assumption; lia ].
  rewrite Nat.add_0_r. reflexivity.
Qed.

(** ** Parsing a token *)

Lemma DecodedLen_EncodedLen n :
  n <= base64.DecodedLen (base64.EncodedLen n).
Proof.
  unfold base64.DecodedLen, base64.EncodedLen.
  pose proof (Nat.div_mod (n * 8 + 5) 6 ltac:(lia)) as H1.
  pose proof (Nat.mod_upper_bound (n * 8 + 5) 6 ltac:(lia)) as H2.
  apply Nat.div_le_lower_bound; lia.
Qed.

Lemma byte_eqb_refl c : Byte.eqb c c = true.
Proof. apply Byte.byte_dec_lb. reflexivity. Qed.

Lemma index_byte_none l c :
  Forall (fun x => x <> c) l -> index_byte l c = (-1)%Z.
Proof.
  induction 1 as [|x l Hx _ IH]; [reflexivity|]. cbn [index_byte].
  destruct (Byte.eqb x c) eqn:E; [apply Byte.byte_dec_bl in E; congruence|].
  rewrite IH. reflexivity.
Qed.

Lemma index_byte_app l1 l2 c :
  Forall (fun x => x <> c) l1 ->
  index_byte (l1 ++ c :: l2) c = Z.of_nat (length l1).
Proof.
  induction 1 as [|x l Hx _ IH]; cbn [index_byte app length].
  - rewrite byte_eqb_refl. reflexivity.
  - destruct (Byte.eqb x c) eqn:E; [apply Byte.byte_dec_bl in E; congruence|].
    rewrite IH. destruct (Z.ltb_spec (Z.of_nat (length l)) 0); lia.
Qed.

Lemma has_prefix_app p s : has_prefix (p ++ s) p = true.
Proof.
  unfold has_prefix. rewrite take_app_length, length_app.
  rewrite bool_decide_true by reflexivity.
  destruct (Nat.leb_spec (length p) (length p + length s)); [reflexivity|lia].
Qed.

Lemma bytes_slice_from H a off len cap cap' lo :
  lo <= len ->
  bytes H (Slice a (off + lo) (len - lo) cap')
  = drop lo (bytes H (Slice a off len cap)).
Proof.
  intros Hlo. cbn [bytes].
  destruct (H !! a) as [arr|]; [|destruct lo; reflexivity].
  rewrite !take_drop_commute, drop_drop.
  replace (off + lo + (len - lo)) with (off + len) by lia. reflexivity.
Qed.

Lemma bytes_slice_to H a off len cap cap' hi :
  hi <= len ->
  bytes H (Slice a off hi cap')
  = take hi (bytes H (Slice a off len cap)).
Proof.
  intros Hhi. cbn [bytes].
  destruct (H !! a) as [arr|]; [|destruct hi; reflexivity].
  rewrite take_take. replace (hi `min` len) with hi by lia. reflexivity.
Qed.

Lemma decodeBase64_run H1 cs src out :
  valid H1 src ->
  base64.Decode_bytes (bytes H1 src) = (out, true) ->
  length out <= base64.DecodedLen (slen src) ->
  decodeBase64 src {| heap := H1; calls := cs |}
  = Ok (Slice (length H1) 0 (length out) (base64.DecodedLen (slen src)), true)
       {| heap := H1 ++ [out ++ replicate (base64.DecodedLen (slen src)
                                           - length out) x00];
          calls := CallDecode :: cs |}.
Proof.
  intros Hv Hdec Hlen. unfold decodeBase64.
  rewrite bind_eq, make_run0 by lia. cbv beta iota.
  rewrite bind_eq. unfold Decode.
  rewrite bind_eq, note_run. cbv beta iota.
  rewrite bind_eq, load_run, bytes_app, Hdec by assumption. cbv beta iota.
  rewrite bind_eq, store_at_last by lia. cbv beta iota.
  rewrite ret_eq. cbv beta iota.
  rewrite bind_eq, slice_to_run by lia. cbv beta iota.
  rewrite ret_eq, Nat.add_0_l.
  rewrite write_at_0 by (rewrite length_replicate; lia).
  rewrite drop_replicate. reflexivity.
Qed.

(** ** [Encrypt] *)

Section package_facts.
Context `{Crypto}.
Context (randRead : nat -> list byte * option error).

Lemma NewX_run k H0 cs :
  NewX k {| heap := H0; calls := cs |}
  = Ok (if (length (bytes H0 k) =? KeySize)%nat
        then inl {| aead_key := bytes H0 k |}
        else inr errBadKeyLength)
       {| heap := H0; calls := CallNewX :: cs |}.
Proof.
  unfold NewX. rewrite bind_eq, note_run. cbv beta iota.
  rewrite bind_eq, load_run. cbv beta iota.
  destruct (length (bytes H0 k) =? KeySize)%nat; reflexivity.
Qed.

Lemma seed_buffer bs n :
  24 <= n ->
  write_at 0 (take 24 bs) (replicate n x00)
  = seed_of bs ++ replicate (n - 24) x00.
Proof.
  intros Hn. rewrite write_at_0
    by (rewrite length_take, length_replicate; lia).
  rewrite drop_replicate, length_take. unfold seed_of.
  destruct (Nat.le_gt_cases 24 (length bs)) as [Hl|Hl].
  - rewrite take_app_le by lia.
    replace (n - 24 `min` length bs) with (n - 24) by lia. reflexivity.
  - rewrite (take_ge bs) by lia. rewrite take_app_ge by lia.
    rewrite take_replicate.
    replace (n - 24 `min` length bs)
      with ((24 - length bs) + (n - 24)) by lia.
    rewrite replicate_add, <- app_assoc.
    replace ((24 - length bs) `min` 24) with (24 - length bs) by lia.
    reflexivity.
Qed.

Lemma seed_of_length bs : length (seed_of bs) = 24.
Proof.
  unfold seed_of. rewrite length_take, length_app, length_replicate. lia.
Qed.

Lemma Encrypt_run H0 cs m k f bs :
  globals_ok H0 -> valid H0 m -> valid H0 k -> valid H0 f ->
  length (bytes H0 k) = KeySize ->
  randRead 24 = (bs, None) ->
  let tok := token_spec (seed_of bs) (bytes H0 m) (bytes H0 k)
                        (bytes H0 f) in
  Encrypt randRead m k f {| heap := H0; calls := cs |}
  = Ok (Slice (length H0 + 2) 0 (length tok) (length tok), None)
       {| heap := H0 ++ [ body_spec (seed_of bs) (bytes H0 m) (bytes H0 k)
                                    (bytes H0 f);
                          pae_spec [ v2local_bytes;
                                     nonce_spec (seed_of bs) (bytes H0 m);
                                     bytes H0 f ];
                          tok ];
          calls := Encrypt_calls f ++ cs |}.
Proof.
  intros Hg Hm Hk Hf Hklen Hrand tok.
  unfold Encrypt.
  remember (24 + slen m + Overhead) as C eqn:HC.
  rewrite bind_eq, NewX_run, Hklen. cbv beta iota.
  change (KeySize =? KeySize)%nat with true. cbv beta iota.
  rewrite bind_eq, make_new by lia. cbv beta iota.
  rewrite bind_eq, slice_to_run by lia. cbv beta iota.
  (* the random source *)
  rewrite bind_eq. unfold call_randRead.
  rewrite bind_eq, note_run. cbv beta iota. cbn [slen].
  rewrite Hrand. cbv beta iota zeta.
  rewrite bind_eq.
  erewrite store_at_new;
    [ | reflexivity | rewrite length_take; lia ].
  cbv beta iota. rewrite ret_eq. cbv beta iota.
  cbn [insert list_insert Nat.add].
  rewrite seed_buffer by lia.
  (* the nonce *)
  rewrite bind_eq. unfold blake2b_New.
  rewrite bind_eq, note_run. cbv beta iota.
  rewrite bind_eq, load_run. cbv beta iota.
  rewrite bytes_new. cbn [lookup list_lookup].
  rewrite drop_0, take_app_length' by (rewrite seed_of_length; reflexivity).
  rewrite seed_of_length.
  change (24 <? 1) with false. change (64 <? 24) with false.
  cbn [orb]. cbv beta iota. rewrite ret_eq. cbv beta iota.
  rewrite bind_eq. unfold hash_Write.
  rewrite bind_eq, note_run. cbv beta iota.
  rewrite bind_eq, load_run, bytes_app by assumption. cbv beta iota.
  rewrite ret_eq. cbv beta iota. cbn [d_size d_key d_data app].
  rewrite bind_eq. unfold hash_Sum. cbn [d_size d_key d_data].
  rewrite bind_eq, note_run. cbv beta iota.
  fold (nonce_spec (seed_of bs) (bytes H0 m)).
  set (n := nonce_spec (seed_of bs) (bytes H0 m)).
  assert (length n = 24) as Hn.
  { subst n. unfold nonce_spec. apply blake2b_sum_length; [lia|].
    rewrite seed_of_length. lia. }
  erewrite append_in_place; [ | reflexivity | lia ].
  cbv beta iota. cbn [insert list_insert Nat.add]. rewrite Hn.
  rewrite write_at_0
    by (rewrite length_app, length_replicate, seed_of_length; lia).
  rewrite Hn, drop_app_length' by (rewrite seed_of_length; reflexivity).
  (* the additional data *)
  pose proof (valid_v2local _ Hg) as Hh.
  rewrite bind_eq, pae_run.
  2:{ repeat constructor.
      - apply valid_app, Hh.
      - unfold valid. rewrite lookup_new. cbn [lookup list_lookup].
        rewrite length_app, length_replicate. lia.
      - apply valid_app, Hf. }
  cbv beta iota. cbn [map].
  rewrite (bytes_app _ _ v2local), (bytes_app _ _ f) by assumption.
  rewrite bytes_v2local, bytes_new by assumption.
  cbn [lookup list_lookup].
  rewrite drop_0, take_app_length' by (symmetry; exact Hn).
  rewrite length_app, <- app_assoc. cbn [length app pae_size slen v2local].
  set (aad := pae_bytes [v2local_bytes; n; bytes H0 f]).
  assert (length aad = 8 + 8 * 3 + 9 + 24 + slen f) as Haad.
  { subst aad. unfold pae_bytes. cbn [map concat].
    rewrite !length_app, !le64_bytes_length, Hn, (valid_length _ _ Hf).
    simpl. lia. }
  (* sealing *)
  rewrite bind_eq. unfold Seal.
  rewrite bind_eq, note_run. cbv beta iota.
  rewrite bind_eq, load_run, bytes_new. cbv beta iota.
  cbn [lookup list_lookup].
  rewrite drop_0, take_app_length' by (symmetry; exact Hn).
  rewrite Hn. change (24 =? NonceSizeX) with true. cbn [negb].
  rewrite bind_eq, load_run, bytes_app by assumption. cbv beta iota.
  rewrite bind_eq, load_run, bytes_new. cbv beta iota.
  cbn [lookup list_lookup aead_key].
  rewrite drop_0, <- Haad, firstn_all.
  set (c := aead_seal (bytes H0 k) n (bytes H0 m) aad).
  assert (length c = slen m + Overhead) as Hc.
  { subst c. rewrite aead_seal_length, (valid_length _ _ Hm). reflexivity. }
  erewrite append_in_place; [ | reflexivity | lia ].
  cbv beta iota. cbn [insert list_insert slen]. rewrite !Nat.add_0_l.
  rewrite Hc.
  rewrite write_at_app'
    by (rewrite ?length_replicate; lia).
  rewrite drop_ge by (rewrite length_replicate; lia).
  rewrite app_nil_r.
  (* the token *)
  set (E := base64.EncodedLen (24 + (slen m + Overhead))).
  set (enc := base64.Encode_bytes (n ++ c)).
  assert (length enc = E) as Henc.
  { subst enc E.
    rewrite base64_facts.Encode_bytes_length, length_app, Hn, Hc.
    reflexivity. }
  replace (body_spec (seed_of bs) (bytes H0 m) (bytes H0 k) (bytes H0 f))
    with (n ++ c)
    by (unfold body_spec; rewrite <- pae_bytes_spec; reflexivity).
  assert (tok = v2local_bytes ++ enc
                ++ match bytes H0 f with
                   | [] => []
                   | _ :: _ => "."%byte :: base64.Encode_bytes (bytes H0 f)
                   end) as Htok.
  { subst tok. unfold token_spec, body_spec. rewrite <- pae_bytes_spec.
    reflexivity. }
  rewrite <- pae_bytes_spec. fold aad.
  clearbody tok. subst tok.
  pose proof (valid_length _ _ Hf) as Hflen.
  assert (length v2local_bytes = 9) as Hv2 by reflexivity.
  destruct (bytes H0 f) as [|b0 fb] eqn:Ef.
  - (* no footer *)
    cbn [length] in Hflen. rewrite <- Hflen.
    change (0 <? 0) with false. cbv iota.
    rewrite bind_eq, make_run by lia. cbv beta iota. cbn [length app].
    rewrite bind_eq; erewrite copy_run; [ | reflexivity | apply valid_app, Hh ].
    cbv beta iota. cbn [insert list_insert slen v2local].
    rewrite (bytes_app _ _ (Slice 0 0 9 9)) by exact Hh.
    fold v2local. rewrite bytes_v2local by assumption.
    replace ((9 + E) `min` 9) with 9 by lia.
    rewrite (take_ge v2local_bytes) by (rewrite Hv2; lia).
    rewrite write_at_0 by (rewrite length_replicate; lia).
    rewrite drop_replicate, Hv2.
    rewrite bind_eq, slice_from_run by lia. cbv beta iota.
    rewrite bind_eq; erewrite Encode_run;
      [ | reflexivity
        | rewrite bytes_new; cbn [lookup list_lookup];
          rewrite drop_0, take_ge by (rewrite length_app, Hn, Hc; lia);
          rewrite length_app, Hn, Hc; unfold E; lia ].
    cbv beta iota. cbn [insert list_insert].
    rewrite bytes_new. cbn [lookup list_lookup].
    rewrite drop_0, take_ge by (rewrite length_app, Hn, Hc; lia).
    fold enc. rewrite Nat.add_0_l.
    rewrite write_at_app' by (rewrite ?length_replicate; lia).
    rewrite drop_ge by (rewrite length_replicate; lia).
    rewrite ret_eq, app_nil_r.
    rewrite !length_app, Hv2, Henc.
    unfold Encrypt_calls. rewrite <- Hflen. reflexivity.
  - (* a footer *)
    cbn [length] in Hflen. rewrite <- Hflen.
    change (0 <? S (length fb)) with true. cbv iota.
    set (F := base64.EncodedLen (S (length fb))).
    set (encf := base64.Encode_bytes (b0 :: fb)).
    assert (length encf = F) as Hencf.
    { subst encf F. rewrite base64_facts.Encode_bytes_length. reflexivity. }
    rewrite bind_eq, make_run by lia. cbv beta iota. cbn [length app].
    rewrite bind_eq; erewrite copy_run; [ | reflexivity | apply valid_app, Hh ].
    cbv beta iota. cbn [insert list_insert slen v2local].
    rewrite (bytes_app _ _ (Slice 0 0 9 9)) by exact Hh.
    fold v2local. rewrite bytes_v2local by assumption.
    replace ((9 + E + S F) `min` 9) with 9 by lia.
    rewrite (take_ge v2local_bytes) by (rewrite Hv2; lia).
    rewrite write_at_0 by (rewrite length_replicate; lia).
    rewrite drop_replicate, Hv2.
    rewrite bind_eq, slice_from_run by lia. cbv beta iota.
    rewrite bind_eq; erewrite Encode_run;
      [ | reflexivity
        | rewrite bytes_new; cbn [lookup list_lookup];
          rewrite drop_0, take_ge by (rewrite length_app, Hn, Hc; lia);
          rewrite length_app, Hn, Hc; unfold E; lia ].
    cbv beta iota. cbn [insert list_insert].
    rewrite bytes_new. cbn [lookup list_lookup].
    rewrite drop_0, take_ge by (rewrite length_app, Hn, Hc; lia).
    fold enc. rewrite Nat.add_0_l.
    rewrite write_at_app' by (rewrite ?length_replicate; lia).
    rewrite drop_replicate, Henc.
    (* the separator *)
    rewrite bind_eq. unfold set_index.
    erewrite store_at_new; [ | reflexivity | cbn [length]; lia ].
    cbv beta iota. cbn [insert list_insert]. rewrite Nat.add_0_l.
    rewrite (app_assoc v2local_bytes enc).
    rewrite write_at_app'
      by (rewrite ?length_app, ?length_replicate, ?Hv2, ?Henc;
          cbn [length]; lia).
    rewrite drop_replicate. cbn [length].
    rewrite bind_eq, slice_from_run by lia. cbv beta iota.
    rewrite bind_eq; erewrite Encode_run;
      [ | reflexivity
        | rewrite (bytes_app _ _ f), Ef by assumption; cbn [length];
          unfold F; lia ].
    cbv beta iota. cbn [insert list_insert].
    rewrite (bytes_app _ _ f), Ef by assumption. fold encf.
    rewrite Nat.add_0_l.
    rewrite (app_assoc (v2local_bytes ++ enc) ["."%byte]).
    rewrite write_at_app'
      by (rewrite ?length_app, ?length_replicate, ?Hv2, ?Henc;
          cbn [length]; lia).
    rewrite drop_ge by (rewrite length_replicate; lia).
    rewrite ret_eq, app_nil_r.
    rewrite <- !app_assoc. cbn [app].
    rewrite !length_app, Hv2, Henc. cbn [length]. rewrite Hencf.
    unfold Encrypt_calls. rewrite <- Hflen.
    change (0 <? S (length fb)) with true. cbn [app].
    replace (9 + (E + S F)) with (9 + E + S F) by lia. reflexivity.
Qed.

Lemma Encrypt_bad_key H0 cs m k f :
  length (bytes H0 k) <> KeySize ->
  Encrypt randRead m k f {| heap := H0; calls := cs |}
  = Ok (nil_slice, Some errBadKeyLength)
       {| heap := H0; calls := CallNewX :: cs |}.
Proof.
  intros Hk. unfold Encrypt. rewrite bind_eq, NewX_run.
  destruct (Nat.eqb_spec (length (bytes H0 k)) KeySize); [contradiction|].
  reflexivity.
Qed.

Lemma Encrypt_rand_err H0 cs m k f bs e :
  length (bytes H0 k) = KeySize ->
  randRead 24 = (bs, Some e) ->
  Encrypt randRead m k f {| heap := H0; calls := cs |}
  = Ok (nil_slice, Some e)
       {| heap := H0 ++ [seed_of bs
                         ++ replicate (slen m + Overhead) x00];
          calls := CallRandRead :: CallNewX :: cs |}.
Proof.
  intros Hklen Hrand. unfold Encrypt.
  remember (24 + slen m + Overhead) as C eqn:HC.
  rewrite bind_eq, NewX_run, Hklen. cbv beta iota.
  change (KeySize =? KeySize)%nat with true. cbv beta iota.
  rewrite bind_eq, make_new by lia. cbv beta iota.
  rewrite bind_eq, slice_to_run by lia. cbv beta iota.
  rewrite bind_eq. unfold call_randRead.
  rewrite bind_eq, note_run. cbv beta iota. cbn [slen].
  rewrite Hrand. cbv beta iota zeta.
  rewrite bind_eq.
  erewrite store_at_new;
    [ | reflexivity | rewrite length_take; lia ].
  cbv beta iota. rewrite ret_eq. cbv beta iota.
  cbn [insert list_insert Nat.add].
  rewrite seed_buffer by lia.
  replace (C - 24) with (slen m + Overhead) by lia. reflexivity.
Qed.

End package_facts.

(** ** [Decrypt] *)

Section decrypt_facts.
Context `{Crypto}.

Lemma Decrypt_body_run H1 cs m footer k body fb p :
  globals_ok H1 -> valid H1 m -> valid H1 footer -> valid H1 k ->
  length (bytes H1 k) = KeySize ->
  bytes H1 m = base64.Encode_bytes body ->
  bytes H1 footer = fb ->
  24 <= length body ->
  aead_open (bytes H1 k) (take 24 body) (drop 24 body)
            (pae_bytes [v2local_bytes; take 24 body; fb]) = Some p ->
  exists pl ext cs',
    Decrypt_body v2local m footer k {| heap := H1; calls := cs |}
    = Ok (pl, footer, true) {| heap := H1 ++ ext; calls := cs' |}
    /\ bytes (H1 ++ ext) pl = p
    /\ is_new H1 pl.
Proof.
  intros Hg Hm Hft Hk Hklen Hmb Hfb Hlen Hopen.
  pose proof (valid_v2local _ Hg) as Hh.
  pose proof (valid_length _ _ Hm) as Hml.
  rewrite Hmb, base64_facts.Encode_bytes_length in Hml.
  pose proof (DecodedLen_EncodedLen (length body)) as HD.
  rewrite Hml in HD.
  set (D := base64.DecodedLen (slen m)) in *.
  unfold Decrypt_body.
  rewrite bind_eq, (decodeBase64_run _ _ _ body);
    [ | assumption | rewrite Hmb; apply base64_facts.Decode_Encode
      | exact HD ].
  cbv beta iota. cbn [negb]. cbv iota. fold D.
  set (rawarr := body ++ replicate (D - length body) x00).
  set (H2 := H1 ++ [rawarr]).
  rewrite bind_eq, slice_to_run by lia. cbv beta iota.
  rewrite bind_eq, slice_from_run by lia. cbv beta iota.
  set (n := Slice (length H1) 0 24 D).
  set (c := Slice (length H1) (0 + 24) (length body - 24) (D - 24)).
  assert (length rawarr = D) as Hraw.
  { subst rawarr. rewrite length_app, length_replicate. lia. }
  assert (valid H2 n) as Hvn.
  { subst n H2. cbn [valid].
    rewrite list_lookup_middle by reflexivity. lia. }
  assert (valid H2 c) as Hvc.
  { subst c H2. cbn [valid].
    rewrite list_lookup_middle by reflexivity. lia. }
  assert (bytes H2 n = take 24 body) as Hbn.
  { subst n H2. rewrite bytes_last, drop_0. subst rawarr.
    rewrite take_app_le by lia. reflexivity. }
  assert (bytes H2 c = drop 24 body) as Hbc.
  { subst c H2. rewrite bytes_last. subst rawarr.
    rewrite Nat.add_0_l, drop_app_le by lia.
    rewrite take_app_le by (rewrite length_drop; lia).
    apply take_ge. rewrite length_drop. lia. }
  rewrite bind_eq, pae_run
    by (repeat constructor; try assumption; apply valid_app; assumption).
  cbv beta iota. cbn [map].
  assert (bytes H2 v2local = v2local_bytes) as Hbh
    by (unfold H2; rewrite bytes_app, bytes_v2local by assumption;
        reflexivity).
  assert (bytes H2 footer = fb) as Hbf
    by (unfold H2; rewrite bytes_app by assumption; exact Hfb).
  rewrite Hbn, Hbh, Hbf.
  set (aad := pae_bytes [v2local_bytes; take 24 body; fb]) in *.
  set (psz := pae_size [v2local; n; footer] (8 + 8 * length [v2local; n; footer])).
  assert (length aad = psz) as Haad.
  { subst aad psz. rewrite <- Hbn, <- Hbf, <- Hbh.
    apply (pae_bytes_length H2 [v2local; n; footer]).
    repeat constructor; try assumption; apply valid_app; assumption. }
  set (H3 := H2 ++ [aad]).
  assert (bytes H3 k = bytes H1 k) as Hbk
    by (unfold H3, H2; rewrite !bytes_app; auto using valid_app).
  assert (bytes H3 n = take 24 body) as Hbn3
    by (unfold H3; rewrite bytes_app; assumption).
  assert (bytes H3 c = drop 24 body) as Hbc3
    by (unfold H3; rewrite bytes_app; assumption).
  assert (bytes H3 (Slice (length H2) 0 psz psz) = aad) as Hba3
    by (unfold H3; rewrite bytes_last, drop_0, <- Haad; apply firstn_all).
  rewrite bind_eq, NewX_run. cbv beta iota.
  rewrite Hbk, Hklen.
  change (KeySize =? KeySize) with true. cbv iota.
  rewrite bind_eq. unfold Open.
  rewrite bind_eq, note_run. cbv beta iota.
  rewrite bind_eq, load_run, Hbn3. cbv beta iota.
  rewrite length_take.
  replace (24 `min` length body) with 24 by lia.
  change (24 =? NonceSizeX) with true. cbn [negb]. cbv iota.
  rewrite bind_eq, load_run, Hbc3. cbv beta iota.
  rewrite bind_eq, load_run, Hba3. cbv beta iota.
  cbn [aead_key]. rewrite Hopen. fold H3.
  destruct p as [|p0 p].
  - rewrite bind_eq, append_nil_empty. cbv beta iota. rewrite ret_eq.
    exists nil_slice, [rawarr; aad]. eexists. split; [|split].
    + unfold H3, H2. rewrite <- app_assoc. reflexivity.
    + reflexivity.
    + exact I.
  - rewrite bind_eq, append_nil by discriminate. cbv beta iota.
    rewrite ret_eq.
    eexists _, [rawarr; aad; p0 :: p]. eexists. split; [|split].
    + unfold H3, H2. rewrite <- !app_assoc. reflexivity.
    + replace (H1 ++ [rawarr; aad; p0 :: p])
        with ((H1 ++ [rawarr] ++ [aad]) ++ [p0 :: p])
        by (rewrite <- !app_assoc; reflexivity).
      rewrite Nat.add_0_r, bytes_last, drop_0. apply firstn_all.
    + cbn [is_new]. unfold H3, H2. rewrite !length_app. lia.
Qed.

Lemma globals_ok_app H1 ext : globals_ok H1 -> globals_ok (H1 ++ ext).
Proof. unfold globals_ok. apply lookup_app_l_Some. Qed.

Lemma Decrypt_no_footer H0 cs tok k e :
  globals_ok H0 -> valid H0 tok ->
  bytes H0 tok = v2local_bytes ++ e ->
  Forall (fun c => c <> "."%byte) e ->
  exists m,
    Decrypt tok k {| heap := H0; calls := cs |}
    = Decrypt_body v2local m nil_slice k {| heap := H0; calls := cs |}
    /\ valid H0 m /\ bytes H0 m = e.
Proof.
  intros Hg Htok Htb Hnd.
  pose proof (valid_length _ _ Htok) as Htl. rewrite Htb in Htl.
  destruct tok as [|a off len cap]; [discriminate Htb|].
  cbn [slen] in Htl. rewrite !length_app in Htl.
  change (length v2local_bytes) with 9 in Htl.
  assert (len <= cap) as Hcap.
  { cbn [valid] in Htok. destruct (H0 !! a); [lia|tauto]. }
  set (m := Slice a (off + 9) (len - 9) (cap - 9)).
  exists m. repeat split.
  - unfold Decrypt.
    rewrite bind_eq. unfold HasPrefix.
    rewrite bind_eq, load_run. cbv beta iota.
    rewrite bind_eq, load_run. cbv beta iota.
    rewrite ret_eq, bytes_v2local, Htb, has_prefix_app by assumption.
    cbv beta iota. cbn [negb slen v2local]. cbv iota.
    rewrite bind_eq, slice_from_run by lia. cbv beta iota. fold m.
    rewrite bind_eq. unfold IndexByte.
    rewrite bind_eq, load_run. cbv beta iota. rewrite ret_eq.
    cbv beta iota.
    assert (bytes H0 m = e) as ->.
    { subst m. rewrite (bytes_slice_from _ _ _ _ cap) by lia.
      rewrite Htb. apply drop_app_length'. reflexivity. }
    rewrite index_byte_none by assumption. reflexivity.
  - subst m. cbn [valid] in *. destruct (H0 !! a); [lia|tauto].
  - subst m. rewrite (bytes_slice_from _ _ _ _ cap) by lia.
    rewrite Htb. apply drop_app_length'. reflexivity.
Qed.

Lemma Decrypt_with_footer H0 cs tok k e fe fo :
  globals_ok H0 -> valid H0 tok ->
  bytes H0 tok = v2local_bytes ++ e ++ "."%byte :: fe ->
  Forall (fun c => c <> "."%byte) e ->
  base64.Decode_bytes fe = (fo, true) ->
  exists m footer farr,
    Decrypt tok k {| heap := H0; calls := cs |}
    = Decrypt_body v2local m footer k
        {| heap := H0 ++ [farr]; calls := CallDecode :: cs |}
    /\ valid (H0 ++ [farr]) m /\ bytes (H0 ++ [farr]) m = e
    /\ valid (H0 ++ [farr]) footer /\ bytes (H0 ++ [farr]) footer = fo
    /\ is_new H0 footer.
Proof.
  intros Hg Htok Htb Hnd Hdec.
  pose proof (valid_length _ _ Htok) as Htl. rewrite Htb in Htl.
  destruct tok as [|a off len cap]; [discriminate Htb|].
  cbn [slen] in Htl. rewrite !length_app in Htl. cbn [length] in Htl.
  change (length v2local_bytes) with 9 in Htl.
  assert (len <= cap) as Hcap.
  { cbn [valid] in Htok. destruct (H0 !! a); [lia|tauto]. }
  set (m := Slice a (off + 9) (len - 9) (cap - 9)).
  assert (bytes H0 m = e ++ "."%byte :: fe) as Hmb.
  { subst m. rewrite (bytes_slice_from _ _ _ _ cap) by lia.
    rewrite Htb. apply drop_app_length'. reflexivity. }
  set (s := Slice a (off + 9 + (length e + 1)) (len - 9 - (length e + 1))
                  (cap - 9 - (length e + 1))).
  assert (valid H0 s) as Hs.
  { subst s. cbn [valid] in *. destruct (H0 !! a); [lia|tauto]. }
  assert (bytes H0 s = fe) as Hsb.
  { subst s. rewrite (bytes_slice_from _ _ _ _ (cap - 9)) by lia.
    fold m. rewrite Hmb.
    replace (e ++ "."%byte :: fe) with ((e ++ ["."%byte]) ++ fe)
      by (rewrite <- app_assoc; reflexivity).
    apply drop_app_length'. rewrite length_app. reflexivity. }
  pose proof (base64_facts.Decode_bytes_bound fe) as Hfo.
  rewrite Hdec, <- Hsb, (valid_length _ _ Hs) in Hfo. cbn [fst] in Hfo.
  set (D := base64.DecodedLen (slen s)) in *.
  set (farr := fo ++ replicate (D - length fo) x00).
  set (footer := Slice (length H0) 0 (length fo) D).
  set (m' := Slice a (off + 9) (length e) (cap - 9)).
  exists m', footer, farr. split; [|repeat split].
  - unfold Decrypt.
    rewrite bind_eq. unfold HasPrefix.
    rewrite bind_eq, load_run. cbv beta iota.
    rewrite bind_eq, load_run. cbv beta iota.
    rewrite ret_eq, bytes_v2local, Htb, has_prefix_app by assumption.
    cbv beta iota. cbn [negb slen v2local]. cbv iota.
    rewrite bind_eq, slice_from_run by lia. cbv beta iota. fold m.
    rewrite bind_eq. unfold IndexByte.
    rewrite bind_eq, load_run. cbv beta iota. rewrite ret_eq, Hmb.
    cbv beta iota.
    rewrite index_byte_app by assumption.
    destruct (Z.leb_spec 0 (Z.of_nat (length e))) as [_|]; [|lia].
    replace (Z.to_nat (Z.of_nat (length e) + 1)) with (length e + 1) by lia.
    rewrite Nat2Z.id.
    rewrite bind_eq. unfold m at 1.
    rewrite slice_from_run by lia. cbv beta iota. fold s.
    rewrite bind_eq, (decodeBase64_run _ _ _ fo);
      [ | assumption | rewrite Hsb; exact Hdec | exact Hfo ].
    cbv beta iota. cbn [negb]. cbv iota. fold D farr footer.
    rewrite bind_eq. unfold m at 1.
    rewrite slice_to_run by lia. reflexivity.
  - apply valid_app. subst m'. cbn [valid] in *.
    destruct (H0 !! a); [lia|tauto].
  - rewrite bytes_app.
    + subst m'. rewrite (bytes_slice_to _ _ _ (len - 9) (cap - 9)) by lia.
      fold m. rewrite Hmb. apply take_app_length.
    + subst m'. cbn [valid] in *. destruct (H0 !! a); [lia|tauto].
  - subst footer. cbn [valid].
    rewrite list_lookup_middle by reflexivity. subst farr.
    rewrite length_app, length_replicate. lia.
  - subst footer. rewrite bytes_last, drop_0. subst farr.
    apply take_app_length.
  - cbn [is_new footer]. lia.
Qed.

Lemma Decrypt_run H0 cs tok k body fb p :
  globals_ok H0 -> valid H0 tok -> valid H0 k ->
  length (bytes H0 k) = KeySize ->
  bytes H0 tok
  = v2local_bytes ++ base64.Encode_bytes body
      ++ match fb with
         | [] => []
         | _ :: _ => "."%byte :: base64.Encode_bytes fb
         end ->
  24 <= length body ->
  aead_open (bytes H0 k) (take 24 body) (drop 24 body)
            (pae_bytes [v2local_bytes; take 24 body; fb]) = Some p ->
  exists pl ft ext cs',
    Decrypt tok k {| heap := H0; calls := cs |}
    = Ok (pl, ft, true) {| heap := H0 ++ ext; calls := cs' |}
    /\ bytes (H0 ++ ext) pl = p
    /\ bytes (H0 ++ ext) ft = fb
    /\ is_new H0 pl /\ is_new H0 ft.
Proof.
  intros Hg Htok Hk Hklen Htb Hlen Hopen.
  pose proof (base64_facts.Encode_bytes_no_dot body) as Hnd.
  destruct fb as [|b0 fb].
  - (* no footer *)
    rewrite app_nil_r in Htb.
    destruct (Decrypt_no_footer H0 cs tok k _ Hg Htok Htb Hnd)
      as (m & -> & Hm & Hmb).
    destruct (Decrypt_body_run H0 cs m nil_slice k body [] p)
      as (pl & ext & cs' & Hrun & Hpl & Hnew);
      try assumption; try reflexivity.
    exists pl, nil_slice, ext, cs'. rewrite Hrun.
    repeat split; assumption.
  - (* a footer *)
    destruct (Decrypt_with_footer H0 cs tok k _ _ (b0 :: fb) Hg Htok Htb Hnd
                (base64_facts.Decode_Encode _))
      as (m & footer & farr & -> & Hm & Hmb & Hft & Hftb & Hfnew).
    assert (bytes (H0 ++ [farr]) k = bytes H0 k) as Hkb
      by (apply bytes_app, Hk).
    destruct (Decrypt_body_run (H0 ++ [farr]) (CallDecode :: cs) m footer k
                               body (b0 :: fb) p)
      as (pl & ext & cs' & Hrun & Hpl & Hnew);
      try assumption.
    { apply globals_ok_app, Hg. }
    { apply valid_app, Hk. }
    { rewrite Hkb. exact Hklen. }
    { rewrite Hkb. exact Hopen. }
    exists pl, footer, (farr :: ext), cs'.
    replace (H0 ++ farr :: ext) with ((H0 ++ [farr]) ++ ext)
      by (rewrite <- app_assoc; reflexivity).
    rewrite Hrun. repeat split.
    + exact Hpl.
    + rewrite bytes_app by assumption. exact Hftb.
    + destruct pl as [|pa ? ? ?]; [exact I|]. cbn [is_new] in *.
      rewrite length_app in Hnew. lia.
    + exact Hfnew.
Qed.

(** ** [Encrypt] then [Decrypt] *)

Lemma body_spec_length seed m k f :
  length seed = 24 ->
  length (body_spec seed m k f) = 24 + (length m + Overhead).
Proof.
  intros Hs. unfold body_spec, nonce_spec.
  rewrite length_app, blake2b_sum_length, aead_seal_length by lia.
  reflexivity.
Qed.

Lemma body_spec_open seed m k f :
  length seed = 24 -> length k = KeySize ->
  let body := body_spec seed m k f in
  aead_open k (take 24 body) (drop 24 body)
            (pae_bytes [v2local_bytes; take 24 body; f]) = Some m.
Proof.
  intros Hs Hk body. subst body. unfold body_spec.
  assert (length (nonce_spec seed m) = 24) as Hn
    by (unfold nonce_spec; apply blake2b_sum_length; lia).
  rewrite take_app_length', drop_app_length' by (symmetry; exact Hn).
  rewrite pae_bytes_spec. apply aead_open_seal; assumption.
Qed.

Lemma Decrypt_body_short H1 cs h m footer k out :
  valid H1 m ->
  base64.Decode_bytes (bytes H1 m) = (out, true) ->
  length out < 24 ->
  Decrypt_body h m footer k {| heap := H1; calls := cs |} = Panic.
Proof.
  intros Hm Hdec Hshort.
  pose proof (base64_facts.Decode_bytes_bound (bytes H1 m)) as Hb.
  rewrite Hdec, (valid_length _ _ Hm) in Hb. cbn [fst] in Hb.
  unfold Decrypt_body.
  rewrite bind_eq, (decodeBase64_run _ _ _ out) by assumption.
  cbv beta iota. cbn [negb]. cbv iota.
  rewrite bind_eq. unfold slice_to, slice_expr. cbn [scap].
  change (0 <=? 24) with true. cbn [andb].
  destruct (24 <=? base64.DecodedLen (slen m)); [|reflexivity].
  rewrite ret_eq. cbv beta iota.
  rewrite bind_eq. unfold slice_from, slice_expr. cbn [slen].
  destruct (Nat.leb_spec 24 (length out)) as [Hge|_]; [lia|].
  reflexivity.
Qed.

End decrypt_facts.

(** ** Case analysis on a run *)

(** Follows a run that is known to complete, one statement at a time: the
    collaborator calls and the slice expressions stay opaque, each is split
    into the case where it completes and the case where it panics. *)
Ltac run_cases Hd :=
  repeat (cbv beta iota in Hd;
          match type of Hd with
          | (_ ≫= _) _ = _ => rewrite bind_eq in Hd
          | match ?e with Ok _ _ => _ | Panic => _ end = _ =>
              destruct e as [? ?|] eqn:?; [|discriminate Hd]
          | (if ?b then _ else _) _ = _ => destruct b eqn:?
          | (match ?x with inl _ => _ | inr _ => _ end) _ = _ => destruct x
          | (match ?x with (_, _) => _ end) _ = _ => destruct x
          | (match ?x with Some _ => _ | None => _ end) _ = _ => destruct x
          end).

Lemma has_prefix_inv s p :
  has_prefix s p = true -> exists rest, s = p ++ rest.
Proof.
  unfold has_prefix. intros Hp. apply andb_prop in Hp as [_ Hp].
  apply bool_decide_eq_true in Hp. exists (drop (length p) s).
  rewrite <- Hp at 1. symmetry. apply take_drop.
Qed.

(** ** What a run leaves untouched *)

Lemma frames_ret {A} h0 (a : A) (Q : A -> Prop) :
  Q a -> frames h0 (mret a) Q.
Proof. intros Ha st Hst. rewrite ret_eq. split; assumption. Qed.

Lemma frames_panic {A} h0 (Q : A -> Prop) : frames h0 panic Q.
Proof. intros st Hst. exact I. Qed.

Lemma frames_bind {A B} h0 (c : M A) (f : A -> M B) P Q :
  frames h0 c P -> (forall a, P a -> frames h0 (f a) Q) ->
  frames h0 (c ≫= f) Q.
Proof.
  intros Hc Hf st Hst. rewrite bind_eq. specialize (Hc st Hst).
  destruct (c st) as [a st'|]; [|exact I].
  destruct Hc as [Hst' Ha]. apply (Hf a Ha st' Hst').
Qed.

Lemma frames_weaken {A} h0 (c : M A) (P Q : A -> Prop) :
  frames h0 c P -> (forall a, P a -> Q a) -> frames h0 c Q.
Proof.
  intros Hc HPQ st Hst. specialize (Hc st Hst).
  destruct (c st); [|exact I]. destruct Hc. split; auto.
Qed.

Lemma frames_load h0 s : frames h0 (load s) (fun _ => True).
Proof. intros st Hst. unfold load. split; [assumption | exact I]. Qed.

Lemma frames_note h0 c : frames h0 (note c) (fun _ => True).
Proof.
  intros st [ext Hst]. unfold note. split; [|exact I].
  exists ext. exact Hst.
Qed.

Lemma frames_make h0 len cap : frames h0 (make len cap) (is_new h0).
Proof.
  intros st [ext Hst]. unfold make. destruct (len <=? cap); [|exact I].
  split.
  - exists (ext ++ [replicate cap x00]). cbn [heap].
    rewrite Hst, app_assoc. reflexivity.
  - cbn [is_new]. rewrite Hst, length_app. lia.
Qed.

Lemma frames_slice_expr h0 s lo hi :
  is_new h0 s -> frames h0 (slice_expr s lo hi) (is_new h0).
Proof.
  intros Hs st Hst. unfold slice_expr.
  destruct ((lo <=? hi) && (hi <=? scap s)); [|exact I].
  rewrite ret_eq. split; [assumption|]. destruct s; assumption.
Qed.

Lemma frames_slice_expr_any h0 s lo hi :
  frames h0 (slice_expr s lo hi) (fun _ => True).
Proof.
  intros st Hst. unfold slice_expr.
  destruct ((lo <=? hi) && (hi <=? scap s)); [|exact I].
  rewrite ret_eq. split; [assumption | exact I].
Qed.

Lemma frames_slice_to_any h0 s hi :
  frames h0 (slice_to s hi) (fun _ => True).
Proof. apply frames_slice_expr_any. Qed.

Lemma frames_slice_from_any h0 s lo :
  frames h0 (slice_from s lo) (fun _ => True).
Proof. apply frames_slice_expr_any. Qed.

Lemma frames_slice_to h0 s hi :
  is_new h0 s -> frames h0 (slice_to s hi) (is_new h0).
Proof. apply frames_slice_expr. Qed.

Lemma frames_slice_from h0 s lo :
  is_new h0 s -> frames h0 (slice_from s lo) (is_new h0).
Proof. apply frames_slice_expr. Qed.

Lemma frames_store_at h0 s i bs :
  is_new h0 s -> frames h0 (store_at s i bs) (fun _ => True).
Proof.
  intros Hs st [ext Hst]. unfold store_at.
  destruct s as [|a off len cap].
  - destruct (length bs =? 0); [|exact I]. split; [|exact I].
    exists ext. exact Hst.
  - destruct (i + length bs <=? len); [|exact I].
    destruct (heap st !! a) as [arr|]; [|exact I].
    split; [|exact I]. cbn [is_new] in Hs. cbn [heap].
    exists (<[a - length h0 := write_at (off + i) bs arr]> ext).
    rewrite Hst. apply insert_app_r_alt. exact Hs.
Qed.

Create HintDb frames.

#[local] Hint Resolve frames_load frames_note frames_make frames_slice_expr
  frames_slice_to frames_slice_from frames_store_at frames_panic : frames.


(** One statement of a run. *)
Ltac frames_step :=
  cbn [fst snd] in *;
  match goal with
  | |- frames _ (_ ≫= _) _ =>
      eapply frames_bind;
        [ first [ solve [eauto with frames]
                | apply frames_slice_from_any
                | apply frames_slice_to_any
                | apply frames_slice_expr_any ]
        | intros ? ? ]
  | |- frames _ (mret _) _ => apply frames_ret
  | |- frames _ panic _ => apply frames_panic
  | |- frames _ (if ?b then _ else _) _ => destruct b
  | |- frames _ (match ?x with (_, _) => _ end) _ => destruct x
  | |- frames _ (match ?x with inl _ => _ | inr _ => _ end) _ => destruct x
  | |- frames _ (match ?x with Some _ => _ | None => _ end) _ => destruct x
  end.

Ltac frames_run :=
  repeat frames_step; cbn [fst snd] in *; eauto with frames.

Lemma frames_set_index h0 s i b :
  is_new h0 s -> frames h0 (set_index s i b) (fun _ => True).
Proof. apply frames_store_at. Qed.

Lemma frames_copy h0 dst src :
  is_new h0 dst -> frames h0 (copy dst src) (fun _ => True).
Proof. intros Hd. unfold copy. frames_run. Qed.

Lemma frames_append h0 s bs :
  is_new h0 s -> frames h0 (append_bytes s bs) (is_new h0).
Proof. intros Hs. unfold append_bytes. frames_run. Qed.

Lemma frames_PutUint64 h0 b v :
  is_new h0 b -> frames h0 (PutUint64 b v) (fun _ => True).
Proof. intros Hb. unfold PutUint64. frames_run. Qed.

Lemma frames_le64 h0 n b :
  is_new h0 b -> frames h0 (le64 n b) (fun _ => True).
Proof. apply frames_PutUint64. Qed.

Lemma frames_Encode h0 dst src :
  is_new h0 dst -> frames h0 (Encode dst src) (fun _ => True).
Proof. intros Hd. unfold Encode. frames_run. Qed.

Lemma frames_Decode h0 dst src :
  is_new h0 dst -> frames h0 (Decode dst src) (fun _ => True).
Proof.
  intros Hd. unfold Decode. frames_step. frames_step.
  destruct (base64.Decode_bytes a0). frames_run.
Qed.

#[local] Hint Resolve frames_set_index frames_copy frames_append
  frames_PutUint64 frames_le64 frames_Encode frames_Decode : frames.

Lemma frames_pae_fill h0 bb : forall buf off,
  is_new h0 buf -> frames h0 (pae_fill bb buf off) (fun _ => True).
Proof.
  induction bb as [|b bb IH]; intros buf off Hbuf; cbn [pae_fill].
  - frames_run.
  - frames_run.
Qed.

#[local] Hint Resolve frames_pae_fill : frames.

Lemma frames_pae h0 bb : frames h0 (pae bb) (is_new h0).
Proof. unfold pae. frames_run. Qed.

Lemma frames_decodeBase64 h0 src :
  frames h0 (decodeBase64 src) (fun r => is_new h0 (fst r)).
Proof. unfold decodeBase64. frames_run. Qed.

#[local] Hint Resolve frames_pae frames_decodeBase64 : frames.

Section frames_package.
Context `{Crypto}.
Context (randRead : nat -> list byte * option error).

Lemma frames_HasPrefix h0 s prefix :
  frames h0 (HasPrefix s prefix) (fun _ => True).
Proof. unfold HasPrefix. frames_run. Qed.

Lemma frames_IndexByte h0 b c : frames h0 (IndexByte b c) (fun _ => True).
Proof. unfold IndexByte. frames_run. Qed.

Lemma frames_NewX h0 key : frames h0 (NewX key) (fun _ => True).
Proof. unfold NewX. frames_run. Qed.

Lemma frames_call_randRead h0 buf :
  is_new h0 buf -> frames h0 (call_randRead randRead buf) (fun _ => True).
Proof.
  intros Hb. unfold call_randRead. frames_step.
  destruct (randRead (slen buf)). frames_run.
Qed.

Lemma frames_blake2b_New h0 size key :
  frames h0 (blake2b_New size key) (fun _ => True).
Proof. unfold blake2b_New. frames_run. Qed.

Lemma frames_hash_Write h0 d p : frames h0 (hash_Write d p) (fun _ => True).
Proof. unfold hash_Write. frames_run. Qed.

Lemma frames_hash_Sum h0 d b :
  is_new h0 b -> frames h0 (hash_Sum d b) (is_new h0).
Proof. intros Hb. unfold hash_Sum. frames_run. Qed.

Lemma frames_Seal h0 a dst nonce plaintext ad :
  is_new h0 dst -> frames h0 (Seal a dst nonce plaintext ad) (is_new h0).
Proof. intros Hd. unfold Seal. frames_run. Qed.

Lemma frames_Open h0 a dst nonce ciphertext ad :
  is_new h0 dst ->
  frames h0 (Open a dst nonce ciphertext ad) (fun r => is_new h0 (fst r)).
Proof. intros Hd. unfold Open. frames_run. Qed.

#[local] Hint Resolve frames_HasPrefix frames_IndexByte frames_NewX
  frames_call_randRead frames_blake2b_New frames_hash_Write frames_hash_Sum
  frames_Seal frames_Open : frames.

Lemma frames_Encrypt h0 m k f :
  frames h0 (Encrypt randRead m k f) (fun r => is_new h0 (fst r)).
Proof. unfold Encrypt. frames_run; try exact I. Qed.

Lemma frames_Decrypt_body h0 h m footer k :
  is_new h0 footer ->
  frames h0 (Decrypt_body h m footer k)
         (fun r => is_new h0 (fst (fst r)) /\ is_new h0 (snd (fst r))).
Proof.
  intros Hf. unfold Decrypt_body. frames_run; try (split; auto; exact I).
Qed.

Lemma frames_Decrypt h0 token key :
  frames h0 (Decrypt token key)
         (fun r => is_new h0 (fst (fst r)) /\ is_new h0 (snd (fst r))).
Proof.
  unfold Decrypt. frames_run;
    try first [ split; exact I | apply frames_Decrypt_body; auto; exact I ].
Qed.

End frames_package.

(** ** The instance of the collaborators *)

Lemma toy_seal_length k n p ad :
  length (toy_seal k n p ad) = (length p + Overhead)%nat.
Proof.
  unfold toy_seal, toy_tag. rewrite length_app, length_replicate. reflexivity.
Qed.

Lemma toy_open_seal k n p ad :
  length k = KeySize -> length n = NonceSizeX ->
  toy_open k n (toy_seal k n p ad) ad = Some p.
Proof.
  intros _ _. unfold toy_open. rewrite toy_seal_length.
  destruct (Nat.ltb_spec (length p + Overhead) Overhead) as [Hlt|_]; [lia|].
  replace (length p + Overhead - Overhead)%nat with (length p) by lia.
  unfold toy_seal. rewrite take_app_length, drop_app_length.
  rewrite bool_decide_true by reflexivity. reflexivity.
Qed.

Lemma toy_sum_length size k d :
  (1 <= size <= 64)%nat -> (length k <= 64)%nat ->
  length (toy_sum size k d) = size.
Proof.
  intros _ _. unfold toy_sum.
  rewrite length_take, !length_app, length_replicate. lia.
Qed.

#[local] Instance toy_crypto : Crypto :=
  {| aead_seal := toy_seal; aead_open := toy_open; blake2b_sum := toy_sum;
     aead_seal_length := toy_seal_length; aead_open_seal := toy_open_seal;
     blake2b_sum_length := toy_sum_length |}.

(** * The claims *)

(** C1: for every key of 32 bytes, every message and every footer, when the
    random source reports no error, [Encrypt] returns a token with a nil
    error, and [Decrypt] of that token with the same key returns [ok = true]
    with a payload that holds the bytes of the message and a footer that
    holds the bytes of the footer given to [Encrypt]. *)
Theorem Decrypt_Encrypt `{Crypto} (randRead : nat -> list byte * option error)
    (st : state) (m k f : slice) (seed : list byte) :
  globals_ok (heap st) ->
  valid (heap st) m -> valid (heap st) k -> valid (heap st) f ->
  length (bytes (heap st) k) = 32 ->
  randRead 24 = (seed, None) ->
  exists tok st1 payload footer st2,
    Encrypt randRead m k f st = Ok (tok, None) st1
    /\ Decrypt tok k st1 = Ok (payload, footer, true) st2
    /\ bytes (heap st2) payload = bytes (heap st) m
    /\ bytes (heap st2) footer = bytes (heap st) f.
Proof.
  intros Hg Hm Hk Hf Hklen Hrand. destruct st as [H0 cs]. cbn [heap] in *.
  pose proof (Encrypt_run randRead H0 cs m k f seed Hg Hm Hk Hf Hklen Hrand)
    as Henc. cbv zeta in Henc.
  set (body := body_spec (seed_of seed) (bytes H0 m) (bytes H0 k)
                         (bytes H0 f)) in *.
  set (tokb := token_spec (seed_of seed) (bytes H0 m) (bytes H0 k)
                          (bytes H0 f)) in *.
  set (ext := [body; pae_spec [v2local_bytes;
                               nonce_spec (seed_of seed) (bytes H0 m);
                               bytes H0 f]; tokb]) in *.
  set (tok := Slice (length H0 + 2) 0 (length tokb) (length tokb)) in *.
  assert (bytes (H0 ++ ext) k = bytes H0 k) as Hkb by (apply bytes_app, Hk).
  destruct (Decrypt_run (H0 ++ ext) (Encrypt_calls f ++ cs) tok k body
                        (bytes H0 f) (bytes H0 m))
    as (pl & ft & ext2 & cs2 & Hdec & Hpl & Hft & _).
  - apply globals_ok_app, Hg.
  - subst tok ext. cbn [valid]. rewrite lookup_new. cbn [lookup list_lookup].
    lia.
  - apply valid_app, Hk.
  - rewrite Hkb. exact Hklen.
  - subst tok ext. rewrite bytes_new. cbn [lookup list_lookup].
    rewrite drop_0, firstn_all. reflexivity.
  - subst body. rewrite body_spec_length by apply seed_of_length. lia.
  - rewrite Hkb. apply body_spec_open; [apply seed_of_length | exact Hklen].
  - exists tok, {| heap := H0 ++ ext; calls := Encrypt_calls f ++ cs |},
           pl, ft, {| heap := (H0 ++ ext) ++ ext2; calls := cs2 |}.
    cbn [heap]. repeat split; assumption.
Qed.

(** C2, what the code does: for every token that is the header followed by
    a body which decodes, without error, to fewer than 24 bytes, alone or
    followed by a ["."] and a footer segment that decodes without error,
    [Decrypt] panics in the slice expressions [raw[:24]] and [raw[24:]];
    it does not return [ok = false].  The header alone is such a token. *)
Theorem Decrypt_short_body_panics `{Crypto} (st : state) (token key : slice)
    (e rest out : list byte) :
  globals_ok (heap st) -> valid (heap st) token ->
  bytes (heap st) token = v2local_bytes ++ e ++ rest ->
  Forall (fun c => c <> "."%byte) e ->
  (rest = [] \/
   exists fe fo, rest = "."%byte :: fe
                 /\ base64.Decode_bytes fe = (fo, true)) ->
  base64.Decode_bytes e = (out, true) ->
  length out < 24 ->
  Decrypt token key st = Panic.
Proof.
  intros Hg Htok Htb Hnd Hrest Hdec Hshort. destruct st as [H0 cs].
  cbn [heap] in *. destruct Hrest as [-> | (fe & fo & -> & Hfe)].
  - rewrite app_nil_r in Htb.
    destruct (Decrypt_no_footer H0 cs token key e Hg Htok Htb Hnd)
      as (m & -> & Hm & Hmb).
    apply (Decrypt_body_short H0 cs v2local m nil_slice key out);
      [ exact Hm | rewrite Hmb; exact Hdec | exact Hshort ].
  - destruct (Decrypt_with_footer H0 cs token key e fe fo Hg Htok Htb Hnd Hfe)
      as (m & footer & farr & -> & Hm & Hmb & _).
    apply (Decrypt_body_short _ _ v2local m footer key out);
      [ exact Hm | rewrite Hmb; exact Hdec | exact Hshort ].
Qed.

(** C3: for every token that does not begin with the nine bytes
    ["v2.local."], [Decrypt] returns a nil payload, a nil footer and
    [ok = false], and it returns in the state it was called in: nothing has
    been allocated and no collaborator (base64, hash, AEAD) has been
    called. *)
Theorem Decrypt_rejects_header `{Crypto} (st : state) (token key : slice) :
  globals_ok (heap st) ->
  (forall rest, bytes (heap st) token <> v2local_bytes ++ rest) ->
  Decrypt token key st = Ok (nil_slice, nil_slice, false) st.
Proof.
  intros Hg Hno. destruct st as [H0 cs]. cbn [heap] in *.
  unfold Decrypt. rewrite bind_eq. unfold HasPrefix.
  rewrite bind_eq, load_run. cbv beta iota.
  rewrite bind_eq, load_run. cbv beta iota.
  rewrite ret_eq, bytes_v2local by assumption. cbv beta iota.
  destruct (has_prefix (bytes H0 token) v2local_bytes) eqn:Hp.
  - apply has_prefix_inv in Hp as [rest Hrest].
    exfalso. exact (Hno rest Hrest).
  - reflexivity.
Qed.

(** C4: on valid inputs [Encrypt] always returns; with a key of 32 bytes
    and a random source that reports no error it returns a token and a nil
    error; when it returns an error the token is nil, and the error is the
    one of the key construction, for a key whose length is not 32, or the
    one the random source reported; and [blake2b.New] with size 24 and a
    key of 24 bytes returns no error. *)
Theorem Encrypt_errors `{Crypto} (randRead : nat -> list byte * option error)
    (st : state) (m k f : slice) :
  globals_ok (heap st) ->
  valid (heap st) m -> valid (heap st) k -> valid (heap st) f ->
  (exists r st', Encrypt randRead m k f st = Ok r st')
  /\ (length (bytes (heap st) k) = 32 -> snd (randRead 24) = None ->
      exists tok st',
        Encrypt randRead m k f st = Ok (tok, None) st' /\ tok <> nil_slice)
  /\ (forall tok e st',
        Encrypt randRead m k f st = Ok (tok, Some e) st' ->
        tok = nil_slice
        /\ ((length (bytes (heap st) k) <> 32 /\ e = errBadKeyLength)
            \/ (length (bytes (heap st) k) = 32
                /\ snd (randRead 24) = Some e)))
  /\ (forall buf st0,
        length (bytes (heap st0) buf) = 24 ->
        exists d st1, blake2b_New 24 buf st0 = Ok (inl d) st1).
Proof.
  intros Hg Hm Hk Hf. destruct st as [H0 cs]. cbn [heap] in *.
  assert (forall bs,
            length (bytes H0 k) = KeySize -> randRead 24 = (bs, None) ->
            exists tok st',
              Encrypt randRead m k f {| heap := H0; calls := cs |}
              = Ok (tok, None) st' /\ tok <> nil_slice) as Hgood.
  { intros bs Hklen Hrand.
    rewrite (Encrypt_run randRead H0 cs m k f bs) by assumption.
    cbv zeta. eexists _, _. split; [reflexivity | discriminate]. }
  split; [|split; [|split]].
  - destruct (Nat.eq_dec (length (bytes H0 k)) KeySize) as [Hklen|Hklen].
    + destruct (randRead 24) as [bs [e|]] eqn:Hrand.
      * erewrite Encrypt_rand_err by eassumption. eexists _, _. reflexivity.
      * destruct (Hgood bs Hklen eq_refl) as (tok & st' & Hrun & _).
        rewrite Hrun. eexists _, _. reflexivity.
    + rewrite Encrypt_bad_key by assumption. eexists _, _. reflexivity.
  - intros Hklen Hrand. destruct (randRead 24) as [bs err] eqn:Hr.
    cbn [snd] in Hrand. subst err. apply (Hgood bs Hklen eq_refl).
  - intros tok e st' Henc.
    destruct (Nat.eq_dec (length (bytes H0 k)) KeySize) as [Hklen|Hklen].
    + destruct (randRead 24) as [bs [e'|]] eqn:Hrand.
      * erewrite Encrypt_rand_err in Henc by eassumption.
        injection Henc as <- <- _. split; [reflexivity|]. right.
        split; [exact Hklen | reflexivity].
      * destruct (Hgood bs Hklen eq_refl) as (tok' & st'' & Hrun & _).
        rewrite Hrun in Henc. discriminate Henc.
    + rewrite Encrypt_bad_key in Henc by assumption.
      injection Henc as <- <- _. split; [reflexivity|]. left.
      split; [exact Hklen | reflexivity].
  - intros buf [H1 cs1] Hlen. cbn [heap] in Hlen. unfold blake2b_New.
    rewrite bind_eq, note_run. cbv beta iota.
    rewrite bind_eq, load_run. cbv beta iota. rewrite Hlen.
    eexists _, _. reflexivity.
Qed.

(** C5 as amended: when the random source reports an error, whether or not
    the read is also short, [Encrypt] returns a nil token and an error, and
    neither the hash nor the cipher has been called: with a key of 32 bytes
    the error is the one of the random source, and with any other key
    [Encrypt] has failed before it reads the random source. *)
Theorem Encrypt_random_error `{Crypto}
    (randRead : nat -> list byte * option error)
    (st : state) (m k f : slice) (bs : list byte) (e : error) :
  randRead 24 = (bs, Some e) ->
  (length (bytes (heap st) k) = 32 ->
   Encrypt randRead m k f st
   = Ok (nil_slice, Some e)
        {| heap := heap st
                   ++ [seed_of bs ++ replicate (slen m + Overhead) x00];
           calls := CallRandRead :: CallNewX :: calls st |})
  /\ (length (bytes (heap st) k) <> 32 ->
      Encrypt randRead m k f st
      = Ok (nil_slice, Some errBadKeyLength)
           {| heap := heap st; calls := CallNewX :: calls st |}).
Proof.
  intros Hrand. destruct st as [H0 cs]. cbn [heap calls]. split.
  - intros Hklen. apply (Encrypt_rand_err randRead H0 cs m k f bs e);
      assumption.
  - intros Hklen. apply Encrypt_bad_key. exact Hklen.
Qed.

(** C6: for every sequence of byte strings given as valid slices, [pae]
    returns without a panic a new buffer that holds exactly the eight-byte
    little-endian count with the top bit cleared, then for each element in
    order its eight-byte little-endian length with the top bit cleared and
    its bytes, with nothing in between; the call only adds that buffer to
    the store and makes no call to a collaborator. *)
Theorem pae_format (st : state) (bb : list slice) :
  Forall (valid (heap st)) bb ->
  exists buf,
    pae bb st
    = Ok buf {| heap := heap st ++ [pae_spec (map (bytes (heap st)) bb)];
                calls := calls st |}
    /\ run_pae st bb = Some (pae_spec (map (bytes (heap st)) bb)).
Proof.
  intros Hv. destruct st as [H cs]. cbn [heap calls] in *.
  eexists. split.
  - rewrite pae_run, pae_bytes_spec by assumption. reflexivity.
  - rewrite run_pae_eq, pae_bytes_spec by assumption. reflexivity.
Qed.

(** C7: two sequences of byte strings whose count and lengths fit a Go
    [int] and which [pae] encodes to the same buffer are the same sequence;
    and for byte strings [a] and [b] that are not empty, the buffers of
    [pae(a, b)], of [pae(ab)] for the concatenation [ab], and of
    [pae(a, e, b)] for an empty [e] differ pairwise. *)
Theorem pae_no_collision (st : state) (bb1 bb2 : list slice)
    (a b ab e : slice) :
  Forall (valid (heap st)) bb1 -> Forall (valid (heap st)) bb2 ->
  ints_ok bb1 -> ints_ok bb2 ->
  valid (heap st) a -> valid (heap st) b ->
  valid (heap st) ab -> valid (heap st) e ->
  bytes (heap st) a <> [] -> bytes (heap st) b <> [] ->
  bytes (heap st) ab = bytes (heap st) a ++ bytes (heap st) b ->
  bytes (heap st) e = [] ->
  (run_pae st bb1 = run_pae st bb2 ->
   map (bytes (heap st)) bb1 = map (bytes (heap st)) bb2)
  /\ run_pae st [a; b] <> run_pae st [ab]
  /\ run_pae st [ab] <> run_pae st [a; e; b]
  /\ run_pae st [a; b] <> run_pae st [a; e; b].
Proof.
  intros Hv1 Hv2 [Hn1 Hl1] [Hn2 Hl2] Ha Hb Hab He _ _ _ _. split.
  - intros E. rewrite !run_pae_eq in E by assumption.
    apply Some_eq_inv in E.
    apply pae_bytes_inj in E;
      [ exact E | rewrite length_map; assumption .. | | ];
      apply lengths_ok; assumption.
  - rewrite !run_pae_eq by (repeat constructor; assumption).
    repeat split; intros E; apply Some_eq_inv in E; revert E;
      apply pae_bytes_count; simpl; lia.
Qed.

(** C8: for every call of [Encrypt] that succeeds, the token is the header,
    the unpadded base64url of nonce and sealed text, and, when the footer
    is not empty, a ["."] and the unpadded base64url of the footer; the
    body holds no ["."], and the segment after the ["."] decodes to the
    bytes of the footer as they were given.  When the footer is empty the
    token ends with the body, and a nil footer gives the same token from
    the same state and random source. *)
Theorem Encrypt_token_format `{Crypto}
    (randRead : nat -> list byte * option error)
    (st st' : state) (m k f tok : slice) :
  globals_ok (heap st) ->
  valid (heap st) m -> valid (heap st) k -> valid (heap st) f ->
  Encrypt randRead m k f st = Ok (tok, None) st' ->
  let seed := seed_of (fst (randRead 24)) in
  let fb := bytes (heap st) f in
  let body :=
    base64.Encode_bytes
      (body_spec seed (bytes (heap st) m) (bytes (heap st) k) fb) in
  bytes (heap st') tok
  = token_spec seed (bytes (heap st) m) (bytes (heap st) k) fb
  /\ Forall (fun c => c <> "."%byte) body
  /\ (fb <> [] ->
      bytes (heap st') tok
      = v2local_bytes ++ body ++ "."%byte :: base64.Encode_bytes fb
      /\ base64.Decode_bytes
           (drop (length v2local_bytes + length body + 1)
                 (bytes (heap st') tok))
         = (fb, true))
  /\ (fb = [] ->
      bytes (heap st') tok = v2local_bytes ++ body
      /\ Encrypt randRead m k nil_slice st = Ok (tok, None) st').
Proof.
  intros Hg Hm Hk Hf Henc seed fb body.
  destruct st as [H0 cs]. cbn [heap] in *.
  destruct (Nat.eq_dec (length (bytes H0 k)) KeySize) as [Hklen|Hklen];
    [ | rewrite Encrypt_bad_key in Henc by assumption; discriminate Henc ].
  destruct (randRead 24) as [bs [e|]] eqn:Hrand;
    [ erewrite Encrypt_rand_err in Henc by eassumption; discriminate Henc | ].
  pose proof (Encrypt_run randRead H0 cs m k f bs Hg Hm Hk Hf Hklen Hrand)
    as Hrun. cbv zeta in Hrun.
  cbn [fst] in seed. fold seed fb in Hrun.
  remember (token_spec seed (bytes H0 m) (bytes H0 k) fb) as tokb eqn:Htokb.
  rewrite Hrun in Henc. injection Henc as <- <-.
  cbn [heap]. rewrite bytes_new. cbn [lookup list_lookup].
  rewrite drop_0, firstn_all. subst tokb.
  split; [reflexivity|].
  split; [apply base64_facts.Encode_bytes_no_dot|].
  unfold token_spec. fold body. split.
  - intros Hne. destruct fb as [|b0 fb'] eqn:Efb; [congruence|].
    split; [reflexivity|].
    replace (v2local_bytes ++ body ++ "."%byte :: base64.Encode_bytes (b0 :: fb'))
      with ((v2local_bytes ++ body ++ ["."%byte])
              ++ base64.Encode_bytes (b0 :: fb'))
      by (rewrite <- !app_assoc; reflexivity).
    rewrite drop_app_length'
      by (rewrite !length_app; cbn [length]; lia).
    apply base64_facts.Decode_Encode.
  - intros Hfb. split; [rewrite Hfb, app_nil_r; reflexivity|].
    rewrite (Encrypt_run randRead H0 cs m k nil_slice bs)
      by (assumption || exact I).
    cbv zeta. cbn [bytes]. fold seed.
    unfold Encrypt_calls, token_spec. cbn [slen].
    rewrite <- (valid_length _ _ Hf). fold fb. subst body.
    rewrite Hfb. reflexivity.
Qed.

(** C9: whenever [Decrypt] returns [ok = false], whatever the cause, the
    payload and the footer it returns are both nil. *)
Theorem Decrypt_failure_nil `{Crypto} (st st' : state) (token key : slice)
    (payload footer : slice) :
  Decrypt token key st = Ok (payload, footer, false) st' ->
  payload = nil_slice /\ footer = nil_slice.
Proof.
  intros Hd. unfold Decrypt, Decrypt_body in Hd.
  run_cases Hd; rewrite ret_eq in Hd; injection Hd as <- <- ?;
    first [ split; reflexivity | discriminate ].
Qed.

(** C10: a call of [Encrypt] or of [Decrypt] that returns, with success or
    with failure, leaves every array of the store it was called in as it
    was, so that the message, the key, the footer and the token hold the
    bytes they held before; the arrays it has written are new ones, and
    the token, the payload and the footer it returns are nil or slices of
    new arrays. *)
Theorem inputs_not_mutated `{Crypto}
    (randRead : nat -> list byte * option error) (st : state) :
  (forall m k f tok err st',
     Encrypt randRead m k f st = Ok (tok, err) st' ->
     (exists ext, heap st' = heap st ++ ext)
     /\ is_new (heap st) tok
     /\ (forall s, valid (heap st) s ->
                   bytes (heap st') s = bytes (heap st) s))
  /\ (forall token key payload footer ok st',
        Decrypt token key st = Ok (payload, footer, ok) st' ->
        (exists ext, heap st' = heap st ++ ext)
        /\ is_new (heap st) payload /\ is_new (heap st) footer
        /\ (forall s, valid (heap st) s ->
                      bytes (heap st') s = bytes (heap st) s)).
Proof.
  assert (extends (heap st) st) as Hst by (exists []; symmetry; apply app_nil_r).
  split.
  - intros m k f tok err st' Hrun.
    pose proof (frames_Encrypt randRead (heap st) m k f st Hst) as Hf.
    rewrite Hrun in Hf. destruct Hf as [[ext Hext] Hnew].
    split; [exists ext; exact Hext|]. split; [exact Hnew|].
    intros s Hs. rewrite Hext. apply bytes_app, Hs.
  - intros token key payload footer ok st' Hrun.
    pose proof (frames_Decrypt (heap st) token key st Hst) as Hf.
    rewrite Hrun in Hf. destruct Hf as [[ext Hext] [Hnp Hnf]].
    split; [exists ext; exact Hext|]. split; [exact Hnp|].
    split; [exact Hnf|].
    intros s Hs. rewrite Hext. apply bytes_app, Hs.
Qed.

(** * The theorems at concrete inputs *)

Lemma Decrypt_Encrypt_witness :
  exists tok st1 payload footer st2,
    Encrypt dash_reader demo_message demo_key demo_footer demo_state
    = Ok (tok, None) st1
    /\ Decrypt tok demo_key st1 = Ok (payload, footer, true) st2
    /\ bytes (heap st2) payload = bytes (heap demo_state) demo_message
    /\ bytes (heap st2) footer = bytes (heap demo_state) demo_footer.
Proof.
  apply (Decrypt_Encrypt dash_reader demo_state demo_message demo_key
           demo_footer (replicate 24 "-"%byte));
    try reflexivity; simpl; lia.
Defined.

Lemma Decrypt_short_body_panics_witness :
  Decrypt demo_header_only demo_key demo_state = Panic.
Proof.
  apply (Decrypt_short_body_panics demo_state demo_header_only demo_key
           [] [] []);
    try reflexivity.
  - simpl; lia.
  - constructor.
  - left. reflexivity.
  - simpl; lia.
Defined.

Lemma Decrypt_rejects_header_witness :
  Decrypt demo_footer demo_key demo_state
  = Ok (nil_slice, nil_slice, false) demo_state.
Proof.
  apply (Decrypt_rejects_header demo_state demo_footer demo_key).
  - reflexivity.
  - intros rest E. vm_compute in E. discriminate E.
Defined.

Lemma Encrypt_errors_witness :
  (exists tok st',
     Encrypt dash_reader demo_message demo_key demo_footer demo_state
     = Ok (tok, None) st' /\ tok <> nil_slice)
  /\ (exists st',
        Encrypt dash_reader demo_message demo_footer demo_footer demo_state
        = Ok (nil_slice, Some errBadKeyLength) st').
Proof.
  split.
  - refine (proj1 (proj2
              (Encrypt_errors dash_reader demo_state demo_message demo_key
                 demo_footer _ _ _ _)) _ _);
      try reflexivity; simpl; lia.
  - eexists. vm_compute. reflexivity.
Defined.

(** C5 as the specification states it fails: the random source
    [short_reader], a buffer of five bytes, stores five bytes and reports no
    error, and [Encrypt] does not return an error. *)
Lemma short_read_not_rejected :
  ~ (length (fst (short_reader 24)) < 24 ->
     exists e st',
       Encrypt short_reader demo_message demo_key demo_footer demo_state
       = Ok (nil_slice, Some e) st').
Proof.
  intros Hclaim. destruct Hclaim as (e & st' & He).
  - vm_compute. lia.
  - vm_compute in He. discriminate He.
Qed.

Lemma Encrypt_random_error_witness :
  Encrypt failing_reader demo_message demo_key demo_footer demo_state
  = Ok (nil_slice, Some EOF)
       {| heap := heap demo_state
                  ++ [seed_of []
                      ++ replicate (slen demo_message + Overhead) x00];
          calls := CallRandRead :: CallNewX :: calls demo_state |}.
Proof.
  refine (proj1 (Encrypt_random_error failing_reader demo_state demo_message
                   demo_key demo_footer [] EOF _) _);
    reflexivity.
Defined.

Lemma pae_format_witness :
  exists buf,
    pae [v2local; demo_message; nil_slice; demo_footer] demo_state
    = Ok buf
         {| heap := heap demo_state
                    ++ [pae_spec (map (bytes (heap demo_state))
                          [v2local; demo_message; nil_slice; demo_footer])];
            calls := calls demo_state |}
    /\ run_pae demo_state [v2local; demo_message; nil_slice; demo_footer]
       = Some (pae_spec (map (bytes (heap demo_state))
                          [v2local; demo_message; nil_slice; demo_footer])).
Proof.
  apply (pae_format demo_state).
  repeat constructor; simpl; lia.
Defined.

Lemma pae_no_collision_witness :
  (run_pae demo_state [Slice 2 0 4 32; demo_footer]
   = run_pae demo_state [Slice 2 4 4 28; demo_footer] ->
   map (bytes (heap demo_state)) [Slice 2 0 4 32; demo_footer]
   = map (bytes (heap demo_state)) [Slice 2 4 4 28; demo_footer])
  /\ run_pae demo_state [demo_message; demo_footer]
     <> run_pae demo_state [demo_concat]
  /\ run_pae demo_state [demo_concat]
     <> run_pae demo_state [demo_message; demo_empty; demo_footer]
  /\ run_pae demo_state [demo_message; demo_footer]
     <> run_pae demo_state [demo_message; demo_empty; demo_footer].
Proof.
  apply (pae_no_collision demo_state [Slice 2 0 4 32; demo_footer]
           [Slice 2 4 4 28; demo_footer]
           demo_message demo_footer demo_concat demo_empty);
    try (repeat constructor; unfold int_ok; simpl; lia);
    try discriminate; reflexivity.
Defined.

Lemma Encrypt_token_format_witness :
  exists tok st',
    Encrypt dash_reader demo_message demo_key demo_footer demo_state
    = Ok (tok, None) st'
    /\ bytes (heap st') tok
       = token_spec (seed_of (fst (dash_reader 24)))
                    (bytes (heap demo_state) demo_message)
                    (bytes (heap demo_state) demo_key)
                    (bytes (heap demo_state) demo_footer).
Proof.
  assert (exists tok st',
            Encrypt dash_reader demo_message demo_key demo_footer demo_state
            = Ok (tok, None) st') as (tok & st' & Hrun)
    by (vm_compute; eexists _, _; reflexivity).
  exists tok, st'. split; [exact Hrun|].
  assert (globals_ok (heap demo_state)) as Hg by reflexivity.
  assert (valid (heap demo_state) demo_message) as Hm by (simpl; lia).
  assert (valid (heap demo_state) demo_key) as Hk by (simpl; lia).
  assert (valid (heap demo_state) demo_footer) as Hf by (simpl; lia).
  exact (proj1 (Encrypt_token_format dash_reader demo_state st'
                  demo_message demo_key demo_footer tok Hg Hm Hk Hf Hrun)).
Defined.

Lemma Decrypt_failure_nil_witness :
  exists st',
    Decrypt demo_altered demo_key demo_state
    = Ok (nil_slice, nil_slice, false) st'
    /\ nil_slice = nil_slice /\ nil_slice = nil_slice.
Proof.
  eexists. split; [vm_compute; reflexivity|].
  eapply (Decrypt_failure_nil demo_state _ demo_altered demo_key).
  vm_compute. reflexivity.
Defined.

Lemma inputs_not_mutated_witness :
  exists tok st1 st2,
    Encrypt dash_reader demo_message demo_key demo_footer demo_state
    = Ok (tok, None) st1
    /\ Decrypt demo_altered demo_key demo_state
       = Ok (nil_slice, nil_slice, false) st2
    /\ is_new (heap demo_state) tok
    /\ bytes (heap st1) demo_message
       = bytes (heap demo_state) demo_message
    /\ bytes (heap st2) demo_altered
       = bytes (heap demo_state) demo_altered.
Proof.
  eexists _, _, _. split; [vm_compute; reflexivity|].
  split; [vm_compute; reflexivity|].
  destruct (inputs_not_mutated dash_reader demo_state) as [He Hd].
  split; [|split].
  - refine (proj1 (proj2 (He demo_message demo_key demo_footer _ None _ _))).
    vm_compute. reflexivity.
  - refine (proj2 (proj2 (He demo_message demo_key demo_footer _ None _ _))
              demo_message _).
    + vm_compute. reflexivity.
    + simpl; lia.
  - refine (proj2 (proj2 (proj2
              (Hd demo_altered demo_key nil_slice nil_slice false _ _)))
              demo_altered _).
    + vm_compute. reflexivity.
    + simpl; lia.
Defined.

(** * Further facts about the package *)

(** ** More on the base64 functions *)

Module base64_more.
Import base64.

Lemma is_newline_inv c : is_newline c = true -> c = x0a \/ c = x0d.
Proof.
  unfold is_newline. intros Hc. apply orb_prop in Hc as [Hc|Hc];
    apply Byte.byte_dec_bl in Hc; auto.
Qed.

Lemma decode_loop_skip c rest dbuf :
  is_newline c = true -> decode_loop (c :: rest) dbuf = decode_loop rest dbuf.
Proof.
  intros Hc. destruct (is_newline_inv c Hc) as [-> | ->]; reflexivity.
Qed.

(** A line feed or carriage return anywhere in the source changes neither
    the decoded bytes nor the error. *)
Lemma decode_loop_newline l1 c l2 : forall dbuf,
  is_newline c = true ->
  decode_loop (l1 ++ c :: l2) dbuf = decode_loop (l1 ++ l2) dbuf.
Proof.
  induction l1 as [|x l1 IH]; intros dbuf Hc.
  - apply decode_loop_skip, Hc.
  - cbn [app decode_loop].
    destruct (negb (decodeMap x =? 255)%Z).
    + destruct (length (dbuf ++ [decodeMap x]) =? 4)%nat.
      * rewrite IH by exact Hc. reflexivity.
      * apply IH, Hc.
    + destruct (is_newline x); [apply IH, Hc | reflexivity].
Qed.

Lemma Decode_bytes_newline l1 c l2 :
  is_newline c = true ->
  Decode_bytes (l1 ++ c :: l2) = Decode_bytes (l1 ++ l2).
Proof. apply decode_loop_newline. Qed.

(** A source that holds a ["."] is corrupt input. *)
Lemma decode_loop_dot l : forall dbuf,
  In "."%byte l -> snd (decode_loop l dbuf) = false.
Proof.
  induction l as [|x l IH]; intros dbuf Hin; [destruct Hin|].
  destruct (Byte.eqb x "."%byte) eqn:E.
  - apply Byte.byte_dec_bl in E. subst x. reflexivity.
  - destruct Hin as [->|Hin]; [rewrite byte_eqb_refl in E; discriminate E|].
    cbn [decode_loop].
    destruct (negb (decodeMap x =? 255)%Z).
    + destruct (length (dbuf ++ [decodeMap x]) =? 4)%nat.
      * specialize (IH [] Hin).
        destruct (decode_loop l []) as [more ok]. exact IH.
      * apply IH, Hin.
    + destruct (is_newline x); [apply IH, Hin | reflexivity].
Qed.

Lemma Decode_bytes_dot l : In "."%byte l -> snd (Decode_bytes l) = false.
Proof. apply decode_loop_dot. Qed.

(** A source that holds a byte outside the alphabet, other than a line
    feed or a carriage return, is corrupt input: the padding character and
    the two characters of the standard alphabet that the URL alphabet
    replaces are such bytes. *)
Lemma decode_loop_bad c l : forall dbuf,
  In c l -> decodeMap c = 255%Z -> is_newline c = false ->
  snd (decode_loop l dbuf) = false.
Proof.
  induction l as [|x l IH]; intros dbuf Hin Hmap Hnl; [destruct Hin|].
  destruct Hin as [->|Hin].
  - cbn [decode_loop]. rewrite Hmap, Hnl. reflexivity.
  - cbn [decode_loop].
    destruct (negb (decodeMap x =? 255)%Z).
    + destruct (length (dbuf ++ [decodeMap x]) =? 4)%nat.
      * specialize (IH [] Hin Hmap Hnl).
        destruct (decode_loop l []) as [more ok]. exact IH.
      * apply IH; assumption.
    + destruct (is_newline x); [apply IH; assumption | reflexivity].
Qed.

Lemma Decode_bytes_bad c l :
  In c l -> decodeMap c = 255%Z -> is_newline c = false ->
  snd (Decode_bytes l) = false.
Proof. apply decode_loop_bad. Qed.

(** Every byte [Encode] stores is a character of the URL alphabet. *)
Lemma encode_char_alphabet v :
  (0 <= v < 64)%Z -> encode_char v ∈ encodeURL.
Proof.
  intros Hv.
  pose proof (base64_facts.forall_sextets
                (fun v => bool_decide (encode_char v ∈ encodeURL))
                eq_refl v Hv) as Hb.
  apply bool_decide_eq_true_1 in Hb. exact Hb.
Qed.

Lemma Encode_bytes_alphabet src :
  Forall (fun c => c ∈ encodeURL) (Encode_bytes src).
Proof.
  induction src as [| a | a b | a b c l IH] using list_ind3;
    cbn [Encode_bytes];
    repeat (apply List.Forall_cons;
            [apply encode_char_alphabet, base64_facts.land_63_range|]);
    first [apply List.Forall_nil | exact IH].
Qed.

(** The encoding of a source whose length is a multiple of three is
    followed by the encoding of what comes after it. *)
Lemma Encode_bytes_app a : forall b,
  (length a mod 3 = 0)%nat ->
  Encode_bytes (a ++ b) = Encode_bytes a ++ Encode_bytes b.
Proof.
  induction a as [| x | x y | x y z l IH] using list_ind3; intros b Hl.
  - reflexivity.
  - discriminate Hl.
  - discriminate Hl.
  - cbn [length] in Hl.
    replace (S (S (S (length l)))) with (length l + 1 * 3)%nat in Hl by lia.
    rewrite Nat.Div0.mod_add in Hl.
    cbn [app Encode_bytes]. rewrite IH by exact Hl. reflexivity.
Qed.

End base64_more.

(** ** More on parsing a token *)

Lemma index_byte_split l c :
  (index_byte l c = (-1)%Z /\ Forall (fun x => x <> c) l)
  \/ exists a b, l = a ++ c :: b /\ Forall (fun x => x <> c) a
                 /\ index_byte l c = Z.of_nat (length a).
Proof.
  induction l as [|x l IH].
  - left. split; [reflexivity | constructor].
  - destruct (Byte.eqb x c) eqn:E.
    + apply Byte.byte_dec_bl in E. subst x. right.
      exists [], l. repeat split; [constructor|].
      cbn [index_byte]. rewrite byte_eqb_refl. reflexivity.
    + assert (x <> c) as Hx
        by (intros ->; rewrite byte_eqb_refl in E; discriminate E).
      destruct IH as [[Hi Hf] | (a & b & -> & Hf & Hi)].
      * left. split; [|constructor; assumption].
        cbn [index_byte]. rewrite E, Hi. reflexivity.
      * right. exists (x :: a), b. repeat split.
        -- constructor; assumption.
        -- cbn [index_byte app length]. rewrite E, Hi.
           destruct (Z.ltb_spec (Z.of_nat (length a)) 0); lia.
Qed.

Lemma decodeBase64_fail H1 cs src out :
  valid H1 src ->
  base64.Decode_bytes (bytes H1 src) = (out, false) ->
  decodeBase64 src {| heap := H1; calls := cs |}
  = Ok (nil_slice, false)
       {| heap := H1 ++ [out ++ replicate (base64.DecodedLen (slen src)
                                           - length out) x00];
          calls := CallDecode :: cs |}.
Proof.
  intros Hv Hdec.
  pose proof (base64_facts.Decode_bytes_bound (bytes H1 src)) as Hlen.
  rewrite Hdec, (valid_length _ _ Hv) in Hlen. cbn [fst] in Hlen.
  unfold decodeBase64.
  rewrite bind_eq, make_run0 by lia. cbv beta iota.
  rewrite bind_eq. unfold Decode.
  rewrite bind_eq, note_run. cbv beta iota.
  rewrite bind_eq, load_run, bytes_app, Hdec by assumption. cbv beta iota.
  rewrite bind_eq, store_at_last by lia. cbv beta iota.
  rewrite ret_eq. cbv beta iota.
  rewrite ret_eq, Nat.add_0_l.
  rewrite write_at_0 by (rewrite length_replicate; lia).
  rewrite drop_replicate. reflexivity.
Qed.

(** ** [Decrypt], every path *)

Section decrypt_more.
Context `{Crypto}.

Lemma Decrypt_no_prefix H0 cs tok k :
  globals_ok H0 ->
  has_prefix (bytes H0 tok) v2local_bytes = false ->
  Decrypt tok k {| heap := H0; calls := cs |}
  = Ok (nil_slice, nil_slice, false) {| heap := H0; calls := cs |}.
Proof.
  intros Hg Hp. unfold Decrypt.
  rewrite bind_eq. unfold HasPrefix.
  rewrite bind_eq, load_run. cbv beta iota.
  rewrite bind_eq, load_run. cbv beta iota.
  rewrite ret_eq, bytes_v2local, Hp by assumption. reflexivity.
Qed.

Lemma Decrypt_bad_footer H0 cs tok k e fe fo :
  globals_ok H0 -> valid H0 tok ->
  bytes H0 tok = v2local_bytes ++ e ++ "."%byte :: fe ->
  Forall (fun c => c <> "."%byte) e ->
  base64.Decode_bytes fe = (fo, false) ->
  exists farr,
    Decrypt tok k {| heap := H0; calls := cs |}
    = Ok (nil_slice, nil_slice, false)
         {| heap := H0 ++ [farr]; calls := CallDecode :: cs |}.
Proof.
  intros Hg Htok Htb Hnd Hdec.
  pose proof (valid_length _ _ Htok) as Htl. rewrite Htb in Htl.
  destruct tok as [|a off len cap]; [discriminate Htb|].
  cbn [slen] in Htl. rewrite !length_app in Htl. cbn [length] in Htl.
  change (length v2local_bytes) with 9 in Htl.
  assert (len <= cap) as Hcap.
  { cbn [valid] in Htok. destruct (H0 !! a); [lia|tauto]. }
  set (m := Slice a (off + 9) (len - 9) (cap - 9)).
  assert (bytes H0 m = e ++ "."%byte :: fe) as Hmb.
  { subst m. rewrite (bytes_slice_from _ _ _ _ cap) by lia.
    rewrite Htb. apply drop_app_length'. reflexivity. }
  set (s := Slice a (off + 9 + (length e + 1)) (len - 9 - (length e + 1))
                  (cap - 9 - (length e + 1))).
  assert (valid H0 s) as Hs.
  { subst s. cbn [valid] in *. destruct (H0 !! a); [lia|tauto]. }
  assert (bytes H0 s = fe) as Hsb.
  { subst s. rewrite (bytes_slice_from _ _ _ _ (cap - 9)) by lia.
    fold m. rewrite Hmb.
    replace (e ++ "."%byte :: fe) with ((e ++ ["."%byte]) ++ fe)
      by (rewrite <- app_assoc; reflexivity).
    apply drop_app_length'. rewrite length_app. reflexivity. }
  eexists. unfold Decrypt.
  rewrite bind_eq. unfold HasPrefix.
  rewrite bind_eq, load_run. cbv beta iota.
  rewrite bind_eq, load_run. cbv beta iota.
  rewrite ret_eq, bytes_v2local, Htb, has_prefix_app by assumption.
  cbv beta iota. cbn [negb slen v2local]. cbv iota.
  rewrite bind_eq, slice_from_run by lia. cbv beta iota. fold m.
  rewrite bind_eq. unfold IndexByte.
  rewrite bind_eq, load_run. cbv beta iota. rewrite ret_eq, Hmb.
  cbv beta iota.
  rewrite index_byte_app by assumption.
  destruct (Z.leb_spec 0 (Z.of_nat (length e))) as [_|]; [|lia].
  replace (Z.to_nat (Z.of_nat (length e) + 1)) with (length e + 1) by lia.
  rewrite bind_eq. unfold m at 1.
  rewrite slice_from_run by lia. cbv beta iota. fold s.
  rewrite bind_eq, (decodeBase64_fail _ _ _ fo);
    [ | assumption | rewrite Hsb; exact Hdec ].
  reflexivity.
Qed.

Lemma Decrypt_body_bad_base64 H1 cs h m footer k out :
  valid H1 m ->
  base64.Decode_bytes (bytes H1 m) = (out, false) ->
  Decrypt_body h m footer k {| heap := H1; calls := cs |}
  = Ok (nil_slice, nil_slice, false)
       {| heap := H1 ++ [out ++ replicate (base64.DecodedLen (slen m)
                                           - length out) x00];
          calls := CallDecode :: cs |}.
Proof.
  intros Hm Hdec. unfold Decrypt_body.
  rewrite bind_eq, (decodeBase64_fail _ _ _ out) by assumption.
  reflexivity.
Qed.

(** The body has decoded to at least 24 bytes: the rest of [Decrypt]. *)
Lemma Decrypt_body_decoded H1 cs m footer k raw :
  globals_ok H1 -> valid H1 m -> valid H1 footer -> valid H1 k ->
  base64.Decode_bytes (bytes H1 m) = (raw, true) ->
  24 <= length raw ->
  let rawarr :=
    raw ++ replicate (base64.DecodedLen (slen m) - length raw) x00 in
  let aad := pae_bytes [v2local_bytes; take 24 raw; bytes H1 footer] in
  let cs1 := CallNewX :: CallDecode :: cs in
  Decrypt_body v2local m footer k {| heap := H1; calls := cs |}
  = if negb (length (bytes H1 k) =? KeySize)
    then Ok (nil_slice, nil_slice, false)
            {| heap := H1 ++ [rawarr; aad]; calls := cs1 |}
    else
      match aead_open (bytes H1 k) (take 24 raw) (drop 24 raw) aad with
      | None =>
          Ok (nil_slice, nil_slice, false)
             {| heap := H1 ++ [rawarr; aad]; calls := CallOpen :: cs1 |}
      | Some p =>
          match p with
          | [] =>
              Ok (nil_slice, footer, true)
                 {| heap := H1 ++ [rawarr; aad]; calls := CallOpen :: cs1 |}
          | _ :: _ =>
              Ok (Slice (length H1 + 2) 0 (length p) (length p), footer, true)
                 {| heap := H1 ++ [rawarr; aad; p];
                    calls := CallOpen :: cs1 |}
          end
      end.
Proof.
  intros Hg Hm Hft Hk Hdec Hlen rawarr aad cs1.
  pose proof (valid_v2local _ Hg) as Hh.
  pose proof (base64_facts.Decode_bytes_bound (bytes H1 m)) as HD.
  rewrite Hdec, (valid_length _ _ Hm) in HD. cbn [fst] in HD.
  set (D := base64.DecodedLen (slen m)) in *.
  unfold Decrypt_body.
  rewrite bind_eq, (decodeBase64_run _ _ _ raw) by assumption.
  cbv beta iota. cbn [negb]. cbv iota. fold D. fold rawarr.
  set (H2 := H1 ++ [rawarr]).
  rewrite bind_eq, slice_to_run by lia. cbv beta iota.
  rewrite bind_eq, slice_from_run by lia. cbv beta iota.
  set (n := Slice (length H1) 0 24 D).
  set (c := Slice (length H1) (0 + 24) (length raw - 24) (D - 24)).
  assert (length rawarr = D) as Hraw.
  { subst rawarr. rewrite length_app, length_replicate. lia. }
  assert (valid H2 n) as Hvn.
  { subst n H2. cbn [valid].
    rewrite list_lookup_middle by reflexivity. lia. }
  assert (valid H2 c) as Hvc.
  { subst c H2. cbn [valid].
    rewrite list_lookup_middle by reflexivity. lia. }
  assert (bytes H2 n = take 24 raw) as Hbn.
  { subst n H2. rewrite bytes_last, drop_0. subst rawarr.
    rewrite take_app_le by lia. reflexivity. }
  assert (bytes H2 c = drop 24 raw) as Hbc.
  { subst c H2. rewrite bytes_last. subst rawarr.
    rewrite Nat.add_0_l, drop_app_le by lia.
    rewrite take_app_le by (rewrite length_drop; lia).
    apply take_ge. rewrite length_drop. lia. }
  rewrite bind_eq, pae_run
    by (repeat constructor; try assumption; apply valid_app; assumption).
  cbv beta iota. cbn [map].
  assert (bytes H2 v2local = v2local_bytes) as Hbh
    by (unfold H2; rewrite bytes_app, bytes_v2local by assumption;
        reflexivity).
  assert (bytes H2 footer = bytes H1 footer) as Hbf
    by (unfold H2; apply bytes_app; assumption).
  rewrite Hbn, Hbh, Hbf. fold aad.
  set (psz := pae_size [v2local; n; footer] (8 + 8 * length [v2local; n; footer])).
  assert (length aad = psz) as Haad.
  { subst aad psz. rewrite <- Hbn, <- Hbf, <- Hbh.
    apply (pae_bytes_length H2 [v2local; n; footer]).
    repeat constructor; try assumption; apply valid_app; assumption. }
  set (H3 := H2 ++ [aad]).
  assert (H1 ++ [rawarr; aad] = H3) as HH3
    by (unfold H3, H2; rewrite <- app_assoc; reflexivity).
  rewrite HH3.
  assert (bytes H3 k = bytes H1 k) as Hbk
    by (unfold H3, H2; rewrite !bytes_app; auto using valid_app).
  assert (bytes H3 n = take 24 raw) as Hbn3
    by (unfold H3; rewrite bytes_app; assumption).
  assert (bytes H3 c = drop 24 raw) as Hbc3
    by (unfold H3; rewrite bytes_app; assumption).
  assert (bytes H3 (Slice (length H2) 0 psz psz) = aad) as Hba3
    by (unfold H3; rewrite bytes_last, drop_0, <- Haad; apply firstn_all).
  rewrite bind_eq, NewX_run. cbv beta iota.
  rewrite Hbk. fold H3.
  destruct (length (bytes H1 k) =? KeySize); [|reflexivity].
  cbn [negb]. cbv iota.
  rewrite bind_eq. unfold Open.
  rewrite bind_eq, note_run. cbv beta iota.
  rewrite bind_eq, load_run, Hbn3. cbv beta iota.
  rewrite length_take.
  replace (24 `min` length raw) with 24 by lia.
  change (24 =? NonceSizeX) with true. cbn [negb]. cbv iota.
  rewrite bind_eq, load_run, Hbc3. cbv beta iota.
  rewrite bind_eq, load_run, Hba3. cbv beta iota.
  cbn [aead_key]. fold H3.
  destruct (aead_open (bytes H1 k) (take 24 raw) (drop 24 raw) aad)
    as [[|p0 p]|].
  - rewrite bind_eq, append_nil_empty. reflexivity.
  - rewrite bind_eq, append_nil by discriminate. cbv beta iota.
    rewrite ret_eq.
    replace (length H3 + 0) with (length H1 + 2)
      by (unfold H3, H2; rewrite !length_app; cbn [length]; lia).
    replace (H1 ++ [rawarr; aad; p0 :: p]) with (H3 ++ [p0 :: p])
      by (rewrite <- HH3, <- app_assoc; reflexivity).
    reflexivity.
  - rewrite ret_eq. reflexivity.
Qed.

End decrypt_more.

(** ** The outcome of [Decrypt] *)

Section outcome_facts.
Context `{Crypto}.

Lemma Decrypt_outcome_no_footer k e :
  Forall (fun c => c <> "."%byte) e ->
  Decrypt_outcome (v2local_bytes ++ e) k = Decrypt_body_outcome k e [].
Proof.
  intros Hnd. unfold Decrypt_outcome.
  rewrite has_prefix_app, drop_app_length. cbn [negb]. cbv zeta.
  rewrite index_byte_none by assumption. reflexivity.
Qed.

Lemma Decrypt_outcome_footer k e fe :
  Forall (fun c => c <> "."%byte) e ->
  Decrypt_outcome (v2local_bytes ++ e ++ "."%byte :: fe) k
  = let '(fo, ok) := base64.Decode_bytes fe in
    if negb ok then Fails else Decrypt_body_outcome k e fo.
Proof.
  intros Hnd. unfold Decrypt_outcome.
  rewrite has_prefix_app, drop_app_length. cbn [negb]. cbv zeta.
  rewrite index_byte_app by assumption.
  destruct (Z.leb_spec 0 (Z.of_nat (length e))) as [_|]; [|lia].
  replace (Z.to_nat (Z.of_nat (length e) + 1)) with (length e + 1) by lia.
  rewrite Nat2Z.id, take_app_length.
  replace (e ++ "."%byte :: fe) with ((e ++ ["."%byte]) ++ fe)
    by (rewrite <- app_assoc; reflexivity).
  rewrite drop_app_length' by (rewrite length_app; reflexivity).
  reflexivity.
Qed.

Lemma Decrypt_outcome_cases tok k :
  (has_prefix tok v2local_bytes = false /\ Decrypt_outcome tok k = Fails)
  \/ exists e, Forall (fun c => c <> "."%byte) e
       /\ ((tok = v2local_bytes ++ e
            /\ Decrypt_outcome tok k = Decrypt_body_outcome k e [])
           \/ exists fe,
                tok = v2local_bytes ++ e ++ "."%byte :: fe
                /\ Decrypt_outcome tok k
                   = let '(fo, ok) := base64.Decode_bytes fe in
                     if negb ok then Fails
                     else Decrypt_body_outcome k e fo).
Proof.
  destruct (has_prefix tok v2local_bytes) eqn:Hp.
  - right. apply has_prefix_inv in Hp as [rest ->].
    destruct (index_byte_split rest "."%byte)
      as [[_ Hnd] | (e & fe & -> & Hnd & _)].
    + exists rest. split; [assumption|]. left.
      split; [reflexivity | apply Decrypt_outcome_no_footer, Hnd].
    + exists e. split; [assumption|]. right. exists fe.
      split; [reflexivity | apply Decrypt_outcome_footer, Hnd].
  - left. split; [reflexivity|]. unfold Decrypt_outcome. rewrite Hp.
    reflexivity.
Qed.

Lemma Decrypt_body_outcome_Succeeds k e fo p fo' :
  Decrypt_body_outcome k e fo = Succeeds p fo' ->
  exists raw,
    base64.Decode_bytes e = (raw, true) /\ 24 <= length raw
    /\ length k = KeySize /\ fo' = fo
    /\ aead_open k (take 24 raw) (drop 24 raw)
                 (pae_bytes [v2local_bytes; take 24 raw; fo]) = Some p.
Proof.
  unfold Decrypt_body_outcome.
  destruct (base64.Decode_bytes e) as [raw [|]]; cbn [negb];
    [|discriminate].
  destruct (Nat.ltb_spec (length raw) 24) as [|Hlen]; [discriminate|].
  destruct (Nat.eqb_spec (length k) KeySize) as [Hk|]; cbn [negb];
    [|discriminate].
  destruct (aead_open _ _ _ _) as [p1|] eqn:Hopen; [|discriminate].
  intros E. injection E as -> ->. exists raw. repeat split; assumption.
Qed.

Lemma Decrypt_body_outcome_Panics k e fo :
  Decrypt_body_outcome k e fo = Panics ->
  exists out, base64.Decode_bytes e = (out, true) /\ length out < 24.
Proof.
  unfold Decrypt_body_outcome.
  destruct (base64.Decode_bytes e) as [raw [|]]; cbn [negb];
    [|discriminate].
  destruct (Nat.ltb_spec (length raw) 24) as [Hlen|Hlen].
  - intros _. exists raw. split; [reflexivity | exact Hlen].
  - destruct (negb (length k =? KeySize)); [discriminate|].
    destruct (aead_open _ _ _ _); discriminate.
Qed.

Lemma Decrypt_body_outcome_run H1 cs m footer k :
  globals_ok H1 -> valid H1 m -> valid H1 footer -> valid H1 k ->
  match Decrypt_body_outcome (bytes H1 k) (bytes H1 m) (bytes H1 footer) with
  | Panics =>
      Decrypt_body v2local m footer k {| heap := H1; calls := cs |} = Panic
  | Fails =>
      exists ext cs',
        Decrypt_body v2local m footer k {| heap := H1; calls := cs |}
        = Ok (nil_slice, nil_slice, false)
             {| heap := H1 ++ ext; calls := cs' |}
  | Succeeds p fo =>
      exists pl ext cs',
        Decrypt_body v2local m footer k {| heap := H1; calls := cs |}
        = Ok (pl, footer, true) {| heap := H1 ++ ext; calls := cs' |}
        /\ bytes (H1 ++ ext) pl = p /\ (pl = nil_slice <-> p = [])
        /\ (pl = nil_slice
            \/ exists a, pl = Slice a 0 (length p) (length p)
                         /\ (H1 ++ ext) !! a = Some p)
  end.
Proof.
  intros Hg Hm Hft Hk. unfold Decrypt_body_outcome.
  destruct (base64.Decode_bytes (bytes H1 m)) as [raw [|]] eqn:Hdec;
    cbn [negb].
  2:{ eexists _, _. apply Decrypt_body_bad_base64; eassumption. }
  destruct (Nat.ltb_spec (length raw) 24) as [Hlen|Hlen].
  { eapply Decrypt_body_short; eassumption. }
  pose proof (Decrypt_body_decoded H1 cs m footer k raw Hg Hm Hft Hk Hdec Hlen)
    as Hrun. cbv zeta in Hrun.
  destruct (negb (length (bytes H1 k) =? KeySize)).
  { eexists _, _. exact Hrun. }
  destruct (aead_open _ _ _ _) as [[|p0 p]|].
  - eexists nil_slice, _, _. split; [exact Hrun|]. split; [reflexivity|].
    split; [tauto | left; reflexivity].
  - eexists _, _, _. split; [exact Hrun|]. split; [|split].
    + rewrite bytes_new. cbn [lookup list_lookup].
      rewrite drop_0. apply firstn_all.
    + split; discriminate.
    + right. eexists. split; [reflexivity|].
      rewrite lookup_new. reflexivity.
  - eexists _, _. exact Hrun.
Qed.

(** The code run in the store has the outcome [Decrypt_outcome] gives
    for the bytes of the token and of the key. *)
Lemma Decrypt_outcome_run H0 cs tok k :
  globals_ok H0 -> valid H0 tok -> valid H0 k ->
  match Decrypt_outcome (bytes H0 tok) (bytes H0 k) with
  | Panics => Decrypt tok k {| heap := H0; calls := cs |} = Panic
  | Fails =>
      exists ext cs',
        Decrypt tok k {| heap := H0; calls := cs |}
        = Ok (nil_slice, nil_slice, false)
             {| heap := H0 ++ ext; calls := cs' |}
  | Succeeds p fo =>
      exists pl ft ext cs',
        Decrypt tok k {| heap := H0; calls := cs |}
        = Ok (pl, ft, true) {| heap := H0 ++ ext; calls := cs' |}
        /\ bytes (H0 ++ ext) pl = p /\ bytes (H0 ++ ext) ft = fo
        /\ (pl = nil_slice <-> p = [])
        /\ (pl = nil_slice
            \/ exists a, pl = Slice a 0 (length p) (length p)
                         /\ (H0 ++ ext) !! a = Some p)
  end.
Proof.
  intros Hg Htok Hk.
  destruct (Decrypt_outcome_cases (bytes H0 tok) (bytes H0 k))
    as [[Hp ->] | (e & Hnd & [[Htb ->] | (fe & Htb & ->)])].
  - exists [], cs. rewrite app_nil_r. apply Decrypt_no_prefix; assumption.
  - destruct (Decrypt_no_footer H0 cs tok k _ Hg Htok Htb Hnd)
      as (m & -> & Hm & Hmb).
    pose proof (Decrypt_body_outcome_run H0 cs m nil_slice k Hg Hm I Hk)
      as R.
    rewrite Hmb in R. cbn [bytes] in R.
    destruct (Decrypt_body_outcome (bytes H0 k) e []) as [| |p fo] eqn:E;
      try exact R.
    destruct R as (pl & ext & cs' & Hrun & Hpl & Hnil & Hexact).
    apply Decrypt_body_outcome_Succeeds in E as (_ & _ & _ & _ & -> & _).
    exists pl, nil_slice, ext, cs'.
    split; [assumption|]. split; [assumption|]. split; [reflexivity|].
    split; assumption.
  - destruct (base64.Decode_bytes fe) as [fo [|]] eqn:Hdec; cbn [negb].
    + destruct (Decrypt_with_footer H0 cs tok k _ _ fo Hg Htok Htb Hnd Hdec)
        as (m & footer & farr & -> & Hm & Hmb & Hft & Hftb & Hfnew).
      pose proof (Decrypt_body_outcome_run (H0 ++ [farr]) (CallDecode :: cs)
                    m footer k (globals_ok_app _ _ Hg) Hm Hft
                    (valid_app _ _ _ Hk)) as R.
      rewrite Hmb, Hftb, (bytes_app _ _ k) in R by assumption.
      destruct (Decrypt_body_outcome (bytes H0 k) e fo) as [| |p fo'] eqn:E.
      * exact R.
      * destruct R as (ext & cs' & Hrun).
        exists (farr :: ext), cs'. rewrite Hrun, <- app_assoc. reflexivity.
      * destruct R as (pl & ext & cs' & Hrun & Hpl & Hnil & Hexact).
        apply Decrypt_body_outcome_Succeeds in E as (_ & _ & _ & _ & -> & _).
        exists pl, footer, (farr :: ext), cs'.
        replace (H0 ++ farr :: ext) with ((H0 ++ [farr]) ++ ext)
          by (rewrite <- app_assoc; reflexivity).
        split; [assumption|]. split; [assumption|].
        split; [|split; assumption].
        rewrite bytes_app by assumption. exact Hftb.
    + destruct (Decrypt_bad_footer H0 cs tok k _ _ fo Hg Htok Htb Hnd Hdec)
        as (farr & Hrun).
      exists [farr], (CallDecode :: cs). exact Hrun.
Qed.

(** What a completed or a panicking run tells about the outcome. *)
Lemma Decrypt_true_outcome st st' tok k pl ft :
  globals_ok (heap st) -> valid (heap st) tok -> valid (heap st) k ->
  Decrypt tok k st = Ok (pl, ft, true) st' ->
  Decrypt_outcome (bytes (heap st) tok) (bytes (heap st) k)
  = Succeeds (bytes (heap st') pl) (bytes (heap st') ft)
  /\ (pl = nil_slice <-> bytes (heap st') pl = [])
  /\ (pl = nil_slice
      \/ exists a, pl = Slice a 0 (slen pl) (slen pl)
                   /\ heap st' !! a = Some (bytes (heap st') pl)).
Proof.
  destruct st as [H0 cs]. cbn [heap]. intros Hg Htok Hk Hrun.
  pose proof (Decrypt_outcome_run H0 cs tok k Hg Htok Hk) as R.
  destruct (Decrypt_outcome (bytes H0 tok) (bytes H0 k)) as [| |p fo].
  - rewrite R in Hrun. discriminate Hrun.
  - destruct R as (ext & cs' & R). rewrite R in Hrun. discriminate Hrun.
  - destruct R as (pl' & ft' & ext & cs' & R & Hpl & Hft & Hnil & Hexact).
    rewrite R in Hrun. injection Hrun as -> -> <-. cbn [heap].
    rewrite Hpl, Hft. split; [reflexivity|]. split; [exact Hnil|].
    destruct Hexact as [-> | (a & -> & Ha)]; [left; reflexivity|].
    right. exists a. split; [reflexivity | exact Ha].
Qed.

Lemma Decrypt_Panic_outcome H0 cs tok k :
  globals_ok H0 -> valid H0 tok -> valid H0 k ->
  Decrypt tok k {| heap := H0; calls := cs |} = Panic ->
  Decrypt_outcome (bytes H0 tok) (bytes H0 k) = Panics.
Proof.
  intros Hg Htok Hk Hrun.
  pose proof (Decrypt_outcome_run H0 cs tok k Hg Htok Hk) as R.
  destruct (Decrypt_outcome (bytes H0 tok) (bytes H0 k)) as [| |p fo].
  - reflexivity.
  - destruct R as (ext & cs' & R). rewrite R in Hrun. discriminate Hrun.
  - destruct R as (pl' & ft' & ext & cs' & R & _).
    rewrite R in Hrun. discriminate Hrun.
Qed.

(** The tokens with a given outcome. *)
Lemma Decrypt_outcome_Succeeds tok k p fo :
  Decrypt_outcome tok k = Succeeds p fo ->
  exists e rest raw,
    tok = v2local_bytes ++ e ++ rest
    /\ Forall (fun c => c <> "."%byte) e
    /\ ((rest = [] /\ fo = [])
        \/ exists fe, rest = "."%byte :: fe
                      /\ base64.Decode_bytes fe = (fo, true))
    /\ base64.Decode_bytes e = (raw, true)
    /\ 24 <= length raw
    /\ length k = KeySize
    /\ aead_open k (take 24 raw) (drop 24 raw)
                 (pae_bytes [v2local_bytes; take 24 raw; fo]) = Some p.
Proof.
  intros E.
  destruct (Decrypt_outcome_cases tok k)
    as [[_ E'] | (e & Hnd & [[-> E'] | (fe & -> & E')])];
    rewrite E' in E; [discriminate E | |].
  - apply Decrypt_body_outcome_Succeeds in E
      as (raw & Hdec & Hlen & Hk & -> & Hopen).
    exists e, [], raw. rewrite app_nil_r. repeat split; auto.
  - destruct (base64.Decode_bytes fe) as [fo1 [|]] eqn:Hf; cbn [negb] in E;
      [|discriminate E].
    apply Decrypt_body_outcome_Succeeds in E
      as (raw & Hdec & Hlen & Hk & -> & Hopen).
    exists e, ("."%byte :: fe), raw. repeat split; eauto.
Qed.

Lemma Decrypt_outcome_Panics tok k :
  Decrypt_outcome tok k = Panics ->
  exists e rest out,
    tok = v2local_bytes ++ e ++ rest
    /\ Forall (fun c => c <> "."%byte) e
    /\ (rest = []
        \/ exists fe fo, rest = "."%byte :: fe
                         /\ base64.Decode_bytes fe = (fo, true))
    /\ base64.Decode_bytes e = (out, true)
    /\ length out < 24.
Proof.
  intros E.
  destruct (Decrypt_outcome_cases tok k)
    as [[_ E'] | (e & Hnd & [[-> E'] | (fe & -> & E')])];
    rewrite E' in E; [discriminate E | |].
  - apply Decrypt_body_outcome_Panics in E as (out & Hdec & Hlen).
    exists e, [], out. rewrite app_nil_r. repeat split; auto.
  - destruct (base64.Decode_bytes fe) as [fo1 [|]] eqn:Hf; cbn [negb] in E;
      [|discriminate E].
    apply Decrypt_body_outcome_Panics in E as (out & Hdec & Hlen).
    exists e, ("."%byte :: fe), out. repeat split; eauto.
Qed.

(** The outcome of a token in its parts. *)
Lemma Decrypt_outcome_parts k e rest raw fo :
  Forall (fun c => c <> "."%byte) e ->
  ((rest = [] /\ fo = [])
   \/ exists fe, rest = "."%byte :: fe
                 /\ base64.Decode_bytes fe = (fo, true)) ->
  base64.Decode_bytes e = (raw, true) ->
  24 <= length raw ->
  length k = KeySize ->
  Decrypt_outcome (v2local_bytes ++ e ++ rest) k
  = match aead_open k (take 24 raw) (drop 24 raw)
                    (pae_bytes [v2local_bytes; take 24 raw; fo]) with
    | Some p => Succeeds p fo
    | None => Fails
    end.
Proof.
  intros Hnd Hrest Hdec Hlen Hk.
  assert (Decrypt_body_outcome k e fo
          = match aead_open k (take 24 raw) (drop 24 raw)
                            (pae_bytes [v2local_bytes; take 24 raw; fo]) with
            | Some p => Succeeds p fo
            | None => Fails
            end) as Hbody.
  { unfold Decrypt_body_outcome. rewrite Hdec, Hk. cbn [negb].
    destruct (Nat.ltb_spec (length raw) 24); [lia | reflexivity]. }
  destruct Hrest as [[-> ->] | (fe & -> & Hf)].
  - rewrite app_nil_r, Decrypt_outcome_no_footer by assumption.
    exact Hbody.
  - rewrite Decrypt_outcome_footer, Hf by assumption. exact Hbody.
Qed.

End outcome_facts.

(** ** [Encrypt], then [Decrypt] *)

Section round_trip.
Context `{Crypto}.
Context (randRead : nat -> list byte * option error).


(** A call of [Encrypt] that returns a nil error had a key of 32 bytes and
    a random source that reported no error. *)
Lemma Encrypt_success_inv H0 cs m k f tok st' :
  Encrypt randRead m k f {| heap := H0; calls := cs |} = Ok (tok, None) st' ->
  length (bytes H0 k) = KeySize /\ snd (randRead 24) = None.
Proof.
  intros Hrun.
  destruct (Nat.eq_dec (length (bytes H0 k)) KeySize) as [Hk|Hk].
  - split; [exact Hk|].
    destruct (randRead 24) as [bs [e|]] eqn:Hrand; [|reflexivity].
    rewrite (Encrypt_rand_err randRead H0 cs m k f bs e Hk Hrand) in Hrun.
    discriminate Hrun.
  - rewrite (Encrypt_bad_key randRead H0 cs m k f Hk) in Hrun.
    discriminate Hrun.
Qed.

Lemma token_spec_length seed m k f :
  length seed = 24 ->
  length (token_spec seed m k f)
  = 9 + base64.EncodedLen (24 + (length m + Overhead))
    + (if 0 <? length f then 1 + base64.EncodedLen (length f) else 0).
Proof.
  intros Hs. unfold token_spec.
  rewrite !length_app, base64_facts.Encode_bytes_length,
    body_spec_length by exact Hs.
  change (length v2local_bytes) with 9.
  destruct f as [|b f].
  - cbn [length]. change (0 <? 0) with false. cbv iota. lia.
  - change (0 <? length (b :: f)) with true. cbv iota.
    change (length ("."%byte :: base64.Encode_bytes (b :: f)))
      with (S (length (base64.Encode_bytes (b :: f)))).
    rewrite base64_facts.Encode_bytes_length. lia.
Qed.

End round_trip.

(** ** Stores through a slice of any array *)

Lemma store_at_valid h cs a off len cap pos bs arr :
  h !! a = Some arr -> pos + length bs <= len ->
  store_at (Slice a off len cap) pos bs {| heap := h; calls := cs |}
  = Ok tt {| heap := <[a := write_at (off + pos) bs arr]> h; calls := cs |}.
Proof.
  intros Ha Hle. unfold store_at. cbn [heap calls].
  rewrite (proj2 (Nat.leb_le _ _) Hle), Ha. reflexivity.
Qed.

Lemma bytes_write_at_0 h a off len cap bs arr :
  h !! a = Some arr -> off + cap <= length arr -> len <= cap ->
  length bs <= len ->
  bytes (<[a := write_at (off + 0) bs arr]> h) (Slice a off len cap)
  = bs ++ drop (length bs) (bytes h (Slice a off len cap)).
Proof.
  intros Ha Hcap Hlen Hbs. cbn [bytes].
  rewrite list_lookup_insert_eq by (apply lookup_lt_Some in Ha; exact Ha).
  rewrite Ha, Nat.add_0_r. unfold write_at.
  rewrite drop_app_length' by (rewrite length_take; lia).
  rewrite take_app_ge by lia. f_equal.
  replace len with (length bs + (len - length bs)) at 2 by lia.
  rewrite <- take_drop_commute, drop_drop. reflexivity.
Qed.

(** ** The statements of the fuzzing harness *)




(** * Further properties of the package *)

(** X1 ([decodeBase64]): on every valid slice [decodeBase64] returns and
    does not panic, since the buffer it makes has room for whatever
    [Decode] stores; [ok] tells whether the source is valid unpadded
    base64url; on corrupt input the slice returned is nil; otherwise it is a
    slice of a new array that holds the decoded bytes, with the capacity
    [DecodedLen(len(src))]; the arrays of the store are left as they
    were. *)
Theorem decodeBase64_returns (st : state) (src : slice) :
  valid (heap st) src ->
  exists dst ok st',
    decodeBase64 src st = Ok (dst, ok) st'
    /\ ok = snd (base64.Decode_bytes (bytes (heap st) src))
    /\ (ok = false -> dst = nil_slice)
    /\ (ok = true ->
        bytes (heap st') dst
        = fst (base64.Decode_bytes (bytes (heap st) src))
        /\ scap dst = base64.DecodedLen (slen src)
        /\ dst <> nil_slice /\ is_new (heap st) dst)
    /\ (forall s, valid (heap st) s ->
                  bytes (heap st') s = bytes (heap st) s).
Proof.
  intros Hv. destruct st as [H1 cs]. cbn [heap] in *.
  pose proof (base64_facts.Decode_bytes_bound (bytes H1 src)) as Hb.
  rewrite (valid_length _ _ Hv) in Hb.
  destruct (base64.Decode_bytes (bytes H1 src)) as [out [|]] eqn:Hdec;
    cbn [fst] in Hb.
  - eexists _, true, _. split; [apply decodeBase64_run; eassumption|].
    cbn [heap snd fst]. repeat split; try discriminate.
    + rewrite bytes_last, drop_0. apply take_app_length.
    + cbn [is_new]. lia.
    + intros s Hs. apply bytes_app, Hs.
  - eexists _, false, _. split; [apply decodeBase64_fail; eassumption|].
    cbn [heap snd]. repeat split; try discriminate.
    intros s Hs. apply bytes_app, Hs.
Qed.

(** X2 ([decodeBase64] after [Encode]): for every byte string [x], on a
    slice that holds what [RawURLEncoding.Encode] stores for [x],
    [decodeBase64] returns [ok = true] and a slice that holds [x]. *)
Theorem decodeBase64_Encode (st : state) (src : slice) (x : list byte) :
  valid (heap st) src ->
  bytes (heap st) src = base64.Encode_bytes x ->
  exists dst st',
    decodeBase64 src st = Ok (dst, true) st'
    /\ bytes (heap st') dst = x
    /\ slen dst = length x.
Proof.
  intros Hv Hx. destruct st as [H1 cs]. cbn [heap] in *.
  pose proof (valid_length _ _ Hv) as Hl.
  rewrite Hx, base64_facts.Encode_bytes_length in Hl.
  eexists _, _. split.
  - apply (decodeBase64_run _ _ _ x); [assumption | |].
    + rewrite Hx. apply base64_facts.Decode_Encode.
    + rewrite <- Hl. apply DecodedLen_EncodedLen.
  - cbn [heap slen]. split; [|reflexivity].
    rewrite bytes_last, drop_0. apply take_app_length.
Qed.

(** X3 (what a success of [Decrypt] means): whenever [Decrypt] returns
    [ok = true], the key has 32 bytes, the token is the header, a body
    without ["."] and either nothing more or a ["."] and a footer segment;
    the footer returned holds what the footer segment decodes to (nothing
    when there is no segment); the body decodes to at least 24 bytes; and
    the cipher, with the key, the first 24 decoded bytes as the nonce and
    the [pae] of header, nonce and returned footer as additional data, has
    opened the remaining decoded bytes to the payload returned. *)
Theorem Decrypt_success_sound `{Crypto} (st st' : state)
    (token key payload footer : slice) :
  globals_ok (heap st) -> valid (heap st) token -> valid (heap st) key ->
  Decrypt token key st = Ok (payload, footer, true) st' ->
  exists e rest raw,
    bytes (heap st) token = v2local_bytes ++ e ++ rest
    /\ Forall (fun c => c <> "."%byte) e
    /\ ((rest = [] /\ bytes (heap st') footer = [])
        \/ exists fe,
             rest = "."%byte :: fe
             /\ base64.Decode_bytes fe = (bytes (heap st') footer, true))
    /\ base64.Decode_bytes e = (raw, true)
    /\ 24 <= length raw
    /\ length (bytes (heap st) key) = 32
    /\ aead_open (bytes (heap st) key) (take 24 raw) (drop 24 raw)
         (pae_bytes [v2local_bytes; take 24 raw; bytes (heap st') footer])
       = Some (bytes (heap st') payload).
Proof.
  intros Hg Htok Hk Hrun.
  apply Decrypt_true_outcome in Hrun as [Hout _]; try assumption.
  apply Decrypt_outcome_Succeeds in Hout. exact Hout.
Qed.

(** X4 (the tokens [Decrypt] accepts): for a key of 32 bytes and a token
    that is the header, a body without ["."] that decodes without error to
    at least 24 bytes, and either nothing more or a ["."] and a footer
    segment that decodes without error, whenever the cipher opens the
    decoded bytes after the first 24 under the key, those 24 bytes as
    nonce and the [pae] of header, nonce and decoded footer, [Decrypt]
    returns [ok = true], the opened payload and the decoded footer;
    the payload returned is nil exactly when the opened text is empty.  The
    segments need not be the encodings [Encrypt] writes. *)
Theorem Decrypt_accepts `{Crypto} (st : state) (token key : slice)
    (e rest raw fo p : list byte) :
  globals_ok (heap st) -> valid (heap st) token -> valid (heap st) key ->
  length (bytes (heap st) key) = 32 ->
  bytes (heap st) token = v2local_bytes ++ e ++ rest ->
  Forall (fun c => c <> "."%byte) e ->
  ((rest = [] /\ fo = [])
   \/ exists fe, rest = "."%byte :: fe
                 /\ base64.Decode_bytes fe = (fo, true)) ->
  base64.Decode_bytes e = (raw, true) ->
  24 <= length raw ->
  aead_open (bytes (heap st) key) (take 24 raw) (drop 24 raw)
            (pae_bytes [v2local_bytes; take 24 raw; fo]) = Some p ->
  exists payload footer st',
    Decrypt token key st = Ok (payload, footer, true) st'
    /\ bytes (heap st') payload = p
    /\ bytes (heap st') footer = fo
    /\ (payload = nil_slice <-> p = []).
Proof.
  intros Hg Htok Hk Hklen Htb Hnd Hrest Hdec Hlen Hopen.
  destruct st as [H0 cs]. cbn [heap] in *.
  pose proof (Decrypt_outcome_run H0 cs token key Hg Htok Hk) as R.
  rewrite Htb, (Decrypt_outcome_parts _ _ _ raw fo), Hopen in R
    by assumption.
  destruct R as (pl & ft & ext & cs' & Hrun & Hpl & Hft & Hnil & _).
  exists pl, ft, {| heap := H0 ++ ext; calls := cs' |}.
  cbn [heap]. repeat split; tauto.
Qed.

(** X5 (the only panic of [Decrypt]): on valid slices [Decrypt] panics
    only for a token that has the header and whose body decodes, without
    error, to fewer than 24 bytes (the footer segment, if there is one,
    having decoded without error); for every other token it returns. *)
Theorem Decrypt_panic_cause `{Crypto} (st : state) (token key : slice) :
  globals_ok (heap st) -> valid (heap st) token -> valid (heap st) key ->
  Decrypt token key st = Panic ->
  exists e rest out,
    bytes (heap st) token = v2local_bytes ++ e ++ rest
    /\ Forall (fun c => c <> "."%byte) e
    /\ (rest = []
        \/ exists fe fo, rest = "."%byte :: fe
                         /\ base64.Decode_bytes fe = (fo, true))
    /\ base64.Decode_bytes e = (out, true)
    /\ length out < 24.
Proof.
  intros Hg Htok Hk Hrun. destruct st as [H0 cs]. cbn [heap] in *.
  apply Decrypt_Panic_outcome in Hrun; try assumption.
  apply Decrypt_outcome_Panics in Hrun. exact Hrun.
Qed.

(** X6 (a footer segment that does not decode): when the part of the
    token after the first ["."] is not valid unpadded base64url, and in
    particular when it holds another ["."], [Decrypt] returns a nil
    payload, a nil footer and [ok = false] after a single call of the
    base64 decoder: the body is not decoded and neither the key nor the
    cipher is used. *)
Theorem Decrypt_bad_footer_rejected `{Crypto} (st : state)
    (token key : slice) (e fe : list byte) :
  globals_ok (heap st) -> valid (heap st) token ->
  bytes (heap st) token = v2local_bytes ++ e ++ "."%byte :: fe ->
  Forall (fun c => c <> "."%byte) e ->
  In "."%byte fe \/ snd (base64.Decode_bytes fe) = false ->
  exists st',
    Decrypt token key st = Ok (nil_slice, nil_slice, false) st'
    /\ calls st' = CallDecode :: calls st.
Proof.
  intros Hg Htok Htb Hnd Hbad. destruct st as [H0 cs]. cbn [heap] in *.
  assert (snd (base64.Decode_bytes fe) = false) as Hf
    by (destruct Hbad as [Hin|Hf];
        [apply base64_more.Decode_bytes_dot, Hin | exact Hf]).
  destruct (base64.Decode_bytes fe) as [fo ok] eqn:Hdec.
  cbn [snd] in Hf. subst ok.
  destruct (Decrypt_bad_footer H0 cs token key e fe fo Hg Htok Htb Hnd Hdec)
    as (farr & Hrun).
  eexists. split; [exact Hrun | reflexivity].
Qed.

(** X7 (a key of the wrong length): with a key that does not have 32
    bytes, a nil key included, [Decrypt] never returns [ok = true]:
    whenever it returns, the payload and the footer are nil and [ok] is
    false. *)
Theorem Decrypt_wrong_key_length `{Crypto} (st st' : state)
    (token key payload footer : slice) (ok : bool) :
  globals_ok (heap st) -> valid (heap st) token -> valid (heap st) key ->
  length (bytes (heap st) key) <> 32 ->
  Decrypt token key st = Ok (payload, footer, ok) st' ->
  payload = nil_slice /\ footer = nil_slice /\ ok = false.
Proof.
  intros Hg Htok Hk Hklen Hrun. destruct st as [H0 cs]. cbn [heap] in *.
  pose proof (Decrypt_outcome_run H0 cs token key Hg Htok Hk) as R.
  destruct (Decrypt_outcome (bytes H0 token) (bytes H0 key))
    as [| |p fo] eqn:E.
  - rewrite R in Hrun. discriminate Hrun.
  - destruct R as (ext & cs' & R). rewrite R in Hrun.
    injection Hrun as <- <- <- _. repeat split.
  - apply Decrypt_outcome_Succeeds in E
      as (_ & _ & _ & _ & _ & _ & _ & _ & Hlen & _).
    contradiction.
Qed.

(** X8 (line feeds and carriage returns in a token): the base64 decoder
    skips them, so a token that [Decrypt] accepts is still accepted, with
    the same payload and the same footer, when a line feed or a carriage
    return is put anywhere after the header. *)
Theorem Decrypt_ignores_newlines `{Crypto} (st st1 : state)
    (token token' key payload footer : slice) (l1 l2 : list byte)
    (c : byte) :
  globals_ok (heap st) ->
  valid (heap st) token -> valid (heap st) token' -> valid (heap st) key ->
  bytes (heap st) token = v2local_bytes ++ l1 ++ l2 ->
  bytes (heap st) token' = v2local_bytes ++ l1 ++ c :: l2 ->
  c = x0a \/ c = x0d ->
  Decrypt token key st = Ok (payload, footer, true) st1 ->
  exists payload' footer' st2,
    Decrypt token' key st = Ok (payload', footer', true) st2
    /\ bytes (heap st2) payload' = bytes (heap st1) payload
    /\ bytes (heap st2) footer' = bytes (heap st1) footer.
Proof.
  intros Hg Htok Htok' Hk Htb Htb' Hc Hrun.
  assert (base64.is_newline c = true) as Hnl
    by (destruct Hc as [-> | ->]; reflexivity).
  assert (c <> "."%byte) as Hcd
    by (destruct Hc as [-> | ->]; discriminate).
  apply Decrypt_true_outcome in Hrun as [Hout _]; try assumption.
  destruct st as [H0 cs]. cbn [heap] in *.
  pose proof (Decrypt_outcome_Succeeds _ _ _ _ Hout)
    as (e & rest & raw & Htb2 & Hnd & Hrest & Hdec & Hlen & Hklen & Hopen).
  rewrite Htb in Htb2. apply app_inv_head in Htb2.
  assert (exists e' rest',
            l1 ++ c :: l2 = e' ++ rest'
            /\ Forall (fun x => x <> "."%byte) e'
            /\ ((rest' = [] /\ bytes (heap st1) footer = [])
                \/ exists fe,
                     rest' = "."%byte :: fe
                     /\ base64.Decode_bytes fe
                        = (bytes (heap st1) footer, true))
            /\ base64.Decode_bytes e' = (raw, true))
    as (e' & rest' & Hsplit & Hnd' & Hrest' & Hdec').
  { apply app_eq_app in Htb2 as [x [[E1 E2] | [E1 E2]]].
    - (* the byte comes after the body *)
      subst l1 rest. destruct x as [|x0 x].
      + rewrite app_nil_r. cbn [app] in Hrest.
        exists (e ++ [c]), l2. repeat split.
        * rewrite <- app_assoc. reflexivity.
        * apply Forall_app. split; [assumption | repeat constructor; assumption].
        * exact Hrest.
        * rewrite <- (app_nil_r (e ++ [c])), <- app_assoc. cbn [app].
          rewrite base64_more.Decode_bytes_newline, app_nil_r by exact Hnl.
          exact Hdec.
      + destruct Hrest as [[Hr _] | (fe & Hr & Hf)]; [discriminate Hr|].
        cbn [app] in Hr. injection Hr as -> <-.
        exists e, ("."%byte :: x ++ c :: l2). repeat split.
        * rewrite <- app_assoc. reflexivity.
        * exact Hnd.
        * right. eexists. split; [reflexivity|].
          rewrite base64_more.Decode_bytes_newline by exact Hnl. exact Hf.
        * exact Hdec.
    - (* the byte comes inside the body *)
      subst e l2.
      exists (l1 ++ c :: x), rest. repeat split.
      + rewrite <- app_assoc. reflexivity.
      + apply Forall_app in Hnd as [Hn1 Hn2].
        apply Forall_app. split; [assumption | constructor; assumption].
      + exact Hrest.
      + rewrite base64_more.Decode_bytes_newline by exact Hnl. exact Hdec. }
  pose proof (Decrypt_outcome_run H0 cs token' key Hg Htok' Hk) as R.
  rewrite Htb', Hsplit,
    (Decrypt_outcome_parts _ _ _ raw (bytes (heap st1) footer)), Hopen in R
    by assumption.
  destruct R as (pl & ft & ext & cs' & Hrun' & Hpl & Hft & _).
  exists pl, ft, {| heap := H0 ++ ext; calls := cs' |}.
  cbn [heap]. repeat split; assumption.
Qed.

(** X9 (an empty footer segment): a token without ["."] after the header
    that [Decrypt] accepts is still accepted, with the same payload and an
    empty footer, when a ["."] is put at its end. *)
Theorem Decrypt_trailing_dot `{Crypto} (st st1 : state)
    (token token' key payload footer : slice) (e : list byte) :
  globals_ok (heap st) ->
  valid (heap st) token -> valid (heap st) token' -> valid (heap st) key ->
  bytes (heap st) token = v2local_bytes ++ e ->
  Forall (fun c => c <> "."%byte) e ->
  bytes (heap st) token' = v2local_bytes ++ e ++ ["."%byte] ->
  Decrypt token key st = Ok (payload, footer, true) st1 ->
  exists payload' footer' st2,
    Decrypt token' key st = Ok (payload', footer', true) st2
    /\ bytes (heap st2) payload' = bytes (heap st1) payload
    /\ bytes (heap st2) footer' = [].
Proof.
  intros Hg Htok Htok' Hk Htb Hnd Htb' Hrun.
  apply Decrypt_true_outcome in Hrun as [Hout _]; try assumption.
  destruct st as [H0 cs]. cbn [heap] in *.
  rewrite Htb, Decrypt_outcome_no_footer in Hout by assumption.
  pose proof (Decrypt_outcome_run H0 cs token' key Hg Htok' Hk) as R.
  rewrite Htb', Decrypt_outcome_footer in R by assumption.
  change (base64.Decode_bytes []) with (@nil byte, true) in R.
  cbn [negb] in R.
  pose proof (Decrypt_body_outcome_Succeeds _ _ _ _ _ Hout)
    as (_ & _ & _ & _ & Hfo & _).
  rewrite Hout in R.
  destruct R as (pl & ft & ext & cs' & Hrun' & Hpl & Hft & _).
  exists pl, ft, {| heap := H0 ++ ext; calls := cs' |}.
  cbn [heap]. repeat split; congruence.
Qed.

(** X10 (the slice that holds the payload): when [Decrypt] returns
    [ok = true], the payload is nil exactly when it is empty ([Open]
    appends to a nil slice, so an empty plaintext comes back as nil); a
    payload that is not nil is the whole of an array that holds the
    plaintext and nothing else, with a capacity equal to its length, so
    that it keeps no other memory reachable. *)
Theorem Decrypt_payload_shape `{Crypto} (st st' : state)
    (token key payload footer : slice) :
  globals_ok (heap st) -> valid (heap st) token -> valid (heap st) key ->
  Decrypt token key st = Ok (payload, footer, true) st' ->
  (payload = nil_slice <-> bytes (heap st') payload = [])
  /\ scap payload = slen payload
  /\ (payload = nil_slice
      \/ exists a, payload = Slice a 0 (slen payload) (slen payload)
                   /\ heap st' !! a = Some (bytes (heap st') payload)).
Proof.
  intros Hg Htok Hk Hrun.
  apply Decrypt_true_outcome in Hrun as (_ & Hnil & Hexact);
    try assumption.
  split; [exact Hnil|]. split; [|exact Hexact].
  destruct Hexact as [-> | (a & -> & _)]; reflexivity.
Qed.


(** X12 (the length of a token): a token [Encrypt] returns has
    [9 + EncodedLen(24 + len(message) + 16)] bytes, and
    [1 + EncodedLen(len(footer))] more when the footer is not empty; its
    capacity is its length.  The length computed before the token is
    written is the number of bytes written. *)
Theorem Encrypt_token_length `{Crypto}
    (randRead : nat -> list byte * option error)
    (st st' : state) (m k f tok : slice) :
  globals_ok (heap st) ->
  valid (heap st) m -> valid (heap st) k -> valid (heap st) f ->
  Encrypt randRead m k f st = Ok (tok, None) st' ->
  slen tok
  = 9 + base64.EncodedLen (24 + slen m + 16)
    + (if 0 <? slen f then 1 + base64.EncodedLen (slen f) else 0)
  /\ scap tok = slen tok
  /\ length (bytes (heap st') tok) = slen tok.
Proof.
  intros Hg Hm Hk Hf Hrun. destruct st as [H0 cs]. cbn [heap] in *.
  destruct (Encrypt_success_inv randRead H0 cs m k f tok st' Hrun)
    as [Hklen Hrand].
  destruct (randRead 24) as [bs e] eqn:Hbs. cbn [snd] in Hrand. subst e.
  pose proof (Encrypt_run randRead H0 cs m k f bs Hg Hm Hk Hf Hklen Hbs)
    as Henc. cbv zeta in Henc.
  remember (token_spec (seed_of bs) (bytes H0 m) (bytes H0 k) (bytes H0 f))
    as tokb eqn:Htokb.
  rewrite Henc in Hrun. injection Hrun as <- <-. cbn [slen scap heap].
  rewrite bytes_new. cbn [lookup list_lookup].
  rewrite drop_0, firstn_all. subst tokb.
  rewrite token_spec_length by apply seed_of_length.
  rewrite (valid_length _ _ Hm), (valid_length _ _ Hf).
  repeat split.
Qed.

(** X13 (the arrays [Encrypt] allocates): a call that succeeds adds
    exactly three arrays to the store: [nc], of the
    [24 + len(message) + 16] bytes it was made with, which [Sum] and [Seal]
    have filled in place with the nonce and the sealed message; the buffer
    of [pae] for header, nonce and footer; and the token, whose body is the
    encoding of [nc]. *)
Theorem Encrypt_allocations `{Crypto}
    (randRead : nat -> list byte * option error)
    (st st' : state) (m k f tok : slice) :
  globals_ok (heap st) ->
  valid (heap st) m -> valid (heap st) k -> valid (heap st) f ->
  Encrypt randRead m k f st = Ok (tok, None) st' ->
  exists nc preAuth out,
    heap st' = heap st ++ [nc; preAuth; out]
    /\ length nc = 24 + slen m + 16
    /\ preAuth = pae_bytes [v2local_bytes; take 24 nc; bytes (heap st) f]
    /\ drop 24 nc
       = aead_seal (bytes (heap st) k) (take 24 nc) (bytes (heap st) m)
                   preAuth
    /\ bytes (heap st') tok = out
    /\ take (9 + base64.EncodedLen (length nc)) out
       = v2local_bytes ++ base64.Encode_bytes nc.
Proof.
  intros Hg Hm Hk Hf Hrun. destruct st as [H0 cs]. cbn [heap] in *.
  destruct (Encrypt_success_inv randRead H0 cs m k f tok st' Hrun)
    as [Hklen Hrand].
  destruct (randRead 24) as [bs e] eqn:Hbs. cbn [snd] in Hrand. subst e.
  pose proof (Encrypt_run randRead H0 cs m k f bs Hg Hm Hk Hf Hklen Hbs)
    as Henc. cbv zeta in Henc.
  remember (token_spec (seed_of bs) (bytes H0 m) (bytes H0 k) (bytes H0 f))
    as tokb eqn:Htokb.
  rewrite Henc in Hrun. injection Hrun as <- <-. cbn [heap].
  assert (length (nonce_spec (seed_of bs) (bytes H0 m)) = 24) as Hn.
  { unfold nonce_spec. apply blake2b_sum_length; [lia|].
    rewrite seed_of_length. lia. }
  eexists _, _, _. split; [reflexivity|].
  split; [|split; [|split; [|split]]].
  - rewrite body_spec_length, (valid_length _ _ Hm) by apply seed_of_length.
    unfold Overhead. lia.
  - unfold body_spec. rewrite take_app_length' by (symmetry; exact Hn).
    symmetry. apply pae_bytes_spec.
  - unfold body_spec at 1 2.
    rewrite drop_app_length' by (symmetry; exact Hn).
    rewrite take_app_length' by (symmetry; exact Hn). reflexivity.
  - rewrite bytes_new. cbn [lookup list_lookup].
    rewrite drop_0. apply firstn_all.
  - subst tokb. unfold token_spec. rewrite app_assoc.
    apply take_app_length'.
    rewrite length_app, base64_facts.Encode_bytes_length. reflexivity.
Qed.

(** X14 (the nonce in a token): the 32 bytes that follow the header of a
    token are the encoding of the nonce, the keyed BLAKE2b digest of the
    message under the 24 bytes the random source has stored; they depend
    on neither the key nor the footer, so two calls of [Encrypt] that get
    the same random bytes for the same message return tokens with the same
    first 41 bytes. *)
Theorem Encrypt_nonce_in_token `{Crypto}
    (randRead : nat -> list byte * option error)
    (st st1 st2 : state) (m k1 f1 k2 f2 tok1 tok2 : slice) :
  globals_ok (heap st) -> valid (heap st) m ->
  valid (heap st) k1 -> valid (heap st) f1 ->
  valid (heap st) k2 -> valid (heap st) f2 ->
  Encrypt randRead m k1 f1 st = Ok (tok1, None) st1 ->
  Encrypt randRead m k2 f2 st = Ok (tok2, None) st2 ->
  take 32 (drop 9 (bytes (heap st1) tok1))
  = base64.Encode_bytes
      (blake2b_sum 24 (seed_of (fst (randRead 24))) (bytes (heap st) m))
  /\ take 41 (bytes (heap st1) tok1) = take 41 (bytes (heap st2) tok2).
Proof.
  intros Hg Hm Hk1 Hf1 Hk2 Hf2 Hrun1 Hrun2.
  destruct st as [H0 cs]. cbn [heap] in *.
  assert (forall k f tok st',
            valid H0 k -> valid H0 f ->
            Encrypt randRead m k f {| heap := H0; calls := cs |}
            = Ok (tok, None) st' ->
            take 41 (bytes (heap st') tok)
            = v2local_bytes
                ++ base64.Encode_bytes
                     (blake2b_sum 24 (seed_of (fst (randRead 24)))
                                  (bytes H0 m))) as Hhead.
  { intros k f tok st' Hk Hf Hrun.
    destruct (Encrypt_success_inv randRead H0 cs m k f tok st' Hrun)
      as [Hklen Hrand].
    destruct (randRead 24) as [bs e] eqn:Hbs. cbn [snd] in Hrand. subst e.
    pose proof (Encrypt_run randRead H0 cs m k f bs Hg Hm Hk Hf Hklen Hbs)
      as Henc. cbv zeta in Henc.
    remember (token_spec (seed_of bs) (bytes H0 m) (bytes H0 k) (bytes H0 f))
      as tokb eqn:Htokb.
    rewrite Henc in Hrun. injection Hrun as <- <-. cbn [heap fst].
    rewrite bytes_new. cbn [lookup list_lookup].
    rewrite drop_0, firstn_all. subst tokb.
    assert (length (nonce_spec (seed_of bs) (bytes H0 m)) = 24) as Hn.
    { unfold nonce_spec. apply blake2b_sum_length; [lia|].
      rewrite seed_of_length. lia. }
    unfold token_spec, body_spec. unfold nonce_spec in *.
    rewrite base64_more.Encode_bytes_app by (rewrite Hn; reflexivity).
    rewrite <- app_assoc, app_assoc.
    apply take_app_length'.
    rewrite length_app, base64_facts.Encode_bytes_length, Hn. reflexivity. }
  pose proof (Hhead k1 f1 tok1 st1 Hk1 Hf1 Hrun1) as E1.
  pose proof (Hhead k2 f2 tok2 st2 Hk2 Hf2 Hrun2) as E2.
  split; [|congruence].
  assert (take 32 (drop 9 (take 41 (bytes (heap st1) tok1)))
          = take 32 (drop 9 (bytes (heap st1) tok1))) as <-.
  { rewrite !take_drop_commute, take_take. reflexivity. }
  rewrite E1, drop_app_length' by reflexivity.
  apply take_ge. rewrite base64_facts.Encode_bytes_length.
  rewrite blake2b_sum_length; [reflexivity | lia |].
  rewrite seed_of_length. lia.
Qed.

(** X15 ([le64]): on a slice of fewer than eight bytes [le64] panics; on
    any other valid slice it overwrites the first eight bytes with the
    little-endian bytes of [n] reduced modulo 2^63, for every [n] (negative
    numbers included), and leaves the rest of the slice, the number of
    arrays and the call log as they were. *)
Theorem le64_stores (st : state) (n : Z) (b : slice) :
  valid (heap st) b ->
  (slen b < 8 -> le64 n b st = Panic)
  /\ (8 <= slen b ->
      exists st',
        le64 n b st = Ok tt st'
        /\ bytes (heap st') b
           = little_endian 8 (n mod 2 ^ 63)%Z ++ drop 8 (bytes (heap st) b)
        /\ length (heap st') = length (heap st)
        /\ calls st' = calls st).
Proof.
  intros Hv. destruct st as [h cs]. cbn [heap calls] in *.
  unfold le64, PutUint64. cbv zeta.
  change (PutUint64_bytes (le64_u n)) with (le64_bytes n).
  split; intros Hl.
  - rewrite (proj2 (Nat.ltb_lt _ _) Hl). reflexivity.
  - destruct (Nat.ltb_spec (slen b) 8) as [|_]; [lia|].
    destruct b as [|a off len cap]; [cbn [slen] in Hl; lia|].
    cbn [slen valid] in *.
    destruct (h !! a) as [arr|] eqn:Ha; [|contradiction].
    destruct Hv as [Hcap Hlen].
    eexists. split.
    { apply (store_at_valid _ _ _ _ _ _ _ _ arr Ha).
      rewrite le64_bytes_length. lia. }
    cbn [heap calls]. split; [|split; [apply length_insert | reflexivity]].
    rewrite (bytes_write_at_0 h a off len cap _ arr Ha Hcap Hlen)
      by (rewrite le64_bytes_length; lia).
    rewrite le64_bytes_length. f_equal.
    unfold le64_bytes. rewrite little_endian_8, le64_u_mod. reflexivity.
Qed.

(** X16 (the characters of a token): every byte of a token [Encrypt]
    returns is a character of the URL alphabet of base64
    ([A-Z], [a-z], [0-9], ["-"], ["_"]) or a ["."]; there is no padding
    character. *)
Theorem Encrypt_token_alphabet `{Crypto}
    (randRead : nat -> list byte * option error)
    (st st' : state) (m k f tok : slice) :
  globals_ok (heap st) ->
  valid (heap st) m -> valid (heap st) k -> valid (heap st) f ->
  Encrypt randRead m k f st = Ok (tok, None) st' ->
  Forall (fun c => c ∈ base64.encodeURL \/ c = "."%byte)
         (bytes (heap st') tok).
Proof.
  intros Hg Hm Hk Hf Hrun. destruct st as [H0 cs]. cbn [heap] in *.
  destruct (Encrypt_success_inv randRead H0 cs m k f tok st' Hrun)
    as [Hklen Hrand].
  destruct (randRead 24) as [bs e] eqn:Hbs. cbn [snd] in Hrand. subst e.
  pose proof (Encrypt_run randRead H0 cs m k f bs Hg Hm Hk Hf Hklen Hbs)
    as Henc. cbv zeta in Henc.
  remember (token_spec (seed_of bs) (bytes H0 m) (bytes H0 k) (bytes H0 f))
    as tokb eqn:Htokb.
  rewrite Henc in Hrun. injection Hrun as <- <-. cbn [heap].
  rewrite bytes_new. cbn [lookup list_lookup].
  rewrite drop_0, firstn_all. subst tokb. unfold token_spec.
  assert (forall x, Forall (fun c => c ∈ base64.encodeURL \/ c = "."%byte)
                           (base64.Encode_bytes x)) as Henc'.
  { intros x. eapply Forall_impl;
      [apply base64_more.Encode_bytes_alphabet | intros c Hc; left; exact Hc]. }
  apply Forall_app. split.
  - apply (bool_decide_eq_true_1 _). vm_compute. reflexivity.
  - apply Forall_app. split; [apply Henc'|].
    destruct (bytes H0 f); constructor; [right; reflexivity | apply Henc'].
Qed.

(** X17 (bytes outside the alphabet in the body): a token whose body
    holds a byte that is neither a character of the URL alphabet nor a
    line feed or carriage return (the padding character, or ["+"] and
    ["/"] of the standard alphabet) is rejected: [Decrypt] returns a nil
    payload, a nil footer and [ok = false] without a panic, and it has
    called nothing but the base64 decoder. *)
Theorem Decrypt_bad_character_rejected `{Crypto} (st : state)
    (token key : slice) (e rest : list byte) (c : byte) :
  globals_ok (heap st) -> valid (heap st) token ->
  bytes (heap st) token = v2local_bytes ++ e ++ rest ->
  Forall (fun x => x <> "."%byte) e ->
  (rest = []
   \/ exists fe fo, rest = "."%byte :: fe
                    /\ base64.Decode_bytes fe = (fo, true)) ->
  In c e -> base64.decodeMap c = 255%Z -> base64.is_newline c = false ->
  exists st' n,
    Decrypt token key st = Ok (nil_slice, nil_slice, false) st'
    /\ calls st' = replicate n CallDecode ++ calls st.
Proof.
  intros Hg Htok Htb Hnd Hrest Hin Hmap Hnl.
  destruct st as [H0 cs]. cbn [heap calls] in *.
  pose proof (base64_more.Decode_bytes_bad c e Hin Hmap Hnl) as Hbad.
  destruct (base64.Decode_bytes e) as [out ok] eqn:Hdec.
  cbn [snd] in Hbad. subst ok.
  destruct Hrest as [-> | (fe & fo & -> & Hf)].
  - rewrite app_nil_r in Htb.
    destruct (Decrypt_no_footer H0 cs token key _ Hg Htok Htb Hnd)
      as (m & -> & Hm & Hmb).
    rewrite <- Hmb in Hdec.
    rewrite (Decrypt_body_bad_base64 _ _ _ _ _ _ out Hm Hdec).
    eexists _, 1. split; reflexivity.
  - destruct (Decrypt_with_footer H0 cs token key _ _ fo Hg Htok Htb Hnd Hf)
      as (m & footer & farr & -> & Hm & Hmb & _).
    rewrite <- Hmb in Hdec.
    rewrite (Decrypt_body_bad_base64 _ _ _ _ _ _ out Hm Hdec).
    eexists _, 2. split; reflexivity.
Qed.

(** X18 (the randomness [Encrypt] uses): [Encrypt] reads the random
    source once, into a buffer of 24 bytes: its result depends on the
    random source only through what that source returns for a buffer of 24
    bytes; and a call that succeeds has called its collaborators in the
    order [NewX], [randRead], [blake2b.New], [Write], [Sum], [Seal],
    [Encode], with a second [Encode] when the footer is not empty. *)
Theorem Encrypt_randomness `{Crypto}
    (randRead : nat -> list byte * option error)
    (st : state) (m k f : slice) :
  globals_ok (heap st) ->
  valid (heap st) m -> valid (heap st) k -> valid (heap st) f ->
  (forall randRead',
     randRead' 24 = randRead 24 ->
     Encrypt randRead' m k f st = Encrypt randRead m k f st)
  /\ (forall tok st',
        Encrypt randRead m k f st = Ok (tok, None) st' ->
        calls st' = Encrypt_calls f ++ calls st).
Proof.
  intros Hg Hm Hk Hf. destruct st as [H0 cs]. cbn [heap calls] in *.
  split.
  - intros r2 Hr. unfold Encrypt.
    remember (24 + slen m + Overhead) as C eqn:HC.
    rewrite !(bind_eq (NewX k)), NewX_run.
    destruct (length (bytes H0 k) =? KeySize); [|reflexivity].
    cbv beta iota.
    rewrite !(bind_eq (make 0 C)), make_new by lia. cbv beta iota.
    rewrite !(bind_eq (slice_to _ 24)), slice_to_run by lia.
    cbv beta iota.
    rewrite !(bind_eq (call_randRead _ _)). unfold call_randRead.
    cbn [slen]. rewrite Hr. reflexivity.
  - intros tok st' Hrun.
    destruct (Encrypt_success_inv randRead H0 cs m k f tok st' Hrun)
      as [Hklen Hrand].
    destruct (randRead 24) as [bs e] eqn:Hbs. cbn [snd] in Hrand. subst e.
    pose proof (Encrypt_run randRead H0 cs m k f bs Hg Hm Hk Hf Hklen Hbs)
      as Henc. cbv zeta in Henc.
    rewrite Henc in Hrun. injection Hrun as _ <-. reflexivity.
Qed.

(** * The further properties at concrete inputs *)

Lemma decodeBase64_returns_witness :
  exists dst ok st',
    decodeBase64 (Slice 3 9 63 63) more_state = Ok (dst, ok) st'
    /\ ok = snd (base64.Decode_bytes
                   (bytes (heap more_state) (Slice 3 9 63 63)))
    /\ (ok = false -> dst = nil_slice).
Proof.
  destruct (decodeBase64_returns more_state (Slice 3 9 63 63))
    as (dst & ok & st' & Hrun & Hok & Hnil & _).
  - simpl; lia.
  - exists dst, ok, st'. repeat split; assumption.
Defined.

Lemma decodeBase64_Encode_witness :
  exists dst st',
    decodeBase64 (Slice 6 73 8 8) demo_state = Ok (dst, true) st'
    /\ bytes (heap st') dst = list_byte_of_string "footes"
    /\ slen dst = length (list_byte_of_string "footes").
Proof.
  apply (decodeBase64_Encode demo_state (Slice 6 73 8 8)
           (list_byte_of_string "footes")).
  - simpl; lia.
  - reflexivity.
Defined.

Lemma Decrypt_success_sound_witness :
  exists payload footer st' e rest raw,
    Decrypt more_token more_key more_state = Ok (payload, footer, true) st'
    /\ bytes (heap more_state) more_token = v2local_bytes ++ e ++ rest
    /\ base64.Decode_bytes e = (raw, true)
    /\ aead_open (bytes (heap more_state) more_key) (take 24 raw)
         (drop 24 raw)
         (pae_bytes [v2local_bytes; take 24 raw; bytes (heap st') footer])
       = Some (bytes (heap st') payload).
Proof.
  assert (exists payload footer st',
            Decrypt more_token more_key more_state
            = Ok (payload, footer, true) st') as (p & f & st' & Hrun)
    by (vm_compute; eexists _, _, _; reflexivity).
  assert (globals_ok (heap more_state)) as Hg by reflexivity.
  assert (valid (heap more_state) more_token) as Ht by (simpl; lia).
  assert (valid (heap more_state) more_key) as Hk by (simpl; lia).
  destruct (Decrypt_success_sound more_state st' more_token more_key p f
              Hg Ht Hk Hrun)
    as (e & rest & raw & Htb & _ & _ & Hdec & _ & _ & Hopen).
  exists p, f, st', e, rest, raw. repeat split; assumption.
Defined.

Lemma Decrypt_accepts_witness :
  exists payload footer st',
    Decrypt more_token more_key more_state = Ok (payload, footer, true) st'
    /\ bytes (heap st') payload = list_byte_of_string "payload"
    /\ bytes (heap st') footer = []
    /\ (payload = nil_slice <-> list_byte_of_string "payload" = []).
Proof.
  apply (Decrypt_accepts more_state more_token more_key
           (drop 9 (bytes (heap more_state) more_token)) []
           (fst (base64.Decode_bytes
                   (drop 9 (bytes (heap more_state) more_token))))
           [] (list_byte_of_string "payload")).
  - reflexivity.
  - simpl; lia.
  - simpl; lia.
  - reflexivity.
  - reflexivity.
  - apply (bool_decide_eq_true_1 _). vm_compute. reflexivity.
  - left. split; reflexivity.
  - vm_compute. reflexivity.
  - vm_compute. lia.
  - vm_compute. reflexivity.
Defined.

Lemma Decrypt_panic_cause_witness :
  exists e rest out,
    bytes (heap demo_state) demo_header_only = v2local_bytes ++ e ++ rest
    /\ Forall (fun c => c <> "."%byte) e
    /\ (rest = []
        \/ exists fe fo, rest = "."%byte :: fe
                         /\ base64.Decode_bytes fe = (fo, true))
    /\ base64.Decode_bytes e = (out, true)
    /\ length out < 24.
Proof.
  apply (Decrypt_panic_cause demo_state demo_header_only demo_key).
  - reflexivity.
  - simpl; lia.
  - simpl; lia.
  - vm_compute. reflexivity.
Defined.

Lemma Decrypt_bad_footer_rejected_witness :
  exists st',
    Decrypt more_two_dots more_key more_state
    = Ok (nil_slice, nil_slice, false) st'
    /\ calls st' = CallDecode :: calls more_state.
Proof.
  apply (Decrypt_bad_footer_rejected more_state more_two_dots more_key
           (take 63 (drop 9 (bytes (heap more_state) more_two_dots)))
           (list_byte_of_string "Zm9v.dGVy")).
  - reflexivity.
  - simpl; lia.
  - reflexivity.
  - apply (bool_decide_eq_true_1 _). vm_compute. reflexivity.
  - left. vm_compute. tauto.
Defined.

Lemma Decrypt_wrong_key_length_witness :
  exists payload footer ok st',
    Decrypt more_token more_buffer more_state = Ok (payload, footer, ok) st'
    /\ payload = nil_slice /\ footer = nil_slice /\ ok = false.
Proof.
  assert (exists payload footer ok st',
            Decrypt more_token more_buffer more_state
            = Ok (payload, footer, ok) st') as (p & f & ok & st' & Hrun)
    by (vm_compute; eexists _, _, _, _; reflexivity).
  exists p, f, ok, st'. split; [exact Hrun|].
  apply (Decrypt_wrong_key_length more_state st' more_token more_buffer
           p f ok).
  - reflexivity.
  - simpl; lia.
  - simpl; lia.
  - vm_compute. lia.
  - exact Hrun.
Defined.

Lemma Decrypt_ignores_newlines_witness :
  exists payload footer st1 payload' footer' st2,
    Decrypt more_token more_key more_state = Ok (payload, footer, true) st1
    /\ Decrypt more_newline more_key more_state
       = Ok (payload', footer', true) st2
    /\ bytes (heap st2) payload' = bytes (heap st1) payload
    /\ bytes (heap st2) footer' = bytes (heap st1) footer.
Proof.
  assert (exists payload footer st',
            Decrypt more_token more_key more_state
            = Ok (payload, footer, true) st') as (p & f & st1 & Hrun)
    by (vm_compute; eexists _, _, _; reflexivity).
  destruct (Decrypt_ignores_newlines more_state st1 more_token more_newline
              more_key p f (list_byte_of_string "cGF5")
              (drop 13 (bytes (heap more_state) more_token)) x0a)
    as (p' & f' & st2 & Hrun' & Hp & Hf).
  - reflexivity.
  - simpl; lia.
  - simpl; lia.
  - simpl; lia.
  - reflexivity.
  - reflexivity.
  - left. reflexivity.
  - exact Hrun.
  - exists p, f, st1, p', f', st2. repeat split; assumption.
Defined.

Lemma Decrypt_trailing_dot_witness :
  exists payload footer st1 payload' footer' st2,
    Decrypt more_token more_key more_state = Ok (payload, footer, true) st1
    /\ Decrypt more_trailing_dot more_key more_state
       = Ok (payload', footer', true) st2
    /\ bytes (heap st2) payload' = bytes (heap st1) payload
    /\ bytes (heap st2) footer' = [].
Proof.
  assert (exists payload footer st',
            Decrypt more_token more_key more_state
            = Ok (payload, footer, true) st') as (p & f & st1 & Hrun)
    by (vm_compute; eexists _, _, _; reflexivity).
  destruct (Decrypt_trailing_dot more_state st1 more_token
              more_trailing_dot more_key p f
              (drop 9 (bytes (heap more_state) more_token)))
    as (p' & f' & st2 & Hrun' & Hp & Hf).
  - reflexivity.
  - simpl; lia.
  - simpl; lia.
  - simpl; lia.
  - reflexivity.
  - apply (bool_decide_eq_true_1 _). vm_compute. reflexivity.
  - reflexivity.
  - exact Hrun.
  - exists p, f, st1, p', f', st2. repeat split; assumption.
Defined.

Lemma Decrypt_payload_shape_witness :
  exists payload footer st',
    Decrypt more_token more_key more_state = Ok (payload, footer, true) st'
    /\ (payload = nil_slice <-> bytes (heap st') payload = [])
    /\ scap payload = slen payload.
Proof.
  assert (exists payload footer st',
            Decrypt more_token more_key more_state
            = Ok (payload, footer, true) st') as (p & f & st' & Hrun)
    by (vm_compute; eexists _, _, _; reflexivity).
  exists p, f, st'. split; [exact Hrun|].
  destruct (Decrypt_payload_shape more_state st' more_token more_key p f)
    as (Hnil & Hcap & _);
    [reflexivity | simpl; lia | simpl; lia | exact Hrun |].
  split; assumption.
Defined.


Lemma Encrypt_token_length_witness :
  exists tok st',
    Encrypt dash_reader demo_message demo_key demo_footer demo_state
    = Ok (tok, None) st'
    /\ slen tok
       = 9 + base64.EncodedLen (24 + slen demo_message + 16)
         + (if 0 <? slen demo_footer
            then 1 + base64.EncodedLen (slen demo_footer) else 0).
Proof.
  assert (exists tok st',
            Encrypt dash_reader demo_message demo_key demo_footer demo_state
            = Ok (tok, None) st') as (tok & st' & Hrun)
    by (vm_compute; eexists _, _; reflexivity).
  exists tok, st'. split; [exact Hrun|].
  assert (globals_ok (heap demo_state)) as Hg by reflexivity.
  assert (valid (heap demo_state) demo_message) as Hm by (simpl; lia).
  assert (valid (heap demo_state) demo_key) as Hk by (simpl; lia).
  assert (valid (heap demo_state) demo_footer) as Hf by (simpl; lia).
  exact (proj1 (Encrypt_token_length dash_reader demo_state st'
                  demo_message demo_key demo_footer tok Hg Hm Hk Hf Hrun)).
Defined.

Lemma Encrypt_allocations_witness :
  exists tok st' nc preAuth out,
    Encrypt dash_reader demo_message demo_key demo_footer demo_state
    = Ok (tok, None) st'
    /\ heap st' = heap demo_state ++ [nc; preAuth; out]
    /\ length nc = 24 + slen demo_message + 16.
Proof.
  assert (exists tok st',
            Encrypt dash_reader demo_message demo_key demo_footer demo_state
            = Ok (tok, None) st') as (tok & st' & Hrun)
    by (vm_compute; eexists _, _; reflexivity).
  assert (globals_ok (heap demo_state)) as Hg by reflexivity.
  assert (valid (heap demo_state) demo_message) as Hm by (simpl; lia).
  assert (valid (heap demo_state) demo_key) as Hk by (simpl; lia).
  assert (valid (heap demo_state) demo_footer) as Hf by (simpl; lia).
  destruct (Encrypt_allocations dash_reader demo_state st' demo_message
              demo_key demo_footer tok Hg Hm Hk Hf Hrun)
    as (nc & preAuth & out & Hheap & Hlen & _).
  exists tok, st', nc, preAuth, out. repeat split; assumption.
Defined.

Lemma Encrypt_nonce_in_token_witness :
  exists tok1 st1 tok2 st2,
    Encrypt dash_reader demo_message demo_key demo_footer demo_state
    = Ok (tok1, None) st1
    /\ Encrypt dash_reader demo_message demo_key nil_slice demo_state
       = Ok (tok2, None) st2
    /\ take 41 (bytes (heap st1) tok1) = take 41 (bytes (heap st2) tok2).
Proof.
  assert (exists tok st',
            Encrypt dash_reader demo_message demo_key demo_footer demo_state
            = Ok (tok, None) st') as (tok1 & st1 & Hrun1)
    by (vm_compute; eexists _, _; reflexivity).
  assert (exists tok st',
            Encrypt dash_reader demo_message demo_key nil_slice demo_state
            = Ok (tok, None) st') as (tok2 & st2 & Hrun2)
    by (vm_compute; eexists _, _; reflexivity).
  exists tok1, st1, tok2, st2. split; [exact Hrun1|]. split; [exact Hrun2|].
  assert (globals_ok (heap demo_state)) as Hg by reflexivity.
  assert (valid (heap demo_state) demo_message) as Hm by (simpl; lia).
  assert (valid (heap demo_state) demo_key) as Hk by (simpl; lia).
  assert (valid (heap demo_state) demo_footer) as Hf by (simpl; lia).
  exact (proj2 (Encrypt_nonce_in_token dash_reader demo_state st1 st2
                  demo_message demo_key demo_footer demo_key nil_slice
                  tok1 tok2 Hg Hm Hk Hf Hk I Hrun1 Hrun2)).
Defined.

Lemma le64_stores_witness :
  le64 7 (Slice 7 0 5 10) more_state = Panic
  /\ exists st',
       le64 7 more_buffer more_state = Ok tt st'
       /\ bytes (heap st') more_buffer
          = little_endian 8 (7 mod 2 ^ 63)%Z
              ++ drop 8 (bytes (heap more_state) more_buffer)
       /\ length (heap st') = length (heap more_state)
       /\ calls st' = calls more_state.
Proof.
  split.
  - apply (proj1 (le64_stores more_state 7 (Slice 7 0 5 10)
                    ltac:(simpl; lia))).
    simpl; lia.
  - apply (proj2 (le64_stores more_state 7 more_buffer ltac:(simpl; lia))).
    simpl; lia.
Defined.

Lemma Encrypt_token_alphabet_witness :
  exists tok st',
    Encrypt dash_reader demo_message demo_key demo_footer demo_state
    = Ok (tok, None) st'
    /\ Forall (fun c => c ∈ base64.encodeURL \/ c = "."%byte)
              (bytes (heap st') tok).
Proof.
  assert (exists tok st',
            Encrypt dash_reader demo_message demo_key demo_footer demo_state
            = Ok (tok, None) st') as (tok & st' & Hrun)
    by (vm_compute; eexists _, _; reflexivity).
  exists tok, st'. split; [exact Hrun|].
  assert (globals_ok (heap demo_state)) as Hg by reflexivity.
  assert (valid (heap demo_state) demo_message) as Hm by (simpl; lia).
  assert (valid (heap demo_state) demo_key) as Hk by (simpl; lia).
  assert (valid (heap demo_state) demo_footer) as Hf by (simpl; lia).
  exact (Encrypt_token_alphabet dash_reader demo_state st'
           demo_message demo_key demo_footer tok Hg Hm Hk Hf Hrun).
Defined.

Lemma Decrypt_bad_character_rejected_witness :
  exists st' n,
    Decrypt more_padded more_key more_state
    = Ok (nil_slice, nil_slice, false) st'
    /\ calls st' = replicate n CallDecode ++ calls more_state.
Proof.
  apply (Decrypt_bad_character_rejected more_state more_padded more_key
           (list_byte_of_string "cGF5bG9hZA==") [] "="%byte).
  - reflexivity.
  - simpl; lia.
  - reflexivity.
  - apply (bool_decide_eq_true_1 _). vm_compute. reflexivity.
  - left. reflexivity.
  - vm_compute. tauto.
  - reflexivity.
  - reflexivity.
Defined.

Lemma Encrypt_randomness_witness :
  Encrypt (Buffer_Read (replicate 30 "-"%byte)) demo_message demo_key
          demo_footer demo_state
  = Encrypt dash_reader demo_message demo_key demo_footer demo_state.
Proof.
  refine (proj1 (Encrypt_randomness dash_reader demo_state demo_message
                   demo_key demo_footer _ _ _ _)
                (Buffer_Read (replicate 30 "-"%byte)) _);
    try reflexivity; simpl; lia.
Defined.
